(** * Truck Route Optimizer: Clarke-Wright savings + 2-opt

    A shallow embedding of the optimisation kernel and of the CSV helpers of
    the single-page application (the TypeScript listing in [README.md]).

    - JavaScript numbers are idealised as exact rationals ([Q]): sums and
      differences of distances and of loads are exact. The trigonometric
      distance function [haversineKm] is defined over the reals in module
      [Geo], and the combinatorial kernel takes the distance function as a
      section variable, so every kernel theorem holds for any distance
      oracle with finite values.
    - Where the rounding of double-precision sums decides a property, the
      merge loop is run again over an arbitrary number type for the loads
      (section [Loads]), binary64 numbers being one instance; where a value
      can be [NaN], it is kept as [None] ([savingNumber]).
    - A thrown [TypeError] and an exhausted iteration budget of the [while]
      loop are explicit outcomes of the computation. *)

From Stdlib Require Import String Ascii Bool Arith ZArith QArith Qabs Qreals.
From Stdlib Require Import DecimalString Reals.
From Stdlib Require Floats Uint63.
From Stdlib Require Import List Lia Lqa Psatz Permutation Sorted.
Import ListNotations.

Local Open Scope Q_scope.

(** ** Types *)

(** [{ lat: number; lng: number }], the structural type [haversineKm] takes. *)
Record LatLng : Type := mkLatLng { lat : Q; lng : Q }.

Module Stop.
Record t : Type := mk {
  id : string;
  name : string;
  lat : Q;
  lng : Q;
  demand : Q (* quantity loaded at pickup *)
}.
Definition pt (c : t) : LatLng := mkLatLng (lat c) (lng c).
End Stop.

Module Depot.
Record t : Type := mk {
  name : string;
  lat : Q;
  lng : Q
}.
Definition pt (d : t) : LatLng := mkLatLng (lat d) (lng d).
End Depot.

Module RouteResult.
Record t : Type := mk {
  route : list Stop.t; (* ordered customers (excluding depot) *)
  distanceKm : Q;
  load : Q
}.
End RouteResult.

(** The working route, [type R = { customers: Stop[]; load: number }] in
    the source (named [Route] here, [R] being the type of real numbers). *)
Module Route.
Record t : Type := mk {
  customers : list Stop.t;
  load : Q
}.
End Route.

(** [type Saving = { i: Stop; j: Stop; s: number }]. *)
Module Saving.
Record t : Type := mk {
  i : Stop.t;
  j : Stop.t;
  s : Q
}.
Definition pair (sv : t) : Stop.t * Stop.t := (i sv, j sv).
End Saving.

(** ** Outcomes: a returned value, a thrown [TypeError], or a [while] loop
    that is still running when the iteration budget is used up. *)

Inductive outcome (A : Type) : Type :=
| Ret (a : A)
| TypeError
| OutOfFuel.
Arguments Ret {A} a.
Arguments TypeError {A}.
Arguments OutOfFuel {A}.

Definition bind {A B : Type} (m : outcome A) (f : A -> outcome B) : outcome B :=
  match m with
  | Ret a => f a
  | TypeError => TypeError
  | OutOfFuel => OutOfFuel
  end.

Notation "'let*' x ':=' m 'in' k" := (bind m (fun x => k))
  (at level 10, x pattern, m at level 100, k at level 200).

Fixpoint mapM {A B : Type} (f : A -> outcome B) (l : list A) : outcome (list B) :=
  match l with
  | [] => Ret []
  | x :: xs =>
      let* y := f x in
      let* ys := mapM f xs in
      Ret (y :: ys)
  end.

(** ** [Array.prototype.sort]

    ECMAScript (2019 and later) specifies a stable sort: with a consistent
    comparator, [a] is placed before [b] when [cmp a b < 0], after it when
    [cmp a b > 0], and elements that compare equal keep their order. *)

Section ArraySort.
Context {A : Type} (cmp : A -> A -> Q).

Fixpoint sort_insert (x : A) (l : list A) : list A :=
  match l with
  | [] => [x]
  | y :: ys =>
      if Qlt_le_dec 0 (cmp x y) then y :: sort_insert x ys
      else x :: y :: ys
  end.

Fixpoint Array_sort (l : list A) : list A :=
  match l with
  | [] => []
  | x :: xs => sort_insert x (Array_sort xs)
  end.

(** [a] may stand before [b] in the output. *)
Definition before_ok (a b : A) : Prop := cmp a b <= 0.
End ArraySort.

(** ** JavaScript objects used as string-keyed tables
    ([Record<string, number>]); a missing key reads as [undefined].

    One key is not stored by an object literal: [__proto__]. Assigning a
    number to it does nothing, and reading it yields the prototype object,
    which the arithmetic below turns into [NaN] just as it does [undefined];
    both read as [None]. *)

Definition Record_ := string -> option Q.
Definition emptyRecord : Record_ := fun _ => None.
Definition protoKey : string := "__proto__".
Definition setKey (k : string) (v : Q) (m : Record_) : Record_ :=
  fun k' =>
    if String.eqb k protoKey then m k'
    else if String.eqb k' k then Some v else m k'.

(** Arithmetic on values read from a table: a value that is no number
    makes the result [NaN], kept as [None]. *)
Definition numAdd (a b : option Q) : option Q :=
  match a, b with Some x, Some y => Some (x + y) | _, _ => None end.
Definition numSub (a b : option Q) : option Q :=
  match a, b with Some x, Some y => Some (x - y) | _, _ => None end.

(** The comparator [(a, b) => b.s - a.s] on numbers that may be [NaN];
    a [NaN] result is read by the sort as [+0]. *)
Definition compareNumbers (a b : option Q) : Q :=
  match numSub b a with
  | Some d => d
  | None => 0
  end.

(** [x >= y] on numbers that may be [NaN]: false as soon as one is. *)
Definition numGe (x y : option Q) : Prop :=
  match x, y with
  | Some a, Some b => b <= a
  | _, _ => False
  end.

(** ** Array helpers *)

(** [arr.slice(a, b)] for [0 <= a <= b]. *)
Definition slice {A : Type} (l : list A) (a b : nat) : list A :=
  firstn (b - a) (skipn a l).

(** [arr[idx] = x] for an index inside the array. *)
Definition setNth {A : Type} (l : list A) (idx : nat) (x : A) : list A :=
  firstn idx l ++ match skipn idx l with [] => [] | _ :: tl => x :: tl end.

(** [arr.splice(idx, 1)]. *)
Definition splice1 {A : Type} (l : list A) (idx : nat) : list A :=
  firstn idx l ++ skipn (S idx) l.

(** The unordered pairs [(customers[i], customers[j])], [i] iterating outer
    and [j > i] iterating inner. *)
Fixpoint pairs {A : Type} (l : list A) : list (A * A) :=
  match l with
  | [] => []
  | a :: rest => map (fun b => (a, b)) rest ++ pairs rest
  end.

(** ** Clarke-Wright Savings Heuristic (CVRP) *)

Section Kernel.
(** The distance oracle; the application passes [Geo.haversineKm]
    evaluated in double precision. *)
Variable haversineKm : LatLng -> LatLng -> Q.

(** A call of [haversineKm] on values that may be [undefined]: reading
    [.lat] of [undefined] throws a [TypeError]. *)
Definition haversineKm_call (a b : option LatLng) : outcome Q :=
  match a, b with
  | Some a, Some b => Ret (haversineKm a b)
  | _, _ => TypeError
  end.

Section Solve.
Variable depot : Depot.t.

(** *** Precomputed distances *)

Definition id_ (i j : string) : string := (i ++ "|" ++ j)%string.

Definition build_d0 (customers : list Stop.t) : Record_ :=
  fold_left
    (fun d0 c => setKey (Stop.id c) (haversineKm (Depot.pt depot) (Stop.pt c)) d0)
    customers emptyRecord.

Definition build_dij (customers : list Stop.t) : Record_ :=
  fold_left
    (fun dij '(a, b) =>
       let d := haversineKm (Stop.pt a) (Stop.pt b) in
       setKey (id_ (Stop.id a) (Stop.id b)) d
         (setKey (id_ (Stop.id b) (Stop.id a)) d dij))
    (pairs customers) emptyRecord.

(** *** Savings [S(i,j) = d0(i) + d0(j) - d(i,j)] *)

(** [d0[a.id] + d0[b.id] - dij[id(a.id, b.id)]] as the code computes it:
    [NaN] ([None]) when one of the three reads yields no number. *)
Definition savingNumber (d0 dij : Record_) (a b : Stop.t) : option Q :=
  numSub (numAdd (d0 (Stop.id a)) (d0 (Stop.id b)))
         (dij (id_ (Stop.id a) (Stop.id b))).

(** The saving as a rational. For stops whose ids are not [__proto__] every
    key read has been written and the number is never [NaN]
    ([savingValue_defined]); the kernel below is the code's on such stops. *)
Definition savingValue (d0 dij : Record_) (a b : Stop.t) : Q :=
  match savingNumber d0 dij a b with
  | Some v => v
  | None => 0
  end.

Definition generateSavings (customers : list Stop.t) : list Saving.t :=
  let d0 := build_d0 customers in
  let dij := build_dij customers in
  map (fun '(a, b) => Saving.mk a b (savingValue d0 dij a b)) (pairs customers).

(** [savings.sort((a, b) => b.s - a.s)] *)
Definition sortedSavings (customers : list Stop.t) : list Saving.t :=
  Array_sort (fun a b => Saving.s b - Saving.s a) (generateSavings customers).

(** The same two steps on the numbers themselves, [NaN] included: the
    entries [{ i, j, s }] in generation order, and in the order the sort
    leaves them. *)
Definition savingNumbers (customers : list Stop.t)
  : list (Stop.t * Stop.t * option Q) :=
  let d0 := build_d0 customers in
  let dij := build_dij customers in
  map (fun '(a, b) => (a, b, savingNumber d0 dij a b)) (pairs customers).

Definition sortedSavingNumbers (customers : list Stop.t)
  : list (Stop.t * Stop.t * option Q) :=
  Array_sort (fun a b => compareNumbers (snd a) (snd b)) (savingNumbers customers).
End Solve.

(** *** Route merging *)

(** Which route a stop is currently in and whether at an end:
    [Some (rIdx, Some true)] at the start, [Some (rIdx, Some false)] at the
    end, [Some (rIdx, None)] inside ([atStart: null]), [None] when absent. *)
Fixpoint findRouteAndPos_from (rIdx : nat) (routes : list Route.t) (stop : Stop.t)
  : option (nat * option bool) :=
  match routes with
  | [] => None
  | rt :: rest =>
      let r := Route.customers rt in
      match r with
      | [] => findRouteAndPos_from (S rIdx) rest stop
      | r0 :: _ =>
          if String.eqb (Stop.id r0) (Stop.id stop) then Some (rIdx, Some true)
          else if String.eqb (Stop.id (last r r0)) (Stop.id stop) then Some (rIdx, Some false)
          else if existsb (fun s => String.eqb (Stop.id s) (Stop.id stop)) r
               then Some (rIdx, None)
          else findRouteAndPos_from (S rIdx) rest stop
      end
  end.

Definition findRouteAndPos (routes : list Route.t) (stop : Stop.t) :=
  findRouteAndPos_from 0 routes stop.

(** The body of [for (const { i, j } of savings)]: the routes after the
    entry has been processed (unchanged on each [continue]). *)
Definition mergeStep (capacity : Q) (routes : list Route.t) (sv : Saving.t)
  : list Route.t :=
  match findRouteAndPos routes (Saving.i sv), findRouteAndPos routes (Saving.j sv) with
  | Some (fi_rIdx, fi_atStart), Some (fj_rIdx, fj_atStart) =>
      if Nat.eqb fi_rIdx fj_rIdx then routes (* same route *)
      else
        match fi_atStart, fj_atStart with
        | Some fi_start, Some fj_start =>
            match nth_error routes fi_rIdx, nth_error routes fj_rIdx with
            | Some ri, Some rj =>
                let newLoad := Route.load ri + Route.load rj in
                if Qlt_le_dec capacity newLoad then routes
                else
                  let left := if fi_start then rev (Route.customers ri)
                              else Route.customers ri in
                  let right := if fj_start then Route.customers rj
                               else rev (Route.customers rj) in
                  let merged := left ++ right in
                  splice1 (setNth routes fi_rIdx (Route.mk merged newLoad)) fj_rIdx
            | _, _ => routes (* not reached: both indices are in range *)
            end
        | _, _ => routes (* inside a route -> skip *)
        end
  | _, _ => routes
  end.

Definition mergeLoop (capacity : Q) (savings : list Saving.t) (routes : list Route.t)
  : list Route.t :=
  fold_left (mergeStep capacity) savings routes.

(** Each customer is its own route (depot - i - depot). *)
Definition initRoutes (customers : list Stop.t) : list Route.t :=
  map (fun c => Route.mk [c] (Stop.demand c)) customers.

(** The working routes at the end of the merge phase. *)
Definition mergePhase (depot : Depot.t) (customers : list Stop.t) (capacity : Q)
  : list Route.t :=
  mergeLoop capacity (sortedSavings depot customers) (initRoutes customers).

(** The route written by a merge: [left.concat(right)] after orientation. *)
Definition mergedCustomers (fi_start fj_start : bool) (ri rj : Route.t) : list Stop.t :=
  (if fi_start then rev (Route.customers ri) else Route.customers ri)
  ++ (if fj_start then Route.customers rj else rev (Route.customers rj)).

(** *** 2-opt improvement per route *)

Fixpoint foldM {A S : Type} (f : S -> A -> outcome S) (l : list A) (st : S)
  : outcome S :=
  match l with
  | [] => Ret st
  | x :: xs => let* st' := f st x in foldM f xs st'
  end.

(** The tolerance [1e-9]. *)
Definition tolerance : Q := 1 # 1000000000.

Section TwoOpt.
Variable depot : Depot.t.

(** [node = (idx) => idx === -1 ? depot : idx === seq.length ? depot : seq[idx]];
    an index outside the array reads [undefined]. *)
Definition node (seq : list Stop.t) (idx : Z) : option LatLng :=
  if Z.eqb idx (-1) then Some (Depot.pt depot)
  else if Z.eqb idx (Z.of_nat (length seq)) then Some (Depot.pt depot)
  else if Z.ltb idx 0 then None
  else option_map Stop.pt (nth_error seq (Z.to_nat idx)).

Definition distWithDepot (best : list Stop.t) (a b : Z) : outcome Q :=
  let A := node best a in
  let B := node best (a + 1) in
  let C := node best b in
  let D := node best (b + 1) in
  let* x := haversineKm_call A B in
  let* y := haversineKm_call C D in
  Ret (x + y).

(** [before] as the loop body computes it. *)
Definition beforeOf (best : list Stop.t) (i k : nat) : outcome Q :=
  let* x := distWithDepot best (Z.of_nat i - 1) (Z.of_nat i) in
  let* y := distWithDepot best (Z.of_nat k) (Z.of_nat k + 1) in
  Ret (x + y).

(** [best.slice(0, i).concat(best.slice(i, k + 1).reverse(), best.slice(k + 1))] *)
Definition candidateOf (best : list Stop.t) (i k : nat) : list Stop.t :=
  slice best 0 i ++ rev (slice best i (k + 1)) ++ skipn (k + 1) best.

(** [after], measured on the candidate. *)
Definition afterOf (candidate : list Stop.t) (i k : nat) : outcome Q :=
  let* x := haversineKm_call (node candidate (Z.of_nat i - 1)) (node candidate (Z.of_nat i)) in
  let* y := haversineKm_call (node candidate (Z.of_nat k)) (node candidate (Z.of_nat k + 1)) in
  Ret (x + y).

(** The body of the inner loop on the state [(best, improved)]. *)
Definition twoOptBody (i : nat) (st : list Stop.t * bool) (k : nat)
  : outcome (list Stop.t * bool) :=
  let '(best, improved) := st in
  let* before := beforeOf best i k in
  let candidate := candidateOf best i k in
  let* after := afterOf candidate i k in
  if Qlt_le_dec (after + tolerance) before
  then Ret (candidate, true)
  else Ret (best, improved).

(** [for (let k = i + 1; k < best.length; k++)]; the bound is read at
    loop entry, [best.length] being constant ([candidateOf_length]). *)
Definition innerLoop (st : list Stop.t * bool) (i : nat)
  : outcome (list Stop.t * bool) :=
  foldM (twoOptBody i) (seq (S i) (length (fst st) - S i)) st.

(** One pass: [improved = false] and the two nested loops,
    [for (let i = 0; i < best.length - 1; i++)]. *)
Definition pass (best : list Stop.t) : outcome (list Stop.t * bool) :=
  foldM innerLoop (seq 0 (length best - 1)) (best, false).

(** [while (improved) { ... }], with an iteration budget. *)
Fixpoint whileImproved (fuel : nat) (best : list Stop.t) : outcome (list Stop.t) :=
  match fuel with
  | O => OutOfFuel
  | S fuel' =>
      let* st := pass best in
      if snd st then whileImproved fuel' (fst st) else Ret (fst st)
  end.

Definition twoOpt (fuel : nat) (seq : list Stop.t) : outcome (list Stop.t) :=
  if Nat.ltb (length seq) 4 then Ret seq
  else whileImproved fuel seq.

(** Distance: depot -> ... -> depot *)
Definition roundTrip (improved : list Stop.t) : Q :=
  let '(dist, prev) :=
    fold_left (fun '(dist, prev) c => (dist + haversineKm prev (Stop.pt c), Stop.pt c))
              improved (0, Depot.pt depot) in
  dist + haversineKm prev (Depot.pt depot).

(** The result emitted for a working route whose sequence 2-opt returns
    as it is. *)
Definition plainResult (r : Route.t) : RouteResult.t :=
  RouteResult.mk (Route.customers r)
                 (roundTrip (Route.customers r))
                 (Route.load r).

(** [results.sort((a, b) => a.distanceKm - b.distanceKm)] *)
Definition rank (results : list RouteResult.t) : list RouteResult.t :=
  Array_sort (fun a b => RouteResult.distanceKm a - RouteResult.distanceKm b) results.

(** The routes 2-opt leaves alone: [seq.length < 4]. *)
Definition short (r : Route.t) : bool := Nat.ltb (length (Route.customers r)) 4.

Definition toResult (fuel : nat) (r : Route.t) : outcome RouteResult.t :=
  let* improved := twoOpt fuel (Route.customers r) in
  Ret (RouteResult.mk improved (roundTrip improved) (Route.load r)).

Definition clarkeWright (fuel : nat) (customers : list Stop.t) (capacity : Q)
  : outcome (list RouteResult.t) :=
  if Nat.eqb (length customers) 0 then Ret []
  else
    let routes := mergePhase depot customers capacity in
    let* results := mapM (toResult fuel) routes in
    Ret (Array_sort
           (fun a b => RouteResult.distanceKm a - RouteResult.distanceKm b)
           results).
End TwoOpt.
End Kernel.

(** ** Measures used to state the invariants *)

Definition sumQ (l : list Q) : Q := fold_right Qplus 0 l.
Definition totalDemand (stops : list Stop.t) : Q := sumQ (map Stop.demand stops).
Definition totalLoad (routes : list Route.t) : Q := sumQ (map Route.load routes).
Definition allStops (routes : list Route.t) : list Stop.t :=
  concat (map Route.customers routes).

(** The invariant behind the capacity bound: a working route is an initial
    singleton, or it has at least two stops and a load within capacity. *)
Definition cap_ok (customers : list Stop.t) (capacity : Q) (r : Route.t) : Prop :=
  (exists c, In c customers /\ r = Route.mk [c] (Stop.demand c)) \/
  ((2 <= length (Route.customers r))%nat /\ Route.load r <= capacity).

(** ** The loads in machine arithmetic

    The merge loop once more, over an arbitrary type [num] of numbers for
    the loads: [add] is the addition [ri.load + rj.load], [exceeds x y] the
    test [x > y], [demandOf] the demand of a stop as a number. A working
    route is the pair of its customers and its load. The merge loop of the
    kernel is the instance of exact rationals ([mergeLoopIn_exact]); the
    instance of binary64 numbers computes the loads the code computes. *)

Section Loads.
Context {num : Type}.
Variable add : num -> num -> num.
Variable exceeds : num -> num -> bool.
Variable demandOf : Stop.t -> num.

(** [findRouteAndPos] reads the customers of a route only. *)
Definition customersOnly (routes : list (list Stop.t * num)) : list Route.t :=
  map (fun r => Route.mk (fst r) 0) routes.

Definition mergeStepIn (capacity : num) (routes : list (list Stop.t * num))
           (sv : Saving.t) : list (list Stop.t * num) :=
  match findRouteAndPos (customersOnly routes) (Saving.i sv),
        findRouteAndPos (customersOnly routes) (Saving.j sv) with
  | Some (fi_rIdx, fi_atStart), Some (fj_rIdx, fj_atStart) =>
      if Nat.eqb fi_rIdx fj_rIdx then routes
      else
        match fi_atStart, fj_atStart with
        | Some fi_start, Some fj_start =>
            match nth_error routes fi_rIdx, nth_error routes fj_rIdx with
            | Some ri, Some rj =>
                let newLoad := add (snd ri) (snd rj) in
                if exceeds newLoad capacity then routes
                else
                  let left := if fi_start then rev (fst ri) else fst ri in
                  let right := if fj_start then fst rj else rev (fst rj) in
                  let merged := left ++ right in
                  splice1 (setNth routes fi_rIdx (merged, newLoad)) fj_rIdx
            | _, _ => routes
            end
        | _, _ => routes
        end
  | _, _ => routes
  end.

Definition mergeLoopIn (capacity : num) (savings : list Saving.t)
           (routes : list (list Stop.t * num)) : list (list Stop.t * num) :=
  fold_left (mergeStepIn capacity) savings routes.

Definition initRoutesIn (customers : list Stop.t) : list (list Stop.t * num) :=
  map (fun c => ([c], demandOf c)) customers.

(** [stops.reduce((s, r) => s + r.demand, 0)], the sum as the application
    adds it up; [zero] is the number [0]. *)
Definition reduceDemand (zero : num) (stops : list Stop.t) : num :=
  fold_left (fun s r => add s (demandOf r)) stops zero.
End Loads.

(** *** Binary64 numbers *)

(** The double nearest to an integer (exact below [2^53]). *)
Definition doubleOfZ (z : Z) : PrimFloat.float :=
  if Z.ltb z 0 then PrimFloat.opp (PrimFloat.of_uint63 (Uint63.of_Z (Z.opp z)))
  else PrimFloat.of_uint63 (Uint63.of_Z z).

(** The double a decimal literal denotes, for a rational whose numerator
    and denominator are below [2^53]: the correctly rounded quotient. *)
Definition toDouble (q : Q) : PrimFloat.float :=
  PrimFloat.div (doubleOfZ (Qnum q)) (doubleOfZ (Zpos (Qden q))).

(** The working routes at the end of the merge phase with the loads in
    double precision, for savings taken in the order given. *)
Definition mergeLoopDouble (capacity : Q) (savings : list Saving.t)
           (customers : list Stop.t) : list (list Stop.t * PrimFloat.float) :=
  mergeLoopIn PrimFloat.add (fun x y => PrimFloat.ltb y x)
              (toDouble capacity) savings
              (initRoutesIn (fun c => toDouble (Stop.demand c)) customers).

(** The sum of the demands of a list of stops in double precision, added
    from the left starting at [0]. *)
Definition reduceDemandDouble (stops : list Stop.t) : PrimFloat.float :=
  reduceDemand PrimFloat.add (fun c => toDouble (Stop.demand c)) (toDouble 0) stops.

(** The exact value of a finite double: sign, mantissa and exponent. *)
Definition pow2 (e : Z) : Q :=
  if Z.ltb e 0 then 1 # Z.to_pos (2 ^ (- e)) else inject_Z (2 ^ e).

Definition valueOf (x : PrimFloat.float) : option Q :=
  match FloatOps.Prim2SF x with
  | SpecFloat.S754_zero _ => Some 0
  | SpecFloat.S754_finite s m e =>
      Some ((if s then -1 else 1) * inject_Z (Zpos m) * pow2 e)
  | _ => None
  end.

(** The exact sum of the values of a list of doubles. *)
Definition sumValues (l : list PrimFloat.float) : option Q :=
  fold_right (fun x acc => numAdd (valueOf x) acc) (Some 0) l.

(** The test [x > y] on exact rationals. *)
Definition exceedsQ (x y : Q) : bool := if Qlt_le_dec y x then true else false.

(** A route with its load in machine arithmetic against a working route of
    the kernel: the same customers, and loads related by [L]. *)
Definition sameRouteBy {num : Type} (L : num -> Q -> Prop)
           (rn : list Stop.t * num) (r : Route.t) : Prop :=
  fst rn = Route.customers r /\ L (snd rn) (Route.load r).

(** The number [x] has the exact value [q]; [val] is the exact value of a
    number, [None] for one that has none ([NaN] and the infinities). *)
Definition valIs {num : Type} (val : num -> option Q) (x : num) (q : Q) : Prop :=
  exists v, val x = Some v /\ v == q.

(** The same customers, and a load whose exact value is the kernel's. *)
Definition sameRoute {num : Type} (val : num -> option Q) :=
  sameRouteBy (valIs val).

(** A whole number, not negative. *)
Definition whole (q : Q) : Prop := exists z : Z, (0 <= z)%Z /\ q == inject_Z z.

(** Up to [2^53] every whole number is a binary64 number. *)
Definition maxExact : Q := inject_Z (2 ^ 53).

(** Addition without rounding on whole numbers whose sum is at most
    [2^53], as binary64 addition is. *)
Definition exactOnWhole {num : Type} (add : num -> num -> num)
           (val : num -> option Q) : Prop :=
  forall x y p q, val x = Some p -> val y = Some q ->
                  whole p -> whole q -> p + q <= maxExact ->
                  valIs val (add x y) (p + q).

(** Comparison by exact value, as that of two finite doubles is. *)
Definition exactCompare {num : Type} (exceeds : num -> num -> bool)
           (val : num -> option Q) : Prop :=
  forall x y p q, val x = Some p -> val y = Some q ->
                  (exceeds x y = true <-> q < p).

(** The two loads of a merge can be added without rounding. *)
Definition addable (p q : Q) : Prop := whole p /\ whole q /\ p + q <= maxExact.

(** ** Utils: Geometry & Distance, over the real numbers *)

Module Geo.
Local Open Scope R_scope.

Definition toRad (deg : R) : R := (deg * PI) / 180.

(** [h], the haversine of the central angle. *)
Definition haversineH (a b : LatLng) : R :=
  let dLat := toRad (Q2R (lat b) - Q2R (lat a)) in
  let dLon := toRad (Q2R (lng b) - Q2R (lng a)) in
  let lat1 := toRad (Q2R (lat a)) in
  let lat2 := toRad (Q2R (lat b)) in
  let sinDLat := sin (dLat / 2) in
  let sinDLon := sin (dLon / 2) in
  sinDLat * sinDLat + cos lat1 * cos lat2 * sinDLon * sinDLon.

(** The argument handed to [Math.asin] for a computed [h]:
    [Math.min(1, Math.sqrt(h))]. *)
Definition clampedRoot (h : R) : R := Rmin 1 (sqrt h).

Definition asinArg (a b : LatLng) : R := clampedRoot (haversineH a b).

Definition haversineKm (a b : LatLng) : R :=
  let R_km := 6371 in
  2 * R_km * asin (asinArg a b).
End Geo.

(** ** CSV helpers *)

Module CSV.
Local Open Scope string_scope.

Definition dquote : ascii := "034"%char.
Definition LF : ascii := "010"%char.
Definition CR : ascii := "013"%char.
Definition TAB : ascii := "009"%char.

Definition str (c : ascii) : string := String c EmptyString.

(** [arr.join(sep)] *)
Fixpoint join (sep : string) (l : list string) : string :=
  match l with
  | [] => EmptyString
  | [x] => x
  | x :: xs => x ++ sep ++ join sep xs
  end.

(** The [replace] of [esc]: every double-quote character is doubled. *)
Fixpoint doubleQuotes (s : string) : string :=
  match s with
  | EmptyString => EmptyString
  | String c s' =>
      if Ascii.eqb c dquote then String dquote (String dquote (doubleQuotes s'))
      else String c (doubleQuotes s')
  end.

(** [esc], on the string obtained from the cell value: the text with its
    quotes doubled, between two double-quote characters. *)
Definition esc (v : string) : string :=
  str dquote ++ doubleQuotes v ++ str dquote.

(** [String(n)] for a number: plain decimal notation, which is what
    JavaScript prints for magnitudes from 1e-6 up to 1e21; the rational is
    printed exactly when its expansion ends within 17 fractional digits. *)
Definition showZ (z : Z) : string := NilZero.string_of_int (Z.to_int z).

Fixpoint fracDigits (fuel : nat) (r d : Z) : string :=
  match fuel with
  | O => EmptyString
  | S fuel' =>
      if Z.eqb r 0 then EmptyString
      else showZ (r * 10 / d) ++ fracDigits fuel' ((r * 10) mod d) d
  end.

Definition numberToString (q : Q) : string :=
  let d := Zpos (Qden q) in
  let a := Z.abs (Qnum q) in
  let sign := if Z.ltb (Qnum q) 0 then "-" else EmptyString in
  let r := (a mod d)%Z in
  sign ++ showZ (a / d)
       ++ (if Z.eqb r 0 then EmptyString else "." ++ fracDigits 17 r d).

(** A column of [toCSV]: the key, the text of a row's cell (the value
    converted by [String], empty for [undefined]), and the optional title. *)
Record ColumnSpec (T : Type) : Type := mkColumn {
  key : string;
  cell : T -> string;
  title : option string
}.
Arguments mkColumn {T}.
Arguments key {T}.
Arguments cell {T}.
Arguments title {T}.

Definition nonEmpty (s : string) : bool :=
  match s with EmptyString => false | _ => true end.

(** [toCSV(rows, columns)]; [ownKeys] stands for
    [Object.keys(rows[0] ?? {})], used when no columns are given. *)
Definition toCSV {T : Type} (ownKeys : list (ColumnSpec T))
           (rows : list T) (columns : list (ColumnSpec T)) : string :=
  let cols := match columns with [] => ownKeys | _ => columns end in
  let header :=
    join "," (map (fun c => match title c with Some t => t | None => key c end) cols) in
  let body :=
    join (str LF) (map (fun r => join "," (map (fun c => esc (cell c r)) cols)) rows) in
  join (str LF) (filter nonEmpty [header; body]).

(** The text [exportCSV] hands to [download]. *)
Definition exportCSV (stops : list Stop.t) : string :=
  let cols := [
    mkColumn "id" Stop.id (Some "ID");
    mkColumn "name" Stop.name (Some "Name");
    mkColumn "lat" (fun s => numberToString (Stop.lat s)) (Some "Lat");
    mkColumn "lng" (fun s => numberToString (Stop.lng s)) (Some "Lng");
    mkColumn "demand" (fun s => numberToString (Stop.demand s)) (Some "Demand")
  ] in
  toCSV [] stops cols.

(** *** Import *)

(** A JavaScript number as the importer sees it: [None] stands for the
    values that are not finite ([NaN] and the infinities). *)
Definition jsnum := option Q.

Definition isDigit (c : ascii) : bool :=
  let n := nat_of_ascii c in Nat.leb 48 n && Nat.leb n 57.

(** White space among the code units below 256: the space, the controls
    9 to 13 and the no-break space. *)
Definition isSpace (c : ascii) : bool :=
  let n := nat_of_ascii c in
  Nat.eqb n 32 || (Nat.leb 9 n && Nat.leb n 13) || Nat.eqb n 160.

Fixpoint trimStart (s : string) : string :=
  match s with
  | String c s' => if isSpace c then trimStart s' else s
  | EmptyString => EmptyString
  end.

Fixpoint rev_string (s acc : string) : string :=
  match s with
  | EmptyString => acc
  | String c s' => rev_string s' (String c acc)
  end.

Definition trim (s : string) : string :=
  rev_string (trimStart (rev_string (trimStart s) EmptyString)) EmptyString.

(** The lower-case form of a code unit below 256: the letters [A] to [Z]
    and the accented capitals 192 to 222 (215, the multiplication sign, is
    no letter) are 32 below their lower-case forms. *)
Definition lowerChar (c : ascii) : ascii :=
  let n := nat_of_ascii c in
  if (Nat.leb 65 n && Nat.leb n 90)
     || (Nat.leb 192 n && Nat.leb n 222 && negb (Nat.eqb n 215))
  then ascii_of_nat (n + 32) else c.

Fixpoint toLowerCase (s : string) : string :=
  match s with
  | EmptyString => EmptyString
  | String c s' => String (lowerChar c) (toLowerCase s')
  end.

(** The digits at the front of [s]: their value after [acc], their number,
    and the rest of the string. *)
Fixpoint takeDigits (s : string) (acc : Z) (n : nat) : Z * nat * string :=
  match s with
  | String c s' =>
      if isDigit c
      then takeDigits s' (acc * 10 + Z.of_nat (nat_of_ascii c - 48)) (S n)
      else (acc, n, s)
  | EmptyString => (acc, n, s)
  end.

Definition takeSign (s : string) : bool * string :=
  match s with
  | String c s' =>
      if Ascii.eqb c "-" then (true, s')
      else if Ascii.eqb c "+" then (false, s')
      else (false, s)
  | EmptyString => (false, s)
  end.

Definition pow10 (e : Z) : Q :=
  if Z.ltb e 0 then 1 # Z.to_pos (10 ^ (- e)) else inject_Z (10 ^ e).

(** The least magnitude that is read as an infinity: halfway between the
    largest double and [2^1024]. *)
Definition overflowBound : Q := inject_Z (2 ^ 1024 - 2 ^ 970).

(** The longest prefix of [s] that is a decimal literal
    ([digits [. digits] [e [sign] digits]] after an optional sign), with
    the rest of the string; [None] when there is no such prefix, or when the
    literal is [Infinity] or too large for a finite double. *)
Definition decimalPrefix (s : string) : option (Q * string) :=
  let '(neg, s0) := takeSign s in
  let '(iv, ni, s1) := takeDigits s0 0 0 in
  let '(fv, nf, s2) :=
    match s1 with
    | String c s1' =>
        if Ascii.eqb c "." then takeDigits s1' 0 0 else (0%Z, O, s1)
    | EmptyString => (0%Z, O, s1)
    end in
  if Nat.eqb (ni + nf) 0 then None
  else
    let '(ev, s3) :=
      match s2 with
      | String c s2' =>
          if Ascii.eqb c "e" || Ascii.eqb c "E" then
            let '(eneg, s2'') := takeSign s2' in
            let '(e, ne, rest) := takeDigits s2'' 0 0 in
            if Nat.eqb ne 0 then (0%Z, s2)
            else (if eneg then (- e)%Z else e, rest)
          else (0%Z, s2)
      | EmptyString => (0%Z, s2)
      end in
    let mant := inject_Z iv + inject_Z fv * pow10 (- Z.of_nat nf) in
    let v := mant * pow10 ev in
    if Qle_bool overflowBound v then None
    else Some (if neg then - v else v, s3).

(** [parseFloat(x)]; [undefined] is first converted to a string that has
    no numeric prefix. *)
Definition parseFloat (x : option string) : jsnum :=
  match x with
  | None => None
  | Some s => option_map fst (decimalPrefix (trimStart s))
  end.

(** [Number(x)] for a string or [undefined]: the whole trimmed string has
    to be a literal, and the empty string is [0]. Hexadecimal, octal and
    binary literals are left out. *)
Definition Number_ (x : option string) : jsnum :=
  match x with
  | None => None
  | Some s =>
      match trim s with
      | EmptyString => Some 0
      | t =>
          match decimalPrefix t with
          | Some (v, EmptyString) => Some v
          | _ => None
          end
      end
  end.

(** [s.split(/,|\t/)] *)
Definition isFieldSep (c : ascii) : bool := Ascii.eqb c "," || Ascii.eqb c TAB.

Fixpoint splitFields (s : string) : list string :=
  match s with
  | EmptyString => [EmptyString]
  | String c s' =>
      if isFieldSep c then EmptyString :: splitFields s'
      else
        match splitFields s' with
        | x :: xs => String c x :: xs
        | [] => [str c]
        end
  end.

(** [s.split(/\r?\n/)] *)
Fixpoint splitLines (s : string) : list string :=
  match s with
  | EmptyString => [EmptyString]
  | String c s' =>
      let keep :=
        match splitLines s' with
        | x :: xs => String c x :: xs
        | [] => [str c]
        end in
      if Ascii.eqb c LF then EmptyString :: splitLines s'
      else if Ascii.eqb c CR then
        match s' with
        | String c' s'' =>
            if Ascii.eqb c' LF then EmptyString :: splitLines s'' else keep
        | EmptyString => keep
        end
      else keep
  end.

(** [cols.findIndex((c) => c === k)]; [None] for [-1]. *)
Fixpoint findIndex_from (n : nat) (k : string) (cols : list string) : option nat :=
  match cols with
  | [] => None
  | c :: cs => if String.eqb c k then Some n else findIndex_from (S n) k cs
  end.

(** [parts[idx]]; [undefined] when the index is [-1] or past the end. *)
Definition at_ (parts : list string) (idx : option nat) : option string :=
  match idx with
  | Some n => nth_error parts n
  | None => None
  end.

(** [x || y] on strings: [undefined] and the empty string are falsy. *)
Definition orElse (x : option string) (y : string) : string :=
  match x with
  | Some (String c s) => String c s
  | _ => y
  end.

(** [String.fromCharCode(65 + i)], a letter for the first 26 rows (a
    code unit above 255 does not fit the 8-bit characters used here). *)
Definition fromCharCode (n : nat) : string := str (ascii_of_nat n).

Record ParsedStop : Type := mkParsed {
  id : string;
  name : string;
  lat : jsnum;
  lng : jsnum;
  demand : jsnum
}.

Fixpoint mapi_from {A B : Type} (n : nat) (f : A -> nat -> B) (l : list A) : list B :=
  match l with
  | [] => []
  | x :: xs => f x n :: mapi_from (S n) f xs
  end.

Definition isFinite (x : jsnum) : bool :=
  match x with Some _ => true | None => false end.

(** [importCSV(text)]: the stops handed to [setStops]. With no line at
    all [header] is [undefined] and [header.split] throws. *)
Definition importCSV (text : string) : outcome (list ParsedStop) :=
  let lines := filter nonEmpty (splitLines text) in
  match lines with
  | [] => TypeError
  | header :: rest =>
      let cols := map (fun h => toLowerCase (trim h)) (splitFields header) in
      let idx := fun k => findIndex_from 0 k cols in
      let idIdx := idx "id" in
      let nameIdx := idx "name" in
      let latIdx := idx "lat" in
      let lngIdx := idx "lng" in
      let demIdx := idx "demand" in
      let parsed :=
        mapi_from 0
          (fun line i =>
             let parts := splitFields line in
             let id := match idIdx with
                       | Some _ => at_ parts idIdx
                       | None => Some (fromCharCode (65 + i))
                       end in
             mkParsed
               (orElse id (fromCharCode (65 + i)))
               (orElse (at_ parts nameIdx)
                       ("Stop " ++ orElse id (numberToString (inject_Z (Z.of_nat (i + 1))))))
               (parseFloat (at_ parts latIdx))
               (parseFloat (at_ parts lngIdx))
               (match demIdx with
                | Some _ => Number_ (at_ parts demIdx)
                | None => Some 1
                end))
          rest in
      Ret (filter (fun s => isFinite (lat s) && isFinite (lng s)) parsed)
  end.

(** What a faithful round trip would recover from a stop. *)
Definition ofStop (s : Stop.t) : ParsedStop :=
  mkParsed (Stop.id s) (Stop.name s)
           (Some (Stop.lat s)) (Some (Stop.lng s)) (Some (Stop.demand s)).
End CSV.


(** ** Sample data *)

(** The great-circle distance between two points of the equator, in degrees
    of arc: for [lat = 0] the haversine formula reduces to a constant multiple
    of [|lng a - lng b|] ([haversineKm_equator]). Used to run the kernel on
    concrete inputs. *)
Definition equatorArc (a b : LatLng) : Q := Qabs (lng b - lng a).

Definition origin : Depot.t := Depot.mk "D" 0 0.
Definition onEquator (id : string) (x : Q) (demand : Q) : Stop.t :=
  Stop.mk id id 0 x demand.

(** The stops of the application's self-test: three stops on the equator,
    demand 2 each, to be served with capacity 4. *)
Definition picks : list Stop.t :=
  [onEquator "1" (1 # 10) 2; onEquator "2" (2 # 10) 2; onEquator "3" (3 # 10) 2].

(** Four stops on the equator, one unit of demand each; with capacity 10
    nothing keeps them from ending up in one route. *)
Definition stopOne : Stop.t := onEquator "1" 1 1.
Definition stopTwo : Stop.t := onEquator "2" 2 1.
Definition fourStops : list Stop.t :=
  [stopOne; stopTwo; onEquator "3" 3 1; onEquator "4" 10 1].

(** Three stops on the equator, the first with the id [__proto__]. *)
Definition protoStops : list Stop.t :=
  [onEquator protoKey 1 1; onEquator "2" 2 1; onEquator "3" 3 1].

(** Three stops on the equator with demands 0.1, 0.2 and 0.3, to be served
    with capacity 1. *)
Definition tenths : list Stop.t :=
  [onEquator "1" (1 # 10) (1 # 10); onEquator "2" (2 # 10) (2 # 10);
   onEquator "3" (3 # 10) (3 # 10)].

(** A stop of the demo data. *)
Definition demoA : Stop.t := Stop.mk "A" "Raw Spot A" (18807 # 1000) (9897 # 100) 2.

(** ** All orders of a list

    Used to run the merge loop on every order in which a sort can leave the
    savings. *)

Fixpoint insert_all {A : Type} (x : A) (l : list A) : list (list A) :=
  match l with
  | [] => [[x]]
  | y :: ys => (x :: y :: ys) :: map (cons y) (insert_all x ys)
  end.

Fixpoint perms {A : Type} (l : list A) : list (list A) :=
  match l with
  | [] => [[]]
  | x :: xs => flat_map (insert_all x) (perms xs)
  end.

(** A savings entry for a pair, with a value the merge loop never reads. *)
Definition ofPair (p : Stop.t * Stop.t) : Saving.t := Saving.mk (fst p) (snd p) 0.

(** The self-test stops with the first one over the capacity of 4. *)
Definition heavyPicks : list Stop.t :=
  [onEquator "1" (1 # 10) 7; onEquator "2" (2 # 10) 2; onEquator "3" (3 # 10) 2].

(** ** Notions used to state further properties *)

(** No stop of the list carries the id of [stop]. *)
Definition absent (stop : Stop.t) (stops : list Stop.t) : Prop :=
  Forall (fun s => Stop.id s <> Stop.id stop) stops.

(** The string has no vertical bar, the separator of the composite keys of
    the pair-distance table. *)
Fixpoint noBar (s : string) : bool :=
  match s with
  | EmptyString => true
  | String c s' => negb (Ascii.eqb c "|") && noBar s'
  end.

(** The length of the walk through a list of points: the sum of the
    distances between consecutive points. *)
Fixpoint walk (haversineKm : LatLng -> LatLng -> Q) (pts : list LatLng) : Q :=
  match pts with
  | a :: ((b :: _) as rest) => haversineKm a b + walk haversineKm rest
  | _ => 0
  end.

(** The points a route visits, the depot first and last. *)
Definition tour (depot : Depot.t) (route : list Stop.t) : list LatLng :=
  Depot.pt depot :: map Stop.pt route ++ [Depot.pt depot].

(** Every character of the string satisfies [p]. *)
Fixpoint allChars (p : ascii -> bool) (s : string) : bool :=
  match s with
  | EmptyString => true
  | String c s' => p c && allChars p s'
  end.

(** The string has no comma and no tab, the characters at which the
    importer cuts a line into cells. *)
Definition noSep (s : string) : bool :=
  allChars (fun c => negb (CSV.isFieldSep c)) s.

(** The string has no line feed and no carriage return. *)
Definition noBreak (s : string) : bool :=
  allChars (fun c => negb (Ascii.eqb c CSV.LF) && negb (Ascii.eqb c CSV.CR)) s.

(** The cells the exporter writes for a stop, before escaping. *)
Definition cellsOf (s : Stop.t) : list string :=
  [Stop.id s; Stop.name s; CSV.numberToString (Stop.lat s);
   CSV.numberToString (Stop.lng s); CSV.numberToString (Stop.demand s)].

(** ** The stop list of the application *)

(** [removeStop(id)]: [prev.filter((s) => s.id !== id)]. *)
Definition removeStop (id : string) (stops : list Stop.t) : list Stop.t :=
  filter (fun s => negb (String.eqb (Stop.id s) id)) stops.

(** [addStop()]: the new stop is named after the number of stops (the state
    [stops], which is also the list [prev] it is appended to); [r1] and [r2]
    are the two values [Math.random()] returns. *)
Definition addStop (r1 r2 : Q) (depot : Depot.t) (stops : list Stop.t) : list Stop.t :=
  let id := CSV.fromCharCode (65 + length stops) in
  stops ++ [Stop.mk id ("Raw Spot " ++ id)%string
                    (Depot.lat depot + (r1 - (1 # 2)) * (2 # 10))
                    (Depot.lng depot + (r2 - (1 # 2)) * (2 # 10))
                    1].

(** The line the exporter writes for a stop. *)
Definition rowOf (s : Stop.t) : string := CSV.join "," (map CSV.esc (cellsOf s)).

(** The characters of a printed number: digits, the sign and the point. *)
Definition numberChar (c : ascii) : bool :=
  CSV.isDigit c || Ascii.eqb c "-" || Ascii.eqb c ".".

(** The demo data of the application. *)
Definition demoDepot : Depot.t := Depot.mk "Factory" (187877 # 10000) (989931 # 10000).
Definition demoStops : list Stop.t :=
  [demoA;
   Stop.mk "B" "Raw Spot B" (1876 # 100) (9898 # 100) 3;
   Stop.mk "C" "Raw Spot C" (1873 # 100) (9902 # 100) 1;
   Stop.mk "D" "Raw Spot D" (1882 # 100) (9904 # 100) 4;
   Stop.mk "E" "Raw Spot E" (1880 # 100) (9895 # 100) 2].

(** * Properties *)

(** ** The stable sort *)

Lemma Sorted_weaken {A : Type} (P Q : A -> A -> Prop) (l : list A) :
  (forall a b, P a b -> Q a b) -> Sorted P l -> Sorted Q l.
Proof.
  intros HPQ. induction 1 as [|x l _ IH Hhd]; constructor; [assumption|].
  destruct Hhd; constructor. now apply HPQ.
Qed.

Section ArraySortFacts.
Context {A : Type} (cmp : A -> A -> Q).

Lemma sort_insert_perm (x : A) (l : list A) :
  Permutation (sort_insert cmp x l) (x :: l).
Proof.
  induction l as [|y ys IH]; simpl; [reflexivity|].
  destruct (Qlt_le_dec 0 (cmp x y)); [|reflexivity].
  rewrite IH. apply perm_swap.
Qed.

Lemma Array_sort_perm (l : list A) : Permutation (Array_sort cmp l) l.
Proof.
  induction l as [|x xs IH]; simpl; [reflexivity|].
  rewrite sort_insert_perm. now constructor.
Qed.

Lemma Array_sort_length (l : list A) : length (Array_sort cmp l) = length l.
Proof. apply Permutation_length, Array_sort_perm. Qed.

(** Sorting commutes with a map that keeps the comparisons. *)
Lemma Array_sort_map {B : Type} (cmp' : B -> B -> Q) (f : A -> B) (l : list A) :
  (forall x y, cmp' (f x) (f y) = cmp x y) ->
  Array_sort cmp' (map f l) = map f (Array_sort cmp l).
Proof.
  intros Hf.
  assert (Hins : forall x l', sort_insert cmp' (f x) (map f l')
                              = map f (sort_insert cmp x l')).
  { intros x l'. induction l' as [|y ys IH]; simpl; [reflexivity|].
    rewrite Hf. destruct (Qlt_le_dec 0 (cmp x y)); simpl; [now rewrite IH | reflexivity]. }
  induction l as [|x xs IH]; simpl; [reflexivity|].
  now rewrite IH, Hins.
Qed.

Hypothesis cmp_anti : forall x y, 0 < cmp x y -> cmp y x <= 0.

Lemma sort_insert_hdrel (z x : A) (l : list A) :
  before_ok cmp z x -> HdRel (before_ok cmp) z l -> HdRel (before_ok cmp) z (sort_insert cmp x l).
Proof.
  intros Hzx Hz. destruct l as [|y ys]; simpl; [now constructor|].
  destruct (Qlt_le_dec 0 (cmp x y)); constructor; [|assumption].
  now inversion Hz.
Qed.

Lemma sort_insert_sorted (x : A) (l : list A) :
  Sorted (before_ok cmp) l -> Sorted (before_ok cmp) (sort_insert cmp x l).
Proof.
  induction 1 as [|y ys Hs IH Hhd]; simpl; [repeat constructor|].
  destruct (Qlt_le_dec 0 (cmp x y)) as [Hlt|Hle].
  - constructor; [assumption|].
    apply sort_insert_hdrel; [now apply cmp_anti | assumption].
  - constructor; [now constructor | now constructor].
Qed.

Lemma Array_sort_sorted (l : list A) : Sorted (before_ok cmp) (Array_sort cmp l).
Proof.
  induction l as [|x xs IH]; simpl; [constructor | now apply sort_insert_sorted].
Qed.
End ArraySortFacts.

Section ArraySortStable.
Context {A : Type} (cmp : A -> A -> Q) (p : A -> bool).

(** The elements selected by [p] compare equal to one another. *)
Hypothesis p_class : forall x y, p x = true -> p y = true -> cmp x y <= 0.

Lemma sort_insert_filter (x : A) (l : list A) :
  filter p (sort_insert cmp x l) = filter p (x :: l).
Proof.
  induction l as [|y ys IH]; [reflexivity|].
  simpl sort_insert. destruct (Qlt_le_dec 0 (cmp x y)) as [Hlt|Hle]; [|reflexivity].
  simpl in *. rewrite IH.
  destruct (p x) eqn:Hx, (p y) eqn:Hy; try reflexivity.
  specialize (p_class x y Hx Hy). lra.
Qed.

Lemma Array_sort_filter (l : list A) :
  filter p (Array_sort cmp l) = filter p l.
Proof.
  induction l as [|x xs IH]; [reflexivity|].
  simpl Array_sort. rewrite sort_insert_filter. simpl. now rewrite IH.
Qed.
End ArraySortStable.

(** ** The distance tables *)

Lemma setKey_defined (k k' : string) (v : Q) (m : Record_) :
  m k <> None -> setKey k' v m k <> None.
Proof. unfold setKey. now destruct (String.eqb k' protoKey), (String.eqb k k'). Qed.

Lemma setKey_same (k : string) (v : Q) (m : Record_) :
  k <> protoKey -> setKey k v m k = Some v.
Proof.
  intros Hk. unfold setKey. apply String.eqb_neq in Hk.
  now rewrite Hk, String.eqb_refl.
Qed.

Lemma setKey_ordinary (k k' : string) (v : Q) (m : Record_) :
  k <> protoKey -> setKey k v m k' = if String.eqb k' k then Some v else m k'.
Proof. intros Hk. unfold setKey. apply String.eqb_neq in Hk. now rewrite Hk. Qed.

(** The assignment to [__proto__] leaves the table as it is. *)
Lemma setKey_proto (v : Q) (m : Record_) (k : string) : setKey protoKey v m k = m k.
Proof. reflexivity. Qed.

Lemma noBar_app (a b : string) : noBar (a ++ b) = noBar a && noBar b.
Proof.
  induction a as [|c a IH]; simpl; [reflexivity|].
  now rewrite IH, andb_assoc.
Qed.

(** A composite key holds a vertical bar, so it is not [__proto__]. *)
Lemma id_not_proto (i j : string) : id_ i j <> protoKey.
Proof.
  intros H. assert (Hb : noBar (id_ i j) = noBar protoKey) by now rewrite H.
  unfold id_ in Hb. rewrite noBar_app in Hb. simpl in Hb.
  rewrite andb_false_r in Hb. discriminate.
Qed.

Section Tables.
Variable haversineKm : LatLng -> LatLng -> Q.
Variable depot : Depot.t.

Lemma fold_setKey_defined {A : Type} (step : Record_ -> A -> Record_)
      (l : list A) (m : Record_) (k : string) :
  (forall m' x, m' k <> None -> step m' x k <> None) ->
  m k <> None -> fold_left step l m k <> None.
Proof.
  intros Hstep. revert m. induction l as [|x xs IH]; intros m Hm; simpl;
    [assumption | now apply IH, Hstep].
Qed.

Lemma build_d0_defined (customers : list Stop.t) (c : Stop.t) :
  In c customers -> Stop.id c <> protoKey ->
  build_d0 haversineKm depot customers (Stop.id c) <> None.
Proof.
  unfold build_d0. generalize emptyRecord.
  induction customers as [|x xs IH]; intros m Hin Hc; [contradiction|].
  destruct Hin as [->|Hin]; simpl.
  - apply fold_setKey_defined.
    + intros m' y Hm'. now apply setKey_defined.
    + rewrite setKey_same by assumption. discriminate.
  - now apply IH.
Qed.

(** The entry of a stop whose id is [__proto__] is never written. *)
Lemma build_d0_proto (customers : list Stop.t) :
  build_d0 haversineKm depot customers protoKey = None.
Proof.
  unfold build_d0.
  assert (H : forall l m, m protoKey = None ->
            fold_left (fun d0 c => setKey (Stop.id c)
                         (haversineKm (Depot.pt depot) (Stop.pt c)) d0) l m protoKey
            = None).
  { induction l as [|x l IH]; intros m Hm; simpl; [assumption|].
    apply IH. unfold setKey.
    destruct (String.eqb (Stop.id x) protoKey) eqn:E; [assumption|].
    rewrite String.eqb_sym, E. assumption. }
  now apply H.
Qed.

Lemma build_dij_defined (customers : list Stop.t) (a b : Stop.t) :
  In (a, b) (pairs customers) ->
  build_dij haversineKm customers (id_ (Stop.id a) (Stop.id b)) <> None.
Proof.
  unfold build_dij. generalize emptyRecord. generalize (pairs customers).
  induction l as [|[x y] xs IH]; intros m Hin; [contradiction|].
  destruct Hin as [Heq|Hin]; simpl.
  - inversion Heq; subst. apply fold_setKey_defined.
    + intros m' [x y] Hm'. now apply setKey_defined, setKey_defined.
    + rewrite setKey_same by apply id_not_proto. discriminate.
  - now apply IH.
Qed.

Lemma in_pairs {A : Type} (l : list A) (a b : A) :
  In (a, b) (pairs l) -> In a l /\ In b l.
Proof.
  induction l as [|x xs IH]; simpl; [tauto|].
  intros H. apply in_app_or in H. destruct H as [H|H].
  - apply in_map_iff in H. destruct H as (y & Heq & Hy). inversion Heq; subst. auto.
  - destruct (IH H). auto.
Qed.

(** For stops whose ids are not [__proto__], every key read while
    computing a saving has been written: the value is never [NaN]. *)
Lemma savingValue_defined (customers : list Stop.t) (a b : Stop.t) :
  In (a, b) (pairs customers) ->
  Stop.id a <> protoKey -> Stop.id b <> protoKey ->
  savingNumber (build_d0 haversineKm depot customers)
               (build_dij haversineKm customers) a b
  = Some (savingValue (build_d0 haversineKm depot customers)
                      (build_dij haversineKm customers) a b).
Proof.
  intros H Hpa Hpb. destruct (in_pairs _ _ _ H) as [Ha Hb].
  pose proof (build_d0_defined customers a Ha Hpa) as H1.
  pose proof (build_d0_defined customers b Hb Hpb) as H2.
  pose proof (build_dij_defined customers a b H) as H3.
  unfold savingValue, savingNumber.
  destruct (build_d0 _ _ _ (Stop.id a)), (build_d0 _ _ _ (Stop.id b)),
    (build_dij _ _ _); simpl; congruence.
Qed.

(** A stop whose id is [__proto__] makes the saving of each of its pairs
    [NaN]. *)
Lemma savingNumber_proto (customers : list Stop.t) (a b : Stop.t) :
  Stop.id a = protoKey \/ Stop.id b = protoKey ->
  savingNumber (build_d0 haversineKm depot customers)
               (build_dij haversineKm customers) a b = None.
Proof.
  unfold savingNumber. intros [H|H]; rewrite H, build_d0_proto.
  - reflexivity.
  - now destruct (build_d0 _ _ _ (Stop.id a)).
Qed.
End Tables.

(** ** Array helpers *)

Lemma setNth_split {A : Type} (l : list A) (idx : nat) (a x : A) :
  nth_error l idx = Some a ->
  exists l1 l2, l = l1 ++ a :: l2 /\ length l1 = idx /\ setNth l idx x = l1 ++ x :: l2.
Proof.
  intros H. destruct (nth_error_split l idx H) as (l1 & l2 & -> & Hlen).
  exists l1, l2. repeat split; [assumption|].
  unfold setNth. subst idx.
  rewrite firstn_app, firstn_all, Nat.sub_diag, skipn_app, skipn_all, Nat.sub_diag.
  simpl. now rewrite app_nil_r.
Qed.

Lemma splice1_split {A : Type} (l : list A) (idx : nat) (a : A) :
  nth_error l idx = Some a ->
  exists l1 l2, l = l1 ++ a :: l2 /\ length l1 = idx /\ splice1 l idx = l1 ++ l2.
Proof.
  intros H. destruct (nth_error_split l idx H) as (l1 & l2 & -> & Hlen).
  exists l1, l2. repeat split; [assumption|].
  unfold splice1. subst idx.
  rewrite firstn_app, firstn_all, Nat.sub_diag, skipn_app, skipn_all2 by lia.
  replace (S (length l1) - length l1)%nat with 1%nat by lia.
  simpl. now rewrite app_nil_r.
Qed.

Lemma nth_error_setNth_neq {A : Type} (l : list A) (i j : nat) (x : A) :
  i <> j -> nth_error (setNth l i x) j = nth_error l j.
Proof.
  revert i j. induction l as [|a l IH]; intros [|i] [|j] Hij; try reflexivity; try lia.
  - unfold setNth in *. simpl. specialize (IH i j). simpl in IH. apply IH. lia.
Qed.

Lemma nth_error_setNth_eq {A : Type} (l : list A) (i : nat) (a x : A) :
  nth_error l i = Some a -> nth_error (setNth l i x) i = Some x.
Proof.
  intros H. destruct (setNth_split l i a x H) as (l1 & l2 & _ & Hlen & ->).
  rewrite nth_error_app2 by lia. subst i. now rewrite Nat.sub_diag.
Qed.

Lemma setNth_length {A : Type} (l : list A) (i : nat) (a x : A) :
  nth_error l i = Some a -> length (setNth l i x) = length l.
Proof.
  intros H. destruct (setNth_split l i a x H) as (l1 & l2 & -> & _ & ->).
  now rewrite !length_app.
Qed.

Lemma splice1_length {A : Type} (l : list A) (i : nat) (a : A) :
  nth_error l i = Some a -> S (length (splice1 l i)) = length l.
Proof.
  intros H. destruct (splice1_split l i a H) as (l1 & l2 & -> & _ & ->).
  rewrite !length_app. simpl. lia.
Qed.

(** Writing [x] at [fi] and removing the entry at [fj] trades the two old
    entries for [x]. *)
Lemma merge_splice_perm {A : Type} (l : list A) (fi fj : nat) (ri rj x : A) :
  fi <> fj -> nth_error l fi = Some ri -> nth_error l fj = Some rj ->
  Permutation (ri :: rj :: splice1 (setNth l fi x) fj) (x :: l).
Proof.
  intros Hne Hi Hj.
  assert (Hj' : nth_error (setNth l fi x) fj = Some rj)
    by now rewrite nth_error_setNth_neq.
  destruct (splice1_split _ _ _ Hj') as (m1 & m2 & Hm & _ & ->).
  destruct (setNth_split l fi ri x Hi) as (l1 & l2 & -> & _ & Hset).
  transitivity (ri :: setNth (l1 ++ ri :: l2) fi x).
  - constructor. rewrite Hm. apply Permutation_middle.
  - rewrite Hset. rewrite <- !Permutation_middle. apply perm_swap.
Qed.

(** ** Route merging *)

Lemma findRouteAndPos_from_range (k : nat) (routes : list Route.t) (stop : Stop.t)
      (idx : nat) (a : option bool) :
  findRouteAndPos_from k routes stop = Some (idx, a) ->
  exists r, (k <= idx)%nat /\ nth_error routes (idx - k) = Some r /\ Route.customers r <> [].
Proof.
  revert k. induction routes as [|rt rest IH]; intros k H; [discriminate|].
  simpl in H.
  assert (Hrec : findRouteAndPos_from (S k) rest stop = Some (idx, a) ->
                 exists r, (k <= idx)%nat /\ nth_error (rt :: rest) (idx - k) = Some r
                           /\ Route.customers r <> []).
  { intros H'. destruct (IH _ H') as (r & Hle & Hnth & Hne).
    exists r. split; [lia|]. split; [|assumption].
    replace (idx - k)%nat with (S (idx - S k)) by lia. exact Hnth. }
  destruct (Route.customers rt) as [|r0 tl] eqn:Hc; [now apply Hrec|].
  assert (Hhere : idx = k -> exists r, (k <= idx)%nat /\
            nth_error (rt :: rest) (idx - k) = Some r /\ Route.customers r <> []).
  { intros ->. exists rt. rewrite Nat.sub_diag. repeat split; [lia|].
    rewrite Hc. discriminate. }
  destruct (String.eqb (Stop.id r0) (Stop.id stop));
    [apply Hhere; congruence|].
  destruct (String.eqb (Stop.id (last (r0 :: tl) r0)) (Stop.id stop));
    [apply Hhere; congruence|].
  destruct (existsb _ (r0 :: tl)); [apply Hhere; congruence|].
  now apply Hrec.
Qed.

Lemma findRouteAndPos_range (routes : list Route.t) (stop : Stop.t)
      (idx : nat) (a : option bool) :
  findRouteAndPos routes stop = Some (idx, a) ->
  exists r, nth_error routes idx = Some r /\ Route.customers r <> [].
Proof.
  intros H. destruct (findRouteAndPos_from_range _ _ _ _ _ H) as (r & _ & Hn & Hne).
  rewrite Nat.sub_0_r in Hn. now exists r.
Qed.


Lemma mergedCustomers_perm (a b : bool) (ri rj : Route.t) :
  Permutation (mergedCustomers a b ri rj) (Route.customers ri ++ Route.customers rj).
Proof.
  unfold mergedCustomers. apply Permutation_app; [destruct a | destruct b];
    try reflexivity; symmetry; apply Permutation_rev.
Qed.

(** What [mergeStep] does when every guard lets the entry through. *)
Lemma mergeStep_merges (capacity : Q) (routes : list Route.t) (sv : Saving.t)
      (fi fj : nat) (ai aj : bool) :
  findRouteAndPos routes (Saving.i sv) = Some (fi, Some ai) ->
  findRouteAndPos routes (Saving.j sv) = Some (fj, Some aj) ->
  fi <> fj ->
  exists ri rj,
    nth_error routes fi = Some ri /\ nth_error routes fj = Some rj /\
    Route.customers ri <> [] /\ Route.customers rj <> [] /\
    (Route.load ri + Route.load rj <= capacity ->
     mergeStep capacity routes sv =
       splice1 (setNth routes fi
                  (Route.mk (mergedCustomers ai aj ri rj) (Route.load ri + Route.load rj)))
               fj) /\
    (capacity < Route.load ri + Route.load rj -> mergeStep capacity routes sv = routes).
Proof.
  intros Hi Hj Hne.
  destruct (findRouteAndPos_range _ _ _ _ Hi) as (ri & Hri & Hnei).
  destruct (findRouteAndPos_range _ _ _ _ Hj) as (rj & Hrj & Hnej).
  exists ri, rj. repeat split; try assumption.
  - intros Hload. unfold mergeStep. rewrite Hi, Hj.
    destruct (Nat.eqb_spec fi fj); [contradiction|].
    rewrite Hri, Hrj.
    destruct (Qlt_le_dec capacity (Route.load ri + Route.load rj)); [lra|reflexivity].
  - intros Hload. unfold mergeStep. rewrite Hi, Hj.
    destruct (Nat.eqb_spec fi fj); [contradiction|].
    rewrite Hri, Hrj.
    destruct (Qlt_le_dec capacity (Route.load ri + Route.load rj)); [reflexivity|lra].
Qed.

(** Every step either leaves the routes alone or merges two distinct,
    non-empty routes whose combined load is within capacity. *)
Lemma mergeStep_cases (capacity : Q) (routes : list Route.t) (sv : Saving.t) :
  mergeStep capacity routes sv = routes \/
  exists fi fj ri rj merged,
    fi <> fj /\ nth_error routes fi = Some ri /\ nth_error routes fj = Some rj /\
    Route.customers ri <> [] /\ Route.customers rj <> [] /\
    Route.load ri + Route.load rj <= capacity /\
    Permutation merged (Route.customers ri ++ Route.customers rj) /\
    mergeStep capacity routes sv =
      splice1 (setNth routes fi (Route.mk merged (Route.load ri + Route.load rj))) fj.
Proof.
  destruct (findRouteAndPos routes (Saving.i sv)) as [[fi [ai|]]|] eqn:Hi;
    [| left; unfold mergeStep; rewrite Hi;
       destruct (findRouteAndPos routes (Saving.j sv)) as [[fj aj]|];
       [destruct (Nat.eqb fi fj)|]; reflexivity
     | left; unfold mergeStep; now rewrite Hi].
  destruct (findRouteAndPos routes (Saving.j sv)) as [[fj [aj|]]|] eqn:Hj;
    [| left; unfold mergeStep; rewrite Hi, Hj; destruct (Nat.eqb fi fj); reflexivity
     | left; unfold mergeStep; now rewrite Hi, Hj].
  destruct (Nat.eq_dec fi fj) as [->|Hne].
  { left. unfold mergeStep. rewrite Hi, Hj. now rewrite Nat.eqb_refl. }
  destruct (mergeStep_merges capacity _ _ _ _ _ _ Hi Hj Hne)
    as (ri & rj & Hri & Hrj & Hnei & Hnej & Hyes & Hno).
  destruct (Qlt_le_dec capacity (Route.load ri + Route.load rj)) as [Hgt|Hle].
  - left. now apply Hno.
  - right. exists fi, fj, ri, rj, (mergedCustomers ai aj ri rj).
    repeat split; try assumption; [apply mergedCustomers_perm | now apply Hyes].
Qed.

(** *** Invariants of the merge loop *)


Lemma sumQ_app (l1 l2 : list Q) : sumQ (l1 ++ l2) == sumQ l1 + sumQ l2.
Proof.
  induction l1 as [|x l1 IH]; simpl; [lra|]. rewrite IH. lra.
Qed.

Lemma sumQ_perm (l1 l2 : list Q) : Permutation l1 l2 -> sumQ l1 == sumQ l2.
Proof.
  induction 1 as [|x l l' _ IH|x y l|l l' l'' _ IH1 _ IH2]; simpl.
  - reflexivity.
  - now rewrite IH.
  - lra.
  - now rewrite IH1.
Qed.

Lemma totalDemand_perm (l1 l2 : list Stop.t) :
  Permutation l1 l2 -> totalDemand l1 == totalDemand l2.
Proof. intros H. apply sumQ_perm. now apply Permutation_map. Qed.

Lemma totalDemand_app (l1 l2 : list Stop.t) :
  totalDemand (l1 ++ l2) == totalDemand l1 + totalDemand l2.
Proof. unfold totalDemand. rewrite map_app. apply sumQ_app. Qed.

Lemma allStops_perm (r1 r2 : list Route.t) :
  Permutation r1 r2 -> Permutation (allStops r1) (allStops r2).
Proof.
  induction 1 as [|x l l' _ IH|x y l|l l' l'' _ IH1 _ IH2]; unfold allStops in *; simpl.
  - reflexivity.
  - now apply Permutation_app_head.
  - rewrite !app_assoc. apply Permutation_app_tail, Permutation_app_comm.
  - now transitivity (concat (map Route.customers l')).
Qed.

Section MergeInvariants.
Variable capacity : Q.

Lemma mergeStep_allStops (routes : list Route.t) (sv : Saving.t) :
  Permutation (allStops (mergeStep capacity routes sv)) (allStops routes).
Proof.
  destruct (mergeStep_cases capacity routes sv)
    as [->|(fi & fj & ri & rj & merged & Hne & Hi & Hj & _ & _ & _ & Hperm & ->)];
    [reflexivity|].
  pose proof (allStops_perm _ _
    (merge_splice_perm routes fi fj ri rj
       (Route.mk merged (Route.load ri + Route.load rj)) Hne Hi Hj)) as H.
  unfold allStops in *. simpl in H.
  apply (Permutation_app_inv_l (Route.customers ri ++ Route.customers rj)).
  rewrite <- app_assoc. etransitivity; [exact H|].
  now apply Permutation_app_tail.
Qed.

Lemma mergeStep_totalLoad (routes : list Route.t) (sv : Saving.t) :
  totalLoad (mergeStep capacity routes sv) == totalLoad routes.
Proof.
  destruct (mergeStep_cases capacity routes sv)
    as [->|(fi & fj & ri & rj & merged & Hne & Hi & Hj & _ & _ & _ & _ & ->)];
    [reflexivity|].
  pose proof (sumQ_perm _ _ (Permutation_map Route.load
    (merge_splice_perm routes fi fj ri rj
       (Route.mk merged (Route.load ri + Route.load rj)) Hne Hi Hj))) as H.
  unfold totalLoad. simpl in H. lra.
Qed.

(** A property of routes that every merge produces from routes having it
    is an invariant of the step. *)
Lemma mergeStep_Forall (P : Route.t -> Prop) (routes : list Route.t) (sv : Saving.t) :
  (forall ri rj merged,
      P ri -> P rj ->
      Route.customers ri <> [] -> Route.customers rj <> [] ->
      Route.load ri + Route.load rj <= capacity ->
      Permutation merged (Route.customers ri ++ Route.customers rj) ->
      P (Route.mk merged (Route.load ri + Route.load rj))) ->
  Forall P routes -> Forall P (mergeStep capacity routes sv).
Proof.
  intros Hmerge Hall.
  destruct (mergeStep_cases capacity routes sv)
    as [->|(fi & fj & ri & rj & merged & Hne & Hi & Hj & Hni & Hnj & Hload & Hperm & ->)];
    [assumption|].
  pose proof (merge_splice_perm routes fi fj ri rj
       (Route.mk merged (Route.load ri + Route.load rj)) Hne Hi Hj) as H.
  assert (Hri : P ri) by (eapply Forall_forall; [exact Hall | eapply nth_error_In; eauto]).
  assert (Hrj : P rj) by (eapply Forall_forall; [exact Hall | eapply nth_error_In; eauto]).
  assert (Hx : Forall P (Route.mk merged (Route.load ri + Route.load rj) :: routes))
    by (constructor; [now apply Hmerge | assumption]).
  symmetry in H. apply (Permutation_Forall H) in Hx.
  now inversion Hx as [|? ? _ Hx']; inversion Hx'.
Qed.

Lemma mergeStep_count (routes : list Route.t) (sv : Saving.t) :
  length (mergeStep capacity routes sv) = length routes \/
  (2 <= length routes /\ S (length (mergeStep capacity routes sv)) = length routes)%nat.
Proof.
  destruct (mergeStep_cases capacity routes sv)
    as [->|(fi & fj & ri & rj & merged & Hne & Hi & Hj & _ & _ & _ & _ & ->)];
    [now left|right].
  assert (Hj' : nth_error (setNth routes fi
                  (Route.mk merged (Route.load ri + Route.load rj))) fj = Some rj)
    by now rewrite nth_error_setNth_neq.
  rewrite (splice1_length _ _ _ Hj'), (setNth_length _ _ _ _ Hi).
  split; [|reflexivity].
  assert (fi < length routes)%nat by (apply nth_error_Some; congruence).
  assert (fj < length routes)%nat by (apply nth_error_Some; congruence).
  lia.
Qed.

Lemma mergeLoop_allStops (savings : list Saving.t) (routes : list Route.t) :
  Permutation (allStops (mergeLoop capacity savings routes)) (allStops routes).
Proof.
  revert routes. induction savings as [|sv svs IH]; intros routes; simpl;
    [reflexivity|].
  rewrite IH. apply mergeStep_allStops.
Qed.

Lemma mergeLoop_totalLoad (savings : list Saving.t) (routes : list Route.t) :
  totalLoad (mergeLoop capacity savings routes) == totalLoad routes.
Proof.
  revert routes. induction savings as [|sv svs IH]; intros routes; simpl;
    [reflexivity|].
  rewrite IH. apply mergeStep_totalLoad.
Qed.

Lemma mergeLoop_Forall (P : Route.t -> Prop) (savings : list Saving.t)
      (routes : list Route.t) :
  (forall ri rj merged,
      P ri -> P rj ->
      Route.customers ri <> [] -> Route.customers rj <> [] ->
      Route.load ri + Route.load rj <= capacity ->
      Permutation merged (Route.customers ri ++ Route.customers rj) ->
      P (Route.mk merged (Route.load ri + Route.load rj))) ->
  Forall P routes -> Forall P (mergeLoop capacity savings routes).
Proof.
  intros Hmerge. revert routes.
  induction savings as [|sv svs IH]; intros routes Hall; simpl; [assumption|].
  now apply IH, mergeStep_Forall.
Qed.

(** Each merge reduces the route count by one, and a merge needs two routes:
    a non-empty set of routes stays non-empty and never grows. *)
Lemma mergeLoop_count (savings : list Saving.t) (routes : list Route.t) :
  (1 <= length routes ->
   1 <= length (mergeLoop capacity savings routes) <= length routes)%nat.
Proof.
  revert routes. induction savings as [|sv svs IH]; intros routes Hn; simpl; [lia|].
  destruct (mergeStep_count routes sv) as [He|[H2 He]].
  - specialize (IH (mergeStep capacity routes sv)). lia.
  - specialize (IH (mergeStep capacity routes sv)). lia.
Qed.
End MergeInvariants.

(** ** 2-opt *)

Lemma bind_Ret_inv {A B : Type} (m : outcome A) (f : A -> outcome B) (b : B) :
  bind m f = Ret b -> exists a, m = Ret a /\ f a = Ret b.
Proof. destruct m; simpl; intros H; try discriminate. now exists a. Qed.

Lemma mapM_Ret_inv {A B : Type} (f : A -> outcome B) (l : list A) (out : list B) :
  mapM f l = Ret out -> Forall2 (fun x y => f x = Ret y) l out.
Proof.
  revert out. induction l as [|x xs IH]; intros out H; simpl in H.
  - inversion H. constructor.
  - apply bind_Ret_inv in H. destruct H as (y & Hy & H).
    apply bind_Ret_inv in H. destruct H as (ys & Hys & H).
    inversion H. constructor; [assumption | now apply IH].
Qed.

Lemma mapM_Ret_intro {A B : Type} (f : A -> outcome B) (g : A -> B) (l : list A) :
  Forall (fun x => f x = Ret (g x)) l -> mapM f l = Ret (map g l).
Proof.
  induction 1 as [|x xs Hx _ IH]; simpl; [reflexivity|].
  now rewrite Hx, IH.
Qed.

Lemma mapM_TypeError {A B : Type} (f : A -> outcome B) (l : list A) :
  (forall x, f x <> OutOfFuel) -> Exists (fun x => f x = TypeError) l ->
  mapM f l = TypeError.
Proof.
  intros Hnf. induction 1 as [x xs Hx|x xs _ IH]; simpl.
  - now rewrite Hx.
  - rewrite IH. specialize (Hnf x). destruct (f x); simpl; congruence.
Qed.

Lemma foldM_app {A S : Type} (f : S -> A -> outcome S) (l1 l2 : list A) (st : S) :
  foldM f (l1 ++ l2) st = let* st' := foldM f l1 st in foldM f l2 st'.
Proof.
  revert st. induction l1 as [|x xs IH]; intros st; simpl; [reflexivity|].
  destruct (f st x); simpl; auto.
Qed.

Section TwoOptFacts.
Variable haversineKm : LatLng -> LatLng -> Q.
Variable depot : Depot.t.

Lemma candidateOf_perm (best : list Stop.t) (i k : nat) :
  (i <= k)%nat -> Permutation (candidateOf best i k) best.
Proof.
  intros Hik. unfold candidateOf, slice. rewrite Nat.sub_0_r.
  change (skipn 0 best) with best.
  rewrite <- Permutation_rev.
  replace (skipn (k + 1) best) with (skipn (k + 1 - i) (skipn i best))
    by (rewrite skipn_skipn; f_equal; lia).
  now rewrite !firstn_skipn.
Qed.

Lemma candidateOf_length (best : list Stop.t) (i k : nat) :
  (i <= k)%nat -> length (candidateOf best i k) = length best.
Proof. intros H. apply Permutation_length. now apply candidateOf_perm. Qed.

(** Past the depot slot at index [length] the array reads [undefined]. *)
Lemma node_past_end (best : list Stop.t) (n : nat) :
  (length best < n)%nat -> node depot best (Z.of_nat n) = None.
Proof.
  intros H. unfold node.
  destruct (Z.eqb_spec (Z.of_nat n) (-1)); [lia|].
  destruct (Z.eqb_spec (Z.of_nat n) (Z.of_nat (length best))); [lia|].
  destruct (Z.ltb_spec (Z.of_nat n) 0); [lia|].
  rewrite Nat2Z.id.
  assert (Hn : nth_error best n = None) by (apply nth_error_None; lia).
  now rewrite Hn.
Qed.

Lemma haversineKm_call_fuel (a b : option LatLng) :
  haversineKm_call haversineKm a b <> OutOfFuel.
Proof. destruct a, b; discriminate. Qed.

(** For the last index [k = length - 1], [distWithDepot(k, k + 1)] reads the
    node at [length + 1] and the call of [haversineKm] on it throws. *)
Lemma beforeOf_last_throws (best : list Stop.t) (i k : nat) :
  S k = length best -> beforeOf haversineKm depot best i k = TypeError.
Proof.
  intros Hk. unfold beforeOf.
  assert (Hd : distWithDepot haversineKm depot best (Z.of_nat k) (Z.of_nat k + 1)
               = TypeError).
  { unfold distWithDepot.
    replace (Z.of_nat k + 1 + 1)%Z with (Z.of_nat (S (S k))) by lia.
    rewrite (node_past_end best (S (S k))) by lia.
    destruct (haversineKm_call _ (node depot best (Z.of_nat k))
                (node depot best (Z.of_nat k + 1))) eqn:E; simpl;
      [|reflexivity|now apply haversineKm_call_fuel in E].
    unfold haversineKm_call. now destruct (node depot best (Z.of_nat k + 1)). }
  rewrite Hd.
  destruct (distWithDepot haversineKm depot best (Z.of_nat i - 1) (Z.of_nat i)) eqn:E;
    try reflexivity.
  exfalso. unfold distWithDepot in E.
  repeat (let E' := fresh "E" in
          destruct (haversineKm_call haversineKm _ _) eqn:E' in E; simpl in E;
          try discriminate; try (now apply haversineKm_call_fuel in E')).
Qed.

(** [before] adds up four edges: the two that [distWithDepot(i - 1, i)]
    measures and the two that [distWithDepot(k, k + 1)] measures. *)
Lemma beforeOf_edges (best : list Stop.t) (i k : nat) :
  beforeOf haversineKm depot best i k =
    let n := node depot best in
    let* a := haversineKm_call haversineKm (n (Z.of_nat i - 1)%Z) (n (Z.of_nat i - 1 + 1)%Z) in
    let* b := haversineKm_call haversineKm (n (Z.of_nat i)) (n (Z.of_nat i + 1)%Z) in
    let* c := haversineKm_call haversineKm (n (Z.of_nat k)) (n (Z.of_nat k + 1)%Z) in
    let* d := haversineKm_call haversineKm (n (Z.of_nat k + 1)%Z) (n (Z.of_nat k + 1 + 1)%Z) in
    Ret ((a + b) + (c + d)).
Proof.
  unfold beforeOf, distWithDepot. cbv zeta.
  repeat (destruct (haversineKm_call haversineKm _ _); simpl; try reflexivity).
Qed.

(** The loop body throws or returns a sequence of the same length. *)
Lemma twoOptBody_cases (i k : nat) (st : list Stop.t * bool) :
  (i <= k)%nat ->
  twoOptBody haversineKm depot i st k = TypeError \/
  exists st', twoOptBody haversineKm depot i st k = Ret st' /\
              length (fst st') = length (fst st).
Proof.
  intros Hik. destruct st as [best improved]. unfold twoOptBody.
  destruct (beforeOf haversineKm depot best i k) as [before| |] eqn:Hb; simpl;
    [|now left|].
  - destruct (afterOf haversineKm depot (candidateOf best i k) i k)
      as [after| |] eqn:Ha; simpl; [|now left|].
    + right. destruct (Qlt_le_dec (after + tolerance) before);
        eexists; (split; [reflexivity|]); simpl;
        [now apply candidateOf_length | reflexivity].
    + exfalso. unfold afterOf in Ha.
      destruct (haversineKm_call haversineKm _ _) eqn:E1 in Ha; simpl in Ha;
        try discriminate; [|now apply haversineKm_call_fuel in E1].
      destruct (haversineKm_call haversineKm _ _) eqn:E2 in Ha; simpl in Ha;
        try discriminate. now apply haversineKm_call_fuel in E2.
  - exfalso. unfold beforeOf, distWithDepot in Hb.
    repeat (let E := fresh "E" in
            destruct (haversineKm_call haversineKm _ _) eqn:E in Hb; simpl in Hb;
            try discriminate; try (now apply haversineKm_call_fuel in E)).
Qed.

Lemma innerLoop_prefix_cases (i : nat) (ks : list nat) (st : list Stop.t * bool) :
  Forall (fun k => (i <= k)%nat) ks ->
  foldM (twoOptBody haversineKm depot i) ks st = TypeError \/
  exists st', foldM (twoOptBody haversineKm depot i) ks st = Ret st' /\
              length (fst st') = length (fst st).
Proof.
  intros Hks. revert st. induction Hks as [|k ks Hk _ IH]; intros st; simpl.
  - right. now exists st.
  - destruct (twoOptBody_cases i k st Hk) as [->|(st1 & -> & Hlen)]; [now left|].
    simpl. rewrite <- Hlen. apply IH.
Qed.

(** The inner loop of the first outer iteration always reaches
    [k = length - 1], where [before] throws. *)
Lemma innerLoop_throws (i : nat) (st : list Stop.t * bool) :
  (S i < length (fst st))%nat -> innerLoop haversineKm depot st i = TypeError.
Proof.
  intros Hlen. unfold innerLoop.
  remember (length (fst st)) as n eqn:Hn.
  replace (n - S i)%nat with (S (n - S (S i))) by lia.
  rewrite seq_S, foldM_app.
  destruct (innerLoop_prefix_cases i (seq (S i) (n - S (S i))) st)
    as [->|(st' & -> & Hlen')]; [|reflexivity|].
  { apply Forall_forall. intros k Hk. apply in_seq in Hk. lia. }
  simpl. destruct st' as [best' improved']. simpl in *.
  unfold twoOptBody. rewrite beforeOf_last_throws; [reflexivity|lia].
Qed.

Lemma pass_throws (best : list Stop.t) :
  (2 <= length best)%nat -> pass haversineKm depot best = TypeError.
Proof.
  intros Hlen. unfold pass.
  replace (length best - 1)%nat with (S (length best - 2)) by lia.
  simpl. rewrite innerLoop_throws; [reflexivity | simpl; lia].
Qed.

(** [twoOpt] returns short routes unchanged and throws on every route of
    four or more stops; the [while] loop never completes a pass. *)
Lemma twoOpt_outcome (fuel : nat) (seq : list Stop.t) :
  twoOpt haversineKm depot (S fuel) seq =
    if Nat.ltb (length seq) 4 then Ret seq else TypeError.
Proof.
  unfold twoOpt. destruct (Nat.ltb_spec (length seq) 4); [reflexivity|].
  simpl. rewrite pass_throws; [reflexivity|lia].
Qed.

Lemma twoOpt_Ret_inv (fuel : nat) (seq out : list Stop.t) :
  twoOpt haversineKm depot fuel seq = Ret out -> out = seq /\ (length seq < 4)%nat.
Proof.
  destruct fuel as [|fuel].
  - unfold twoOpt. destruct (Nat.ltb_spec (length seq) 4) as [Hlt|Hge]; simpl;
      [|discriminate].
    intros E; inversion E; subst; split; [reflexivity | assumption].
  - rewrite twoOpt_outcome. destruct (Nat.ltb_spec (length seq) 4) as [Hlt|Hge];
      [|discriminate].
    intros E; inversion E; subst; split; [reflexivity | assumption].
Qed.
End TwoOptFacts.

(** ** The whole pipeline *)

Section Pipeline.
Variable haversineKm : LatLng -> LatLng -> Q.
Variable depot : Depot.t.


Lemma toResult_outcome (fuel : nat) (r : Route.t) :
  toResult haversineKm depot (S fuel) r =
    if short r then Ret ((plainResult haversineKm depot) r) else TypeError.
Proof.
  unfold toResult, short. rewrite twoOpt_outcome.
  now destruct (Nat.ltb (length (Route.customers r)) 4).
Qed.

Lemma toResult_Ret_inv (fuel : nat) (r : Route.t) (rr : RouteResult.t) :
  toResult haversineKm depot fuel r = Ret rr -> rr = (plainResult haversineKm depot) r /\ short r = true.
Proof.
  unfold toResult. intros H. apply bind_Ret_inv in H.
  destruct H as (out & Hout & H). apply twoOpt_Ret_inv in Hout.
  destruct Hout as [-> Hlen]. inversion H. split; [reflexivity|].
  now apply Nat.ltb_lt.
Qed.

Lemma mergePhase_nil (capacity : Q) : mergePhase haversineKm depot [] capacity = [].
Proof. reflexivity. Qed.

(** With at least one pass allowed, the solver returns exactly when no
    working route has four or more stops, and throws otherwise. *)
Lemma clarkeWright_outcome (fuel : nat) (customers : list Stop.t) (capacity : Q) :
  clarkeWright haversineKm depot (S fuel) customers capacity =
    let routes := mergePhase haversineKm depot customers capacity in
    if forallb short routes then Ret (rank (map (plainResult haversineKm depot) routes)) else TypeError.
Proof.
  unfold clarkeWright. destruct customers as [|c cs]; [reflexivity|].
  change (Nat.eqb (length (c :: cs)) 0) with false. cbv zeta iota beta.
  set (routes := mergePhase haversineKm depot (c :: cs) capacity).
  destruct (forallb short routes) eqn:Hs.
  - rewrite (mapM_Ret_intro _ (plainResult haversineKm depot)); [reflexivity|].
    rewrite forallb_forall in Hs. apply Forall_forall. intros r Hr.
    rewrite toResult_outcome. now rewrite (Hs r Hr).
  - rewrite mapM_TypeError; [reflexivity| |].
    + intros r. rewrite toResult_outcome. destruct (short r); discriminate.
    + apply Exists_exists.
      assert (Hex : existsb (fun r => negb (short r)) routes = true).
      { clear -Hs. induction routes as [|r rs IH]; simpl in *; [discriminate|].
        destruct (short r); simpl in *; auto. }
      apply existsb_exists in Hex. destruct Hex as (r & Hr & Hn).
      exists r. split; [assumption|]. rewrite toResult_outcome.
      now destruct (short r).
Qed.

Lemma clarkeWright_Ret_inv (fuel : nat) (customers : list Stop.t) (capacity : Q)
      (results : list RouteResult.t) :
  clarkeWright haversineKm depot fuel customers capacity = Ret results ->
  let routes := mergePhase haversineKm depot customers capacity in
  results = rank (map (plainResult haversineKm depot) routes) /\ forallb short routes = true.
Proof.
  unfold clarkeWright. destruct customers as [|c cs].
  - simpl. intros H. inversion H. now split.
  - change (Nat.eqb (length (c :: cs)) 0) with false. cbv zeta iota beta.
    set (routes := mergePhase haversineKm depot (c :: cs) capacity).
    intros H. apply bind_Ret_inv in H. destruct H as (rs & Hrs & H).
    inversion H. clear H. apply mapM_Ret_inv in Hrs.
    assert (Hall : rs = map (plainResult haversineKm depot) routes /\ forallb short routes = true).
    { clear -Hrs. induction Hrs as [|r rr l l' Hr _ IH]; [now split|].
      apply toResult_Ret_inv in Hr. destruct Hr as [-> Hs], IH as [-> Hf].
      simpl. now rewrite Hs, Hf. }
    destruct Hall as [-> Hf]. now split.
Qed.

Lemma results_perm (fuel : nat) (customers : list Stop.t) (capacity : Q)
      (results : list RouteResult.t) :
  clarkeWright haversineKm depot fuel customers capacity = Ret results ->
  Permutation results
    (map (plainResult haversineKm depot) (mergePhase haversineKm depot customers capacity)).
Proof.
  intros H. apply clarkeWright_Ret_inv in H. destruct H as [-> _].
  apply Array_sort_perm.
Qed.

Lemma results_routes (fuel : nat) (customers : list Stop.t) (capacity : Q)
      (results : list RouteResult.t) :
  clarkeWright haversineKm depot fuel customers capacity = Ret results ->
  Permutation (concat (map RouteResult.route results))
    (allStops (mergePhase haversineKm depot customers capacity)).
Proof.
  intros H. apply results_perm in H.
  set (routes := mergePhase haversineKm depot customers capacity) in *.
  unfold allStops.
  replace (map Route.customers routes)
    with (map RouteResult.route (map (plainResult haversineKm depot) routes))
    by (rewrite map_map; reflexivity).
  generalize dependent (map (plainResult haversineKm depot) routes). intros l H.
  induction H as [|x l1 l2 _ IH|x y l1|l1 l2 l3 _ IH1 _ IH2]; simpl.
  - reflexivity.
  - now apply Permutation_app_head.
  - rewrite !app_assoc. apply Permutation_app_tail, Permutation_app_comm.
  - now transitivity (concat (map RouteResult.route l2)).
Qed.

Lemma initRoutes_allStops (customers : list Stop.t) :
  allStops (initRoutes customers) = customers.
Proof.
  unfold allStops, initRoutes. induction customers as [|c cs IH]; simpl;
    [reflexivity | now rewrite IH].
Qed.

Lemma mergePhase_allStops (customers : list Stop.t) (capacity : Q) :
  Permutation (allStops (mergePhase haversineKm depot customers capacity)) customers.
Proof.
  unfold mergePhase. rewrite mergeLoop_allStops. now rewrite initRoutes_allStops.
Qed.
End Pipeline.

(** ** The loads in machine arithmetic *)

Lemma Forall2_nth_error_Some {A B : Type} (R : A -> B -> Prop)
      (l : list A) (l' : list B) (n : nat) (b : B) :
  Forall2 R l l' -> nth_error l' n = Some b ->
  exists a, nth_error l n = Some a /\ R a b.
Proof.
  intros H. revert n. induction H as [|x y l l' Hxy _ IH]; intros [|n] Hn;
    simpl in *; try discriminate.
  - inversion Hn; subst. now exists x.
  - now apply IH.
Qed.

Lemma Forall2_nth_error_None {A B : Type} (R : A -> B -> Prop)
      (l : list A) (l' : list B) (n : nat) :
  Forall2 R l l' -> nth_error l' n = None -> nth_error l n = None.
Proof.
  intros H Hn. apply nth_error_None in Hn. apply nth_error_None.
  now rewrite (Forall2_length H).
Qed.

Lemma Forall2_firstn_both {A B : Type} (R : A -> B -> Prop)
      (l : list A) (l' : list B) (n : nat) :
  Forall2 R l l' -> Forall2 R (firstn n l) (firstn n l').
Proof.
  intros H. revert n. induction H; intros [|n]; simpl; constructor; auto.
Qed.

Lemma Forall2_skipn_both {A B : Type} (R : A -> B -> Prop)
      (l : list A) (l' : list B) (n : nat) :
  Forall2 R l l' -> Forall2 R (skipn n l) (skipn n l').
Proof.
  intros H. revert n. induction H; intros [|n]; simpl; try constructor; auto.
Qed.

Lemma Forall2_setNth {A B : Type} (R : A -> B -> Prop)
      (l : list A) (l' : list B) (n : nat) (x : A) (x' : B) :
  Forall2 R l l' -> R x x' -> Forall2 R (setNth l n x) (setNth l' n x').
Proof.
  intros H Hx. unfold setNth. apply Forall2_app; [now apply Forall2_firstn_both|].
  pose proof (Forall2_skipn_both R l l' n H) as Hs.
  destruct Hs; constructor; assumption.
Qed.

Lemma Forall2_splice1 {A B : Type} (R : A -> B -> Prop)
      (l : list A) (l' : list B) (n : nat) :
  Forall2 R l l' -> Forall2 R (splice1 l n) (splice1 l' n).
Proof.
  intros H. unfold splice1.
  apply Forall2_app; [now apply Forall2_firstn_both | now apply Forall2_skipn_both].
Qed.

Lemma findRouteAndPos_from_customers (k : nat) (r1 r2 : list Route.t) (stop : Stop.t) :
  map Route.customers r1 = map Route.customers r2 ->
  findRouteAndPos_from k r1 stop = findRouteAndPos_from k r2 stop.
Proof.
  revert k r2. induction r1 as [|a r1 IH]; intros k [|b r2] H; simpl in H;
    try discriminate; [reflexivity|].
  injection H as Hh Ht. cbn [findRouteAndPos_from]. rewrite Hh.
  destruct (Route.customers b); [now apply IH|].
  now rewrite (IH (S k) r2 Ht).
Qed.

Lemma sumQ_nonneg (l : list Q) : Forall (fun q => 0 <= q) l -> 0 <= sumQ l.
Proof.
  induction 1 as [|x l Hx _ IH]; simpl; lra.
Qed.

(** Two different routes carry at most the total load between them, when
    no load is negative. *)
Lemma pair_load_le (routes : list Route.t) (fi fj : nat) (ri rj : Route.t) :
  fi <> fj -> nth_error routes fi = Some ri -> nth_error routes fj = Some rj ->
  Forall (fun r => 0 <= Route.load r) routes ->
  Route.load ri + Route.load rj <= totalLoad routes.
Proof.
  intros Hne Hi Hj Hpos.
  pose proof (merge_splice_perm routes fi fj ri rj (Route.mk [] 0) Hne Hi Hj) as Hp.
  pose proof (sumQ_perm _ _ (Permutation_map Route.load Hp)) as Hs. simpl in Hs.
  assert (Hall : Forall (fun r => 0 <= Route.load r)
                        (ri :: rj :: splice1 (setNth routes fi (Route.mk [] 0)) fj)).
  { apply (Permutation_Forall (Permutation_sym Hp)).
    constructor; [simpl; lra | exact Hpos]. }
  inversion Hall as [|? ? _ Hall']; subst. inversion Hall' as [|? ? _ Hrest]; subst.
  pose proof (sumQ_nonneg _ (proj2 (Forall_map _ _ _) Hrest)) as H0.
  unfold totalLoad. lra.
Qed.

Lemma whole_nonneg (q : Q) : whole q -> 0 <= q.
Proof.
  intros (z & Hz & ->). change 0 with (inject_Z 0). now rewrite <- Zle_Qle.
Qed.

Lemma whole_plus (p q : Q) : whole p -> whole q -> whole (p + q).
Proof.
  intros (a & Ha & Hp) (b & Hb & Hq). exists (a + b)%Z. split; [lia|].
  now rewrite inject_Z_plus, Hp, Hq.
Qed.

Lemma whole_eq (p q : Q) : p == q -> whole q -> whole p.
Proof. intros Hpq (z & Hz & Hq). exists z. split; [exact Hz | now rewrite Hpq]. Qed.

Section LoadsSim.
Context {num : Type}.
Variable add : num -> num -> num.
Variable exceeds : num -> num -> bool.
Variable cap : num.
Variable capacity : Q.
Variable L : num -> Q -> Prop.
Variable ok : Q -> Q -> Prop.
Hypothesis L_add : forall x y p q, L x p -> L y q -> ok p q -> L (add x y) (p + q).
Hypothesis L_exceeds : forall x q, L x q -> (exceeds x cap = true <-> capacity < q).

Lemma customersOnly_customers (rns : list (list Stop.t * num)) (rs : list Route.t) :
  Forall2 (sameRouteBy L) rns rs ->
  map Route.customers (customersOnly rns) = map Route.customers rs.
Proof.
  induction 1 as [|rn r rns rs [Hc _] _ IH]; simpl; [reflexivity|].
  now rewrite Hc, IH.
Qed.

(** One step in machine arithmetic takes the decisions of the kernel's
    step and leaves related routes, as long as the two loads of a merge can
    be added ([ok]). *)
Lemma mergeStepIn_sim (rns : list (list Stop.t * num)) (rs : list Route.t)
      (sv : Saving.t) :
  Forall2 (sameRouteBy L) rns rs ->
  (forall fi fj ri rj, fi <> fj ->
     nth_error rs fi = Some ri -> nth_error rs fj = Some rj ->
     ok (Route.load ri) (Route.load rj)) ->
  Forall2 (sameRouteBy L) (mergeStepIn add exceeds cap rns sv)
          (mergeStep capacity rs sv).
Proof.
  intros H Hok. unfold mergeStepIn, mergeStep, findRouteAndPos.
  rewrite !(findRouteAndPos_from_customers 0 (customersOnly rns) rs)
    by (apply customersOnly_customers; exact H).
  destruct (findRouteAndPos_from 0 rs (Saving.i sv)) as [[fi [ai|]]|]; try exact H;
    destruct (findRouteAndPos_from 0 rs (Saving.j sv)) as [[fj [aj|]]|]; try exact H;
    destruct (Nat.eqb_spec fi fj) as [Heq|Hne]; try exact H.
  destruct (nth_error rs fi) as [ri|] eqn:Hri;
    [|rewrite (Forall2_nth_error_None _ _ _ _ H Hri); exact H].
  destruct (Forall2_nth_error_Some _ _ _ _ _ H Hri) as (rni & Hrni & Hci & Hli).
  rewrite Hrni.
  destruct (nth_error rs fj) as [rj|] eqn:Hrj;
    [|rewrite (Forall2_nth_error_None _ _ _ _ H Hrj); exact H].
  destruct (Forall2_nth_error_Some _ _ _ _ _ H Hrj) as (rnj & Hrnj & Hcj & Hlj).
  rewrite Hrnj. cbv zeta.
  pose proof (L_add _ _ _ _ Hli Hlj (Hok fi fj ri rj Hne Hri Hrj)) as Hsum.
  pose proof (L_exceeds _ _ Hsum) as Hex.
  destruct (exceeds (add (snd rni) (snd rnj)) cap) eqn:E;
    destruct (Qlt_le_dec capacity (Route.load ri + Route.load rj)) as [Hlt|Hle].
  - exact H.
  - exfalso. pose proof (proj1 Hex eq_refl). lra.
  - exfalso. pose proof (proj2 Hex Hlt). discriminate.
  - apply Forall2_splice1, Forall2_setNth; [exact H|].
    split; simpl; [now rewrite Hci, Hcj | exact Hsum].
Qed.
End LoadsSim.

(** The merge loop of the kernel is the instance of exact rationals. *)
Lemma mergeLoopIn_exact (capacity : Q) (savings : list Saving.t) (routes : list Route.t) :
  map (fun rn => Route.mk (fst rn) (snd rn))
      (mergeLoopIn Qplus exceedsQ capacity savings
         (map (fun r => (Route.customers r, Route.load r)) routes))
  = mergeLoop capacity savings routes.
Proof.
  assert (Hloop : forall svs rns rs,
            Forall2 (sameRouteBy eq) rns rs ->
            Forall2 (sameRouteBy eq) (mergeLoopIn Qplus exceedsQ capacity svs rns)
                    (mergeLoop capacity svs rs)).
  { induction svs as [|sv svs IH]; intros rns rs H; simpl; [exact H|].
    apply IH. apply (mergeStepIn_sim Qplus exceedsQ capacity capacity eq (fun _ _ => True)).
    - intros x y p q -> -> _. reflexivity.
    - intros x q ->. unfold exceedsQ.
      destruct (Qlt_le_dec capacity q); split; intros; try assumption;
        try reflexivity; try discriminate. lra.
    - exact H.
    - intros. exact I. }
  assert (Hinit : Forall2 (sameRouteBy eq)
                    (map (fun r => (Route.customers r, Route.load r)) routes) routes).
  { induction routes as [|r rs IH]; simpl; constructor; [now split | exact IH]. }
  specialize (Hloop savings _ _ Hinit).
  induction Hloop as [|rn r rns rs [Hc Hl] _ IH]; simpl; [reflexivity|].
  rewrite IH, Hc, Hl. now destruct r.
Qed.

Section LoadsMachine.
Context {num : Type}.
Variable add : num -> num -> num.
Variable exceeds : num -> num -> bool.
Variable val : num -> option Q.
Variable cap : num.
Variable capacity : Q.
Hypothesis add_exact : exactOnWhole add val.
Hypothesis exceeds_exact : exactCompare exceeds val.
Hypothesis cap_exact : valIs val cap capacity.

(** With whole loads whose total is at most [2^53], the loop in machine
    arithmetic follows the kernel's loop merge by merge. *)
Lemma mergeLoopIn_machine (savings : list Saving.t)
      (rns : list (list Stop.t * num)) (rs : list Route.t) :
  Forall2 (sameRoute val) rns rs ->
  Forall (fun r => whole (Route.load r)) rs ->
  totalLoad rs <= maxExact ->
  Forall2 (sameRoute val) (mergeLoopIn add exceeds cap savings rns)
          (mergeLoop capacity savings rs).
Proof.
  revert rns rs. induction savings as [|sv svs IH]; intros rns rs H Hw Ht; simpl;
    [exact H|].
  apply IH.
  - apply (mergeStepIn_sim add exceeds cap capacity (valIs val) addable).
    + intros x y p q (vx & Ex & Hx) (vy & Ey & Hy) (Hp & Hq & Hpq).
      destruct (add_exact x y vx vy Ex Ey) as (v & Ev & Hv).
      * now apply (whole_eq _ p).
      * now apply (whole_eq _ q).
      * now rewrite Hx, Hy.
      * exists v. split; [exact Ev | now rewrite Hv, Hx, Hy].
    + intros x q (vx & Ex & Hx). destruct cap_exact as (vc & Ec & Hc).
      rewrite (exceeds_exact x cap vx vc Ex Ec), Hc, Hx. reflexivity.
    + exact H.
    + intros fi fj ri rj Hne Hri Hrj.
      pose proof (proj1 (Forall_forall _ _) Hw) as Hin.
      split; [|split].
      * eapply Hin, nth_error_In; eauto.
      * eapply Hin, nth_error_In; eauto.
      * apply Qle_trans with (totalLoad rs); [|exact Ht].
        apply (pair_load_le rs fi fj); try assumption.
        eapply Forall_impl; [|exact Hw]. intros r. apply whole_nonneg.
  - apply mergeStep_Forall; [|exact Hw].
    intros ri rj merged Hi Hj _ _ _ _. simpl. now apply whole_plus.
  - now rewrite mergeStep_totalLoad.
Qed.

Lemma sameRoute_loads (rns : list (list Stop.t * num)) (rs : list Route.t) :
  Forall2 (sameRoute val) rns rs ->
  (Forall (fun r => Route.load r == totalDemand (Route.customers r)) rs ->
   Forall (fun rn => valIs val (snd rn) (totalDemand (fst rn))) rns) /\
  exists loads,
    map (fun rn => val (snd rn)) rns = map Some loads /\
    sumQ loads == totalLoad rs.
Proof.
  induction 1 as [|rn r rns rs [Hc (v & Ev & Hv)] _ [IH1 (loads & IH2 & IH3)]]; simpl.
  - split; [constructor | exists []; split; reflexivity].
  - split.
    + intros Hall. inversion Hall as [|? ? Hr Hrs]; subst.
      constructor; [|now apply IH1].
      exists v. split; [exact Ev | now rewrite Hc, Hv].
    + exists (v :: loads). split; [simpl; now rewrite Ev, IH2|].
      unfold totalLoad in *. simpl. now rewrite IH3, Hv.
Qed.
End LoadsMachine.

(** ** Claims on the route partition, the loads and the capacity *)

Section Claims.
Variable haversineKm : LatLng -> LatLng -> Q.
Variable depot : Depot.t.

(** C4 (partition property). For stops with pairwise distinct ids, the stop
    ids of the working routes at the end of merging are the input ids, each
    exactly once; and whenever the solver returns, the same holds of the
    routes of its output. *)
Theorem partition_property (customers : list Stop.t) (capacity : Q) :
  NoDup (map Stop.id customers) ->
  let routes := mergePhase haversineKm depot customers capacity in
  (Permutation (map Stop.id (allStops routes)) (map Stop.id customers) /\
   NoDup (map Stop.id (allStops routes))) /\
  (forall fuel results,
      clarkeWright haversineKm depot fuel customers capacity = Ret results ->
      Permutation (map Stop.id (concat (map RouteResult.route results)))
                  (map Stop.id customers) /\
      NoDup (map Stop.id (concat (map RouteResult.route results)))).
Proof.
  intros Hnd routes.
  assert (Hp : Permutation (map Stop.id (allStops routes)) (map Stop.id customers))
    by apply Permutation_map, mergePhase_allStops.
  split.
  - split; [exact Hp|]. symmetry in Hp. exact (Permutation_NoDup Hp Hnd).
  - intros fuel results Hres.
    assert (Hq : Permutation (map Stop.id (concat (map RouteResult.route results)))
                             (map Stop.id customers)).
    { etransitivity; [|exact Hp].
      apply Permutation_map. eapply results_routes. exact Hres. }
    split; [exact Hq|]. symmetry in Hq. exact (Permutation_NoDup Hq Hnd).
Qed.


Lemma mergePhase_cap_ok (customers : list Stop.t) (capacity : Q) :
  Forall (cap_ok customers capacity)
         (mergePhase haversineKm depot customers capacity).
Proof.
  unfold mergePhase. apply mergeLoop_Forall.
  - intros ri rj merged _ _ Hni Hnj Hload Hperm. right. simpl. split; [|assumption].
    rewrite (Permutation_length Hperm), length_app.
    destruct (Route.customers ri), (Route.customers rj); simpl; try congruence; lia.
  - unfold initRoutes. apply Forall_forall. intros r Hr.
    apply in_map_iff in Hr. destruct Hr as (c & <- & Hc). left. now exists c.
Qed.

(** With non-negative demands, no merge takes a route that is over
    capacity, so a stop over capacity keeps its singleton route. *)
Lemma mergeStep_keeps_heavy (capacity : Q) (routes : list Route.t) (sv : Saving.t)
      (r0 : Route.t) :
  capacity < Route.load r0 ->
  Forall (fun r => 0 <= Route.load r) routes ->
  In r0 routes -> In r0 (mergeStep capacity routes sv).
Proof.
  intros Hgt Hpos Hin.
  destruct (mergeStep_cases capacity routes sv)
    as [->|(fi & fj & ri & rj & merged & Hne & Hi & Hj & _ & _ & Hload & _ & ->)];
    [assumption|].
  pose proof (merge_splice_perm routes fi fj ri rj
       (Route.mk merged (Route.load ri + Route.load rj)) Hne Hi Hj) as H.
  assert (Hri : 0 <= Route.load ri)
    by (eapply (proj1 (Forall_forall _ _) Hpos), nth_error_In; eauto).
  assert (Hrj : 0 <= Route.load rj)
    by (eapply (proj1 (Forall_forall _ _) Hpos), nth_error_In; eauto).
  symmetry in H.
  assert (Hin' : In r0 (Route.mk merged (Route.load ri + Route.load rj) :: routes))
    by now right.
  apply (Permutation_in r0 H) in Hin'. destruct Hin' as [<-|[<-|Hin']];
    [lra|lra|assumption].
Qed.

Lemma mergeLoop_keeps_heavy (capacity : Q) (savings : list Saving.t)
      (routes : list Route.t) (r0 : Route.t) :
  capacity < Route.load r0 ->
  Forall (fun r => 0 <= Route.load r) routes ->
  In r0 routes -> In r0 (mergeLoop capacity savings routes).
Proof.
  intros Hgt. revert routes.
  induction savings as [|sv svs IH]; intros routes Hpos Hin; simpl; [assumption|].
  apply IH.
  - apply mergeStep_Forall; [|assumption].
    intros ri rj merged Hi Hj _ _ _ _. simpl. lra.
  - now apply mergeStep_keeps_heavy.
Qed.

Lemma mergePhase_keeps_heavy (customers : list Stop.t) (capacity : Q) (c : Stop.t) :
  Forall (fun c => 0 <= Stop.demand c) customers ->
  In c customers -> capacity < Stop.demand c ->
  In (Route.mk [c] (Stop.demand c)) (mergePhase haversineKm depot customers capacity).
Proof.
  intros Hpos Hc Hgt. unfold mergePhase. apply mergeLoop_keeps_heavy.
  - exact Hgt.
  - unfold initRoutes. apply Forall_map. exact Hpos.
  - unfold initRoutes. apply in_map_iff. now exists c.
Qed.

(** C5 (capacity bound). Every working route with two or more stops, that
    is every route formed by at least one merge, has a load within capacity;
    a route over capacity is an initial singleton whose stop's own demand
    exceeds capacity. The same holds of every route the solver returns.
    With non-negative demands, a stop over capacity is not rejected: its
    singleton route is among the working routes at the end. *)
Theorem capacity_bound (customers : list Stop.t) (capacity : Q) :
  let bound (stops : list Stop.t) (load : Q) :=
    ((2 <= length stops)%nat -> load <= capacity) /\
    (capacity < load ->
     exists c, In c customers /\ stops = [c] /\ load = Stop.demand c /\
               capacity < Stop.demand c) in
  Forall (fun r => bound (Route.customers r) (Route.load r))
         (mergePhase haversineKm depot customers capacity) /\
  (forall fuel results,
      clarkeWright haversineKm depot fuel customers capacity = Ret results ->
      Forall (fun rr => bound (RouteResult.route rr) (RouteResult.load rr)) results) /\
  (Forall (fun c => 0 <= Stop.demand c) customers ->
   forall c, In c customers -> capacity < Stop.demand c ->
     In (Route.mk [c] (Stop.demand c))
        (mergePhase haversineKm depot customers capacity)).
Proof.
  intros bound.
  assert (Hm : Forall (fun r => bound (Route.customers r) (Route.load r))
                      (mergePhase haversineKm depot customers capacity)).
  { eapply Forall_impl; [|apply mergePhase_cap_ok].
    intros r [(c & Hc & ->)|[Hlen Hload]]; unfold bound; simpl; split.
    - lia.
    - intros Hgt. exists c. now repeat split.
    - now intros _.
    - intros Hgt. lra. }
  split; [exact Hm|]. split.
  - intros fuel results Hres. apply results_perm in Hres. symmetry in Hres.
    apply (Permutation_Forall Hres). apply Forall_map.
    eapply Forall_impl; [|exact Hm]. now intros r Hr.
  - intros Hpos c Hc Hgt. now apply mergePhase_keeps_heavy.
Qed.

Lemma mergeLoop_load_ok (savings : list Saving.t) (customers : list Stop.t)
      (capacity : Q) :
  Forall (fun r => Route.load r == totalDemand (Route.customers r))
         (mergeLoop capacity savings (initRoutes customers)).
Proof.
  apply mergeLoop_Forall.
  - intros ri rj merged Hi Hj _ _ _ Hperm. simpl.
    rewrite (totalDemand_perm _ _ Hperm), totalDemand_app, Hi, Hj. reflexivity.
  - unfold initRoutes. apply Forall_forall. intros r Hr.
    apply in_map_iff in Hr. destruct Hr as (c & <- & _).
    unfold totalDemand. simpl. lra.
Qed.

Lemma mergePhase_load_ok (customers : list Stop.t) (capacity : Q) :
  Forall (fun r => Route.load r == totalDemand (Route.customers r))
         (mergePhase haversineKm depot customers capacity).
Proof.
  unfold mergePhase. apply mergeLoop_Forall.
  - intros ri rj merged Hi Hj _ _ _ Hperm. simpl.
    rewrite (totalDemand_perm _ _ Hperm), totalDemand_app, Hi, Hj. reflexivity.
  - unfold initRoutes. apply Forall_forall. intros r Hr.
    apply in_map_iff in Hr. destruct Hr as (c & <- & _).
    unfold totalDemand. simpl. lra.
Qed.

Lemma initRoutes_totalLoad (customers : list Stop.t) :
  totalLoad (initRoutes customers) = totalDemand customers.
Proof.
  unfold totalLoad, totalDemand, initRoutes. now rewrite map_map.
Qed.

(** C6 (load conservation), for demands that are whole numbers, none
    negative, with a total of at most [2^53]: the demands whose sums the
    code's double-precision additions compute without rounding. Every
    working route's load is then the sum of the demands of its stops and
    the loads add up to the total input demand; whenever the solver returns,
    the same holds of its output. And the loads do not depend on the
    arithmetic: in every number type whose addition is exact on such whole
    numbers and whose comparison is exact, binary64 among them, and in
    whatever order the savings are taken, the merge loop ends with the
    routes of the loop in exact arithmetic, each with a load whose value is
    the sum of the demands of its stops. *)
Theorem load_conservation (customers : list Stop.t) (capacity : Q) :
  Forall (fun c => whole (Stop.demand c)) customers ->
  totalDemand customers <= maxExact ->
  let routes := mergePhase haversineKm depot customers capacity in
  ((Forall (fun r => Route.load r == totalDemand (Route.customers r)) routes /\
    totalLoad routes == totalDemand customers) /\
   (forall fuel results,
       clarkeWright haversineKm depot fuel customers capacity = Ret results ->
       Forall (fun rr => RouteResult.load rr == totalDemand (RouteResult.route rr))
              results /\
       sumQ (map RouteResult.load results) == totalDemand customers)) /\
  (forall (savings : list Saving.t)
          (num : Type) (add : num -> num -> num) (exceeds : num -> num -> bool)
          (demandOf : Stop.t -> num) (val : num -> option Q) (cap : num),
      exactOnWhole add val ->
      exactCompare exceeds val ->
      (forall c, In c customers -> valIs val (demandOf c) (Stop.demand c)) ->
      valIs val cap capacity ->
      let machine :=
        mergeLoopIn add exceeds cap savings (initRoutesIn demandOf customers) in
      Forall2 (sameRoute val) machine
              (mergeLoop capacity savings (initRoutes customers)) /\
      Forall (fun rn => valIs val (snd rn) (totalDemand (fst rn))) machine /\
      exists loads,
        map (fun rn => val (snd rn)) machine = map Some loads /\
        sumQ loads == totalDemand customers).
Proof.
  intros Hwhole Htotal routes.
  assert (Ht : totalLoad routes == totalDemand customers).
  { unfold routes, mergePhase. rewrite mergeLoop_totalLoad.
    now rewrite initRoutes_totalLoad. }
  split; [split; [split; [apply mergePhase_load_ok | exact Ht]|]|].
  - intros fuel results Hres. apply results_perm in Hres. split.
    + symmetry in Hres. apply (Permutation_Forall Hres). apply Forall_map.
      eapply Forall_impl; [|apply mergePhase_load_ok]. now intros r Hr.
    + rewrite (sumQ_perm _ _ (Permutation_map RouteResult.load Hres)).
      rewrite map_map. exact Ht.
  - intros savings num add exceeds demandOf val cap Hadd Hexc Hdem Hcap machine.
    assert (Hsim : Forall2 (sameRoute val) machine
                           (mergeLoop capacity savings (initRoutes customers))).
    { unfold machine.
      apply (mergeLoopIn_machine add exceeds val cap capacity Hadd Hexc Hcap).
      - unfold initRoutesIn, initRoutes.
        clear - Hdem. induction customers as [|c cs IH]; simpl; constructor.
        + split; [reflexivity|]. simpl. apply Hdem. now left.
        + apply IH. intros c' Hc'. apply Hdem. now right.
      - unfold initRoutes. apply Forall_map. exact Hwhole.
      - now rewrite initRoutes_totalLoad. }
    destruct (sameRoute_loads val machine _ Hsim) as [Hl (loads & Hm & Hs)].
    split; [exact Hsim|]. split; [apply Hl, mergeLoop_load_ok|].
    exists loads. split; [exact Hm|].
    now rewrite Hs, mergeLoop_totalLoad, initRoutes_totalLoad.
Qed.

Lemma generateSavings_pairs (customers : list Stop.t) :
  map Saving.pair (generateSavings haversineKm depot customers) = pairs customers.
Proof.
  unfold generateSavings. rewrite map_map.
  rewrite <- (map_id (pairs customers)) at 2.
  apply map_ext. now intros [a b].
Qed.

(** For stops whose ids are not [__proto__] no saving is [NaN]: the
    numbers the code computes are the rationals of the kernel. *)
Lemma savingNumbers_ordinary (customers : list Stop.t) :
  Forall (fun c => Stop.id c <> protoKey) customers ->
  savingNumbers haversineKm depot customers
  = map (fun sv => (Saving.i sv, Saving.j sv, Some (Saving.s sv)))
        (generateSavings haversineKm depot customers).
Proof.
  intros Hord. unfold savingNumbers, generateSavings. rewrite map_map.
  apply map_ext_in. intros [a b] Hab. simpl.
  destruct (in_pairs _ _ _ Hab) as [Ha Hb].
  pose proof (proj1 (Forall_forall _ _) Hord) as H.
  now rewrite (savingValue_defined haversineKm depot customers a b Hab (H a Ha) (H b Hb)).
Qed.

Lemma sortedSavingNumbers_ordinary (customers : list Stop.t) :
  Forall (fun c => Stop.id c <> protoKey) customers ->
  sortedSavingNumbers haversineKm depot customers
  = map (fun sv => (Saving.i sv, Saving.j sv, Some (Saving.s sv)))
        (sortedSavings haversineKm depot customers).
Proof.
  intros Hord. unfold sortedSavingNumbers, sortedSavings.
  rewrite (savingNumbers_ordinary customers Hord).
  apply Array_sort_map. reflexivity.
Qed.

Lemma sortedSavings_descending (customers : list Stop.t) :
  StronglySorted (fun a b => Saving.s b <= Saving.s a)
                 (sortedSavings haversineKm depot customers).
Proof.
  unfold sortedSavings.
  apply Sorted_StronglySorted; [intros x y z Hxy Hyz; lra|].
  eapply Sorted_weaken; [|apply Array_sort_sorted].
  - intros a b. unfold before_ok. intros H; lra.
  - intros x y H. lra.
Qed.

Lemma StronglySorted_map {A B : Type} (P : A -> A -> Prop) (R : B -> B -> Prop)
      (f : A -> B) (l : list A) :
  (forall a b, P a b -> R (f a) (f b)) ->
  StronglySorted P l -> StronglySorted R (map f l).
Proof.
  intros HPR. induction 1 as [|x l Hs IH Hall]; simpl; constructor; [assumption|].
  apply Forall_map. eapply Forall_impl; [|exact Hall]. intros b. apply HPR.
Qed.

End Claims.



(** The self-test input: capacity 4 splits the three stops into the routes
    [1] and [2; 3]. *)
Lemma partition_property_witness :
  NoDup (map Stop.id picks) /\
  exists results,
    clarkeWright equatorArc origin 1 picks 4 = Ret results /\
    map (fun rr => map Stop.id (RouteResult.route rr)) results
    = [["1"]; ["2"; "3"]]%string /\
    Permutation (map Stop.id (concat (map RouteResult.route results)))
                (map Stop.id picks) /\
    NoDup (map Stop.id (concat (map RouteResult.route results))).
Proof.
  assert (Hnd : NoDup (map Stop.id picks)).
  { repeat constructor; simpl; intuition discriminate. }
  split; [exact Hnd|].
  eexists. split; [vm_compute; reflexivity|]. split; [reflexivity|].
  apply (proj2 (partition_property equatorArc origin picks 4 Hnd) 1%nat).
  vm_compute; reflexivity.
Defined.

(** A stop of demand 7 with capacity 4: it stays alone, over capacity, and
    the other two stops are merged into a route of load 4. *)
Lemma capacity_bound_witness :
  exists results,
    clarkeWright equatorArc origin 1 heavyPicks 4 = Ret results /\
    map RouteResult.load results = [7; 2 + 2] /\
    Forall (fun rr =>
              ((2 <= length (RouteResult.route rr))%nat -> RouteResult.load rr <= 4) /\
              (4 < RouteResult.load rr ->
               exists c, In c heavyPicks /\ RouteResult.route rr = [c] /\
                         RouteResult.load rr = Stop.demand c /\ 4 < Stop.demand c))
           results /\
    In (Route.mk [onEquator "1" (1 # 10) 7] 7) (mergePhase equatorArc origin heavyPicks 4).
Proof.
  eexists. split; [vm_compute; reflexivity|]. split; [reflexivity|].
  split.
  - apply (proj1 (proj2 (capacity_bound equatorArc origin heavyPicks 4)) 1%nat).
    vm_compute; reflexivity.
  - apply (proj2 (proj2 (capacity_bound equatorArc origin heavyPicks 4))).
    + repeat constructor; discriminate.
    + now left.
    + reflexivity.
Defined.

(** The self-test stops (demand 2 each, capacity 4): the loads of the
    output and the loads of the merge loop run in exact arithmetic. *)
Lemma load_conservation_witness :
  Forall (fun c => whole (Stop.demand c)) picks /\
  totalDemand picks <= maxExact /\
  (exists results,
     clarkeWright equatorArc origin 1 picks 4 = Ret results /\
     Forall (fun rr => RouteResult.load rr == totalDemand (RouteResult.route rr)) results /\
     sumQ (map RouteResult.load results) == totalDemand picks) /\
  Forall (fun rn => valIs Some (snd rn) (totalDemand (fst rn)))
         (mergeLoopIn Qplus exceedsQ 4 (sortedSavings equatorArc origin picks)
                      (initRoutesIn Stop.demand picks)).
Proof.
  assert (H1 : Forall (fun c => whole (Stop.demand c)) picks)
    by (repeat (apply Forall_cons; [exists 2%Z; split; [lia | reflexivity]|]);
        apply Forall_nil).
  assert (H2 : totalDemand picks <= maxExact) by (vm_compute; discriminate).
  destruct (load_conservation equatorArc origin picks 4 H1 H2) as [[_ Hout] Hm].
  split; [exact H1|]. split; [exact H2|]. split.
  - eexists. split; [vm_compute; reflexivity|]. apply (Hout 1%nat). vm_compute; reflexivity.
  - refine (proj1 (proj2 (Hm (sortedSavings equatorArc origin picks)
                               Q Qplus exceedsQ Stop.demand Some 4 _ _ _ _))).
    + intros x y p q Ex Ey _ _ _. inversion Ex. inversion Ey.
      exists (p + q). split; reflexivity.
    + intros x y p q Ex Ey. inversion Ex. inversion Ey. unfold exceedsQ.
      destruct (Qlt_le_dec q p); split; intros; try assumption;
        try reflexivity; try discriminate. lra.
    + intros c _. exists (Stop.demand c). split; reflexivity.
    + exists 4. split; reflexivity.
Defined.

(** The same stops in double precision: the loads have the exact values 2
    and 4, the sums of the demands. *)
Example mergeLoopDouble_picks :
  map (fun rn => (map Stop.id (fst rn), option_map Qred (valueOf (snd rn)),
                  PrimFloat.eqb (snd rn) (reduceDemandDouble (fst rn))))
      (mergeLoopDouble 4 (sortedSavings equatorArc origin picks) picks)
  = [(["1"], Some 2, true); (["2"; "3"], Some 4, true)]%string.
Proof. vm_compute. reflexivity. Qed.

(** Demands 0.1, 0.2 and 0.3 with capacity 1. The solver returns the one
    route 1, 2, 3. In double precision its load is [0.1 + (0.2 + 0.3)],
    the double nearest to 0.6, since the stops 2 and 3 are merged first;
    the demands of its stops, and of the input, added from the left give
    the next double above; and the exact value of the load is below the
    exact sum of the three demands, so the load is their sum in no order
    of adding. *)
Lemma load_conservation_counterexample :
  (exists load total,
     map (fun rn => valueOf (snd rn))
         (mergeLoopDouble 1 (sortedSavings equatorArc origin tenths) tenths)
     = [Some load] /\
     sumValues (map (fun c => toDouble (Stop.demand c)) tenths) = Some total /\
     load < total) /\
  (exists results,
     clarkeWright equatorArc origin 1 tenths 1 = Ret results /\
     map (fun rr => map Stop.id (RouteResult.route rr)) results
     = [["1"; "2"; "3"]]%string) /\
  map (fun rn => (map Stop.id (fst rn), PrimFloat.eqb (snd rn) (toDouble (6 # 10))))
      (mergeLoopDouble 1 (sortedSavings equatorArc origin tenths) tenths)
  = [(["1"; "2"; "3"], true)]%string /\
  PrimFloat.eqb (reduceDemandDouble tenths) (PrimFloat.next_up (toDouble (6 # 10))) = true /\
  Forall (fun rn => PrimFloat.eqb (snd rn) (reduceDemandDouble (fst rn)) = false)
         (mergeLoopDouble 1 (sortedSavings equatorArc origin tenths) tenths) /\
  PrimFloat.eqb
    (fold_left PrimFloat.add
       (map snd (mergeLoopDouble 1 (sortedSavings equatorArc origin tenths) tenths))
       (toDouble 0))
    (reduceDemandDouble tenths) = false.
Proof.
  split; [do 2 eexists; split; [vm_compute; reflexivity|];
          split; [vm_compute; reflexivity | vm_compute; reflexivity]|].
  split; [eexists; split; vm_compute; reflexivity|].
  split; [vm_compute; reflexivity|].
  split; [vm_compute; reflexivity|].
  split; [|vm_compute; reflexivity].
  assert (E : mergeLoopDouble 1 (sortedSavings equatorArc origin tenths) tenths
              = [(tenths, toDouble (6 # 10))]) by (vm_compute; reflexivity).
  rewrite E. constructor; [vm_compute; reflexivity | constructor].
Qed.

(** ** The merge loop reads pairs, not saving values *)

Lemma mergeStep_pair (capacity : Q) (routes : list Route.t) (sv sv' : Saving.t) :
  Saving.pair sv = Saving.pair sv' ->
  mergeStep capacity routes sv = mergeStep capacity routes sv'.
Proof.
  unfold Saving.pair. intros H. inversion H as [[Hi Hj]].
  unfold mergeStep. now rewrite Hi, Hj.
Qed.

Lemma mergeLoop_pairs (capacity : Q) (l1 l2 : list Saving.t) (routes : list Route.t) :
  map Saving.pair l1 = map Saving.pair l2 ->
  mergeLoop capacity l1 routes = mergeLoop capacity l2 routes.
Proof.
  revert l2 routes. induction l1 as [|sv l1 IH]; intros [|sv' l2] routes H;
    try discriminate; [reflexivity|].
  simpl in *. inversion H as [[Hi Hj Hrest]].
  rewrite (mergeStep_pair capacity routes sv sv');
    [now apply IH | unfold Saving.pair; congruence].
Qed.

(** C10 (no guard on the saving value). Two savings sequences that list the
    same pairs in the same order leave the same routes, whatever the values
    [s]; and an entry with a negative saving whose stops are found at ends of
    two distinct routes with a combined load within capacity is merged: the
    route of [i] is overwritten with the oriented concatenation and the
    route of [j] is removed. *)
Theorem merge_ignores_saving_value
        (capacity : Q) (routes : list Route.t) (l1 l2 : list Saving.t)
        (sv : Saving.t) (fi fj : nat) (ai aj : bool) (ri rj : Route.t) :
  map Saving.pair l1 = map Saving.pair l2 ->
  Saving.s sv < 0 ->
  findRouteAndPos routes (Saving.i sv) = Some (fi, Some ai) ->
  findRouteAndPos routes (Saving.j sv) = Some (fj, Some aj) ->
  fi <> fj ->
  nth_error routes fi = Some ri ->
  nth_error routes fj = Some rj ->
  Route.load ri + Route.load rj <= capacity ->
  mergeLoop capacity l1 routes = mergeLoop capacity l2 routes /\
  mergeStep capacity routes sv =
    splice1 (setNth routes fi
               (Route.mk (mergedCustomers ai aj ri rj) (Route.load ri + Route.load rj)))
            fj /\
  S (length (mergeStep capacity routes sv)) = length routes.
Proof.
  intros Hpairs _ Hi Hj Hne Hri Hrj Hload.
  split; [now apply mergeLoop_pairs|].
  destruct (mergeStep_merges capacity _ _ _ _ _ _ Hi Hj Hne)
    as (ri' & rj' & Hri' & Hrj' & _ & _ & Hyes & _).
  assert (ri' = ri) by congruence. assert (rj' = rj) by congruence. subst ri' rj'.
  rewrite (Hyes Hload). split; [reflexivity|].
  assert (Hj' : nth_error (setNth routes fi
            (Route.mk (mergedCustomers ai aj ri rj) (Route.load ri + Route.load rj))) fj
          = Some rj) by now rewrite nth_error_setNth_neq.
  now rewrite (splice1_length _ _ _ Hj'), (setNth_length _ _ _ _ Hri).
Qed.

(** Two singleton routes and an entry with saving [-1]: the entry is merged. *)
Lemma merge_ignores_saving_value_witness :
  mergeLoop 10 [Saving.mk stopOne stopTwo 5] (initRoutes [stopOne; stopTwo])
  = mergeLoop 10 [Saving.mk stopOne stopTwo (-3)] (initRoutes [stopOne; stopTwo]) /\
  mergeStep 10 (initRoutes [stopOne; stopTwo]) (Saving.mk stopOne stopTwo (-1))
  = [Route.mk [stopOne; stopTwo] (1 + 1)] /\
  S (length (mergeStep 10 (initRoutes [stopOne; stopTwo])
                       (Saving.mk stopOne stopTwo (-1)))) = 2%nat.
Proof.
  apply (merge_ignores_saving_value 10 (initRoutes [stopOne; stopTwo])
           [Saving.mk stopOne stopTwo 5] [Saving.mk stopOne stopTwo (-3)]
           (Saving.mk stopOne stopTwo (-1))
           0 1 true true (Route.mk [stopOne] 1) (Route.mk [stopTwo] 1)).
  - reflexivity.
  - reflexivity.
  - reflexivity.
  - reflexivity.
  - discriminate.
  - reflexivity.
  - reflexivity.
  - discriminate.
Defined.

(** ** Termination and totality *)

Lemma insert_all_in {A : Type} (x : A) (l1 l2 : list A) :
  In (l1 ++ x :: l2) (insert_all x (l1 ++ l2)).
Proof.
  induction l1 as [|y l1 IH]; simpl.
  - destruct l2; simpl; now left.
  - right. apply in_map_iff. now exists (l1 ++ x :: l2).
Qed.

Lemma perms_complete {A : Type} (l l' : list A) :
  Permutation l l' -> In l' (perms l).
Proof.
  revert l'. induction l as [|x xs IH]; intros l' H.
  - apply Permutation_nil in H. subst. now left.
  - assert (Hin : In x l') by (apply (Permutation_in x H); now left).
    destruct (in_split x l' Hin) as (l1 & l2 & ->).
    apply Permutation_cons_app_inv in H.
    simpl. apply in_flat_map. exists (l1 ++ l2). split; [now apply IH|].
    apply insert_all_in.
Qed.

(** The merge phase makes at most [n - 1] merges: it starts from [n] routes,
    loses one per merge and keeps at least one. *)
Lemma mergePhase_count (haversineKm : LatLng -> LatLng -> Q) (depot : Depot.t)
      (customers : list Stop.t) (capacity : Q) :
  customers <> [] ->
  (1 <= length (mergePhase haversineKm depot customers capacity) <= length customers)%nat.
Proof.
  intros Hne. unfold mergePhase.
  assert (Hlen : length (initRoutes customers) = length customers)
    by apply length_map.
  rewrite <- Hlen. apply mergeLoop_count.
  rewrite Hlen. destruct customers; [congruence | simpl; lia].
Qed.

(** Whatever the distances, hence whatever the order of the six savings,
    the four stops end up in one route. *)
Lemma fourStops_one_route (haversineKm : LatLng -> LatLng -> Q) :
  forallb short (mergePhase haversineKm origin fourStops 10) = false.
Proof.
  unfold mergePhase.
  set (sorted := sortedSavings haversineKm origin fourStops).
  rewrite (mergeLoop_pairs 10 sorted (map ofPair (map Saving.pair sorted)))
    by (rewrite map_map, <- (map_id (map Saving.pair sorted)) at 1;
        rewrite !map_map; apply map_ext; now intros [a b v]).
  assert (Hin : In (map Saving.pair sorted) (perms (pairs fourStops))).
  { apply perms_complete. symmetry.
    rewrite <- (generateSavings_pairs haversineKm origin fourStops).
    apply Permutation_map, Array_sort_perm. }
  assert (Hall : forallb
            (fun ps => negb (forallb short
                               (mergeLoop 10 (map ofPair ps) (initRoutes fourStops))))
            (perms (pairs fourStops)) = true) by (vm_compute; reflexivity).
  rewrite forallb_forall in Hall. specialize (Hall _ Hin).
  now apply negb_true_iff in Hall.
Qed.

(** C3 (termination and totality), evaluated on the code: the merge phase is
    a bounded loop, but for four stops of demand 1 and capacity 10 the first
    2-opt pass throws [TypeError] at [k = length - 1], for every distance
    function and every iteration budget; the solver returns no result. *)
Theorem solver_throws_on_four_stop_route
        (haversineKm : LatLng -> LatLng -> Q) (fuel : nat) :
  clarkeWright haversineKm origin (S fuel) fourStops 10 = TypeError.
Proof.
  rewrite clarkeWright_outcome. cbv zeta.
  now rewrite fourStops_one_route.
Qed.

(** ** The 2-opt comparison on a concrete route *)

(** C2 ([before] and [after]), evaluated on the code: on the route of the
    four stops and the pair [(i, k) = (0, 1)], [before] is the sum of four
    edges, depot-1, 1-2, 2-3 and 3-4, not of the two removed edges depot-1
    and 2-3 (10 against 2 degrees of arc); [after] is the two-edge sum on the
    candidate; and for [k = 3], the last index, computing [before] throws. *)
Theorem before_adds_four_edges (haversineKm : LatLng -> LatLng -> Q) :
  let D := Depot.pt origin in
  let p1 := mkLatLng 0 1 in
  let p2 := mkLatLng 0 2 in
  let p3 := mkLatLng 0 3 in
  let p4 := mkLatLng 0 10 in
  beforeOf haversineKm origin fourStops 0 1
  = Ret ((haversineKm D p1 + haversineKm p1 p2) + (haversineKm p2 p3 + haversineKm p3 p4)) /\
  afterOf haversineKm origin (candidateOf fourStops 0 1) 0 1
  = Ret (haversineKm D p2 + haversineKm p1 p3) /\
  beforeOf equatorArc origin fourStops 0 1 = Ret 10 /\
  equatorArc D p1 + equatorArc p2 p3 = 2 /\
  (forall i, beforeOf haversineKm origin fourStops i 3 = TypeError).
Proof.
  intros D p1 p2 p3 p4.
  split; [reflexivity|]. split; [reflexivity|]. split; [reflexivity|].
  split; [reflexivity|].
  intros i. now apply beforeOf_last_throws.
Qed.

(** C1 (2-opt monotonicity), evaluated on the code: on the route of the four
    stops the first comparison, [(i, k) = (0, 1)], accepts a swap that
    lengthens the round trip from 20 to 22 degrees of arc, and the pass then
    throws, so that the optimizer returns nothing for this route. *)
Theorem twoOpt_accepts_lengthening_swap :
  let swapped := candidateOf fourStops 0 1 in
  map Stop.id swapped = ["2"; "1"; "3"; "4"]%string /\
  twoOptBody equatorArc origin 0 (fourStops, false) 1 = Ret (swapped, true) /\
  roundTrip equatorArc origin fourStops = 20 /\
  roundTrip equatorArc origin swapped = 22 /\
  (forall fuel, twoOpt equatorArc origin (S fuel) fourStops = TypeError).
Proof.
  intros swapped.
  split; [reflexivity|]. split; [reflexivity|]. split; [reflexivity|].
  split; [reflexivity|].
  intros fuel. now rewrite twoOpt_outcome.
Qed.

(** ** The distance function *)

Section Haversine.
Local Open Scope R_scope.

Lemma toRad_swap (x y : R) : Geo.toRad (x - y) / 2 = - (Geo.toRad (y - x) / 2).
Proof. unfold Geo.toRad. field. Qed.

Lemma haversineH_sym (a b : LatLng) : Geo.haversineH a b = Geo.haversineH b a.
Proof.
  unfold Geo.haversineH. cbv zeta.
  rewrite (toRad_swap (Q2R (lat b)) (Q2R (lat a))).
  rewrite (toRad_swap (Q2R (lng b)) (Q2R (lng a))).
  rewrite !sin_neg. ring.
Qed.

Lemma haversineH_same (a : LatLng) : Geo.haversineH a a = 0.
Proof.
  unfold Geo.haversineH. cbv zeta.
  replace (Geo.toRad (Q2R (lat a) - Q2R (lat a)) / 2) with 0
    by (unfold Geo.toRad; field).
  replace (Geo.toRad (Q2R (lng a) - Q2R (lng a)) / 2) with 0
    by (unfold Geo.toRad; field).
  rewrite sin_0. ring.
Qed.


Lemma Q2R_Qabs (q : Q) : Q2R (Qabs q) = Rabs (Q2R q).
Proof.
  apply Qabs_case; intros H.
  - apply Qle_Rle in H. rewrite Rabs_right; [reflexivity|].
    replace (Q2R 0) with 0 in H by (unfold Q2R; simpl; lra). lra.
  - apply Qle_Rle in H. rewrite Q2R_opp, Rabs_left1; [reflexivity|].
    replace (Q2R 0) with 0 in H by (unfold Q2R; simpl; lra). lra.
Qed.

Lemma asin_abs_sin (x : R) : - (PI / 2) <= x <= PI / 2 -> asin (Rabs (sin x)) = Rabs x.
Proof.
  intros [Hlo Hhi]. pose proof PI_RGT_0 as Hpi.
  destruct (Rle_dec 0 x) as [Hx|Hx].
  - rewrite (Rabs_right x) by lra.
    rewrite Rabs_right by (apply Rle_ge, sin_ge_0; lra).
    apply asin_sin; lra.
  - rewrite (Rabs_left1 x) by lra.
    assert (Hs : 0 <= sin (- x)) by (apply sin_ge_0; lra).
    rewrite sin_neg in Hs.
    rewrite Rabs_left1 by lra. rewrite <- sin_neg.
    apply asin_sin; lra.
Qed.

(** On the equator, and for longitudes at most 180 degrees apart, the
    haversine distance is the arc [equatorArc] times the length of one
    degree. *)
Lemma haversineKm_equator (a b : LatLng) :
  (lat a == 0)%Q -> (lat b == 0)%Q -> (equatorArc a b <= 180)%Q ->
  Geo.haversineKm a b = 6371 * PI / 180 * Q2R (equatorArc a b).
Proof.
  intros Ha Hb Harc. pose proof PI_RGT_0 as Hpi.
  apply Qeq_eqR in Ha, Hb. apply Qle_Rle in Harc.
  unfold equatorArc in *. rewrite Q2R_Qabs, Q2R_minus in *.
  assert (H0 : Q2R 0 = 0) by (unfold Q2R; simpl; lra).
  assert (H180 : Q2R 180 = 180) by (unfold Q2R; simpl; lra).
  rewrite H0 in Ha, Hb. rewrite H180 in Harc.
  set (d := Q2R (lng b) - Q2R (lng a)) in *.
  unfold Geo.haversineKm, Geo.asinArg, Geo.clampedRoot, Geo.haversineH. cbv zeta.
  rewrite Ha, Hb. fold d.
  replace (Geo.toRad (0 - 0) / 2) with 0 by (unfold Geo.toRad; field).
  replace (Geo.toRad 0) with 0 by (unfold Geo.toRad; field).
  rewrite sin_0, cos_0.
  set (x := Geo.toRad d / 2).
  replace (0 * 0 + 1 * 1 * sin x * sin x) with (Rsqr (sin x)) by (unfold Rsqr; ring).
  rewrite sqrt_Rsqr_abs.
  assert (Hx : Rabs x = Rabs d * (PI / 360)).
  { unfold x, Geo.toRad. replace (d * PI / 180 / 2) with (d * (PI / 360)) by field.
    rewrite Rabs_mult. f_equal. apply Rabs_right. lra. }
  assert (Hxb : - (PI / 2) <= x <= PI / 2).
  { assert (Rabs x <= PI / 2).
    { rewrite Hx. pose proof (Rabs_pos d).
      replace (PI / 2) with (180 * (PI / 360)) by field.
      apply Rmult_le_compat_r; lra. }
    unfold Rabs in H. destruct (Rcase_abs x); lra. }
  rewrite Rmin_right.
  - rewrite (asin_abs_sin x Hxb), Hx. field.
  - pose proof (SIN_bound x) as [? ?]. unfold Rabs. destruct (Rcase_abs (sin x)); lra.
Qed.
End Haversine.

(** ** CSV export and import *)

(** Every exported cell starts with a double-quote character, which
    [parseFloat] cannot read as the start of a number. *)
Lemma parseFloat_esc (v : string) : CSV.parseFloat (Some (CSV.esc v)) = None.
Proof. reflexivity. Qed.

(** C7 (CSV round trip), evaluated on the code: the export of the demo stop A
    is the header and one row of quoted cells; the import splits the row at
    the commas without removing the quotes, reads [NaN] for the latitude and
    drops the row, so the import of the export is the empty list. *)
Theorem csv_round_trip_loses_stops :
  CSV.exportCSV [demoA]
  = ("ID,Name,Lat,Lng,Demand" ++ CSV.str CSV.LF
     ++ CSV.join "," (map CSV.esc ["A"; "Raw Spot A"; "18.807"; "98.97"; "2"]))%string /\
  CSV.importCSV (CSV.exportCSV [demoA]) = Ret [] /\
  CSV.importCSV (CSV.exportCSV [demoA]) <> Ret (map CSV.ofStop [demoA]).
Proof.
  split; [reflexivity|]. split; [reflexivity|]. discriminate.
Qed.

(** ** The scenarios of the self-tests *)

(** Empty input: no routes. *)
Example scenario_empty (haversineKm : LatLng -> LatLng -> Q) (depot : Depot.t)
        (fuel : nat) (capacity : Q) :
  clarkeWright haversineKm depot fuel [] capacity = Ret [].
Proof. reflexivity. Qed.

(** A single stop: one route, out and back. *)
Example scenario_single (haversineKm : LatLng -> LatLng -> Q) (fuel : nat) :
  let c := onEquator "1" (1 # 10) 2 in
  clarkeWright haversineKm origin fuel [c] 10
  = Ret [RouteResult.mk [c]
           (0 + haversineKm (Depot.pt origin) (Stop.pt c)
              + haversineKm (Stop.pt c) (Depot.pt origin))
           2].
Proof. reflexivity. Qed.

(** Capacity 4 forces a split of the three stops of demand 2: at least two
    routes, each within capacity. *)
Example scenario_split :
  exists rts,
    clarkeWright equatorArc origin 1 picks 4 = Ret rts /\
    forallb (fun r => Qle_bool (RouteResult.load r) 4) rts = true /\
    (2 <= length rts)%nat.
Proof.
  eexists. split; [vm_compute; reflexivity|]. split; [reflexivity | simpl; lia].
Qed.

(** The header titles are honoured and two rows give three lines. *)
Example scenario_csv_header :
  let csv := CSV.exportCSV [onEquator "A" 2 3; onEquator "B" 5 6] in
  hd_error (CSV.splitLines csv) = Some "ID,Name,Lat,Lng,Demand"%string /\
  length (CSV.splitLines csv) = 3%nat.
Proof. split; reflexivity. Qed.

(** The importer reads the unquoted text of its placeholder. *)
Example scenario_import_plain :
  CSV.importCSV
    ("name,lat,lng,demand" ++ CSV.str CSV.LF ++ "Stop 1,18.79,98.99,2"
     ++ CSV.str CSV.LF ++ "Stop 2,18.80,99.02,1")%string
  = Ret [CSV.mkParsed "A" "Stop 1" (Some (1879 # 100)) (Some (9899 # 100)) (Some (2 # 1));
         CSV.mkParsed "B" "Stop 2" (Some (1880 # 100)) (Some (9902 # 100)) (Some (1 # 1))].
Proof. reflexivity. Qed.

(** * Further properties of the kernel *)

(** ** Locating a stop *)

Lemma existsb_id_false (stop : Stop.t) (r : list Stop.t) :
  existsb (fun s => String.eqb (Stop.id s) (Stop.id stop)) r = false -> absent stop r.
Proof.
  intros H. apply Forall_forall. intros s Hs Heq.
  assert (Ht : existsb (fun s => String.eqb (Stop.id s) (Stop.id stop)) r = true).
  { apply existsb_exists. exists s. split; [assumption|]. now apply String.eqb_eq. }
  congruence.
Qed.

Lemma findRouteAndPos_from_spec (k : nat) (routes : list Route.t) (stop : Stop.t) :
  match findRouteAndPos_from k routes stop with
  | None => absent stop (allStops routes)
  | Some (idx, pos) =>
      exists r first rest,
        (k <= idx)%nat /\
        nth_error routes (idx - k) = Some r /\
        Route.customers r = first :: rest /\
        absent stop (allStops (firstn (idx - k) routes)) /\
        match pos with
        | Some true => Stop.id first = Stop.id stop
        | Some false =>
            Stop.id first <> Stop.id stop /\
            Stop.id (last (Route.customers r) first) = Stop.id stop
        | None =>
            Stop.id first <> Stop.id stop /\
            Stop.id (last (Route.customers r) first) <> Stop.id stop /\
            Exists (fun s => Stop.id s = Stop.id stop) (Route.customers r)
        end
  end.
Proof.
  revert k. induction routes as [|rt routes IH]; intros k; simpl.
  - constructor.
  - assert (Hskip : absent stop (Route.customers rt) ->
      match findRouteAndPos_from (S k) routes stop with
      | None => absent stop (allStops (rt :: routes))
      | Some (idx, pos) =>
          exists r first rest,
            (k <= idx)%nat /\
            nth_error (rt :: routes) (idx - k) = Some r /\
            Route.customers r = first :: rest /\
            absent stop (allStops (firstn (idx - k) (rt :: routes))) /\
            match pos with
            | Some true => Stop.id first = Stop.id stop
            | Some false =>
                Stop.id first <> Stop.id stop /\
                Stop.id (last (Route.customers r) first) = Stop.id stop
            | None =>
                Stop.id first <> Stop.id stop /\
                Stop.id (last (Route.customers r) first) <> Stop.id stop /\
                Exists (fun s => Stop.id s = Stop.id stop) (Route.customers r)
            end
      end).
    { intros Habs. specialize (IH (S k)).
      destruct (findRouteAndPos_from (S k) routes stop) as [[idx pos]|].
      - destruct IH as (r & first & rest & Hle & Hnth & Hc & Hbefore & Hpos).
        exists r, first, rest. split; [lia|].
        replace (idx - k)%nat with (S (idx - S k)) by lia. simpl.
        repeat split; try assumption.
        unfold absent, allStops in *. simpl. apply Forall_app. now split.
      - unfold absent, allStops in *. simpl. apply Forall_app. now split. }
    destruct (Route.customers rt) as [|r0 tl] eqn:Hc; [apply Hskip; constructor|].
    destruct (String.eqb_spec (Stop.id r0) (Stop.id stop)) as [H0|H0].
    { exists rt, r0, tl. rewrite Nat.sub_diag. simpl.
      repeat split; try assumption; [lia | constructor]. }
    destruct (String.eqb_spec (Stop.id (last (r0 :: tl) r0)) (Stop.id stop)) as [H1|H1].
    { exists rt, r0, tl. rewrite Nat.sub_diag. simpl.
      repeat split; try assumption; [lia | constructor | now rewrite Hc]. }
    destruct (existsb (fun s => String.eqb (Stop.id s) (Stop.id stop)) (r0 :: tl)) eqn:He.
    { exists rt, r0, tl. rewrite Nat.sub_diag. simpl.
      repeat split; try assumption; [lia | constructor | now rewrite Hc |].
      rewrite Hc. apply Exists_exists. apply existsb_exists in He.
      destruct He as (s & Hs & Heq). exists s. split; [assumption|].
      now apply String.eqb_eq. }
    apply Hskip. now apply existsb_id_false.
Qed.

(** X1. [findRouteAndPos] scans the routes in order. It answers [null] exactly
    when no route holds a stop with the id asked for; otherwise it names the
    first route holding one, and reports [atStart = true] when that route's
    first stop has the id, [false] when only its last stop has it, and
    [null] when the id occurs in the route but at neither end. *)
Theorem findRouteAndPos_spec (routes : list Route.t) (stop : Stop.t) :
  match findRouteAndPos routes stop with
  | None => absent stop (allStops routes)
  | Some (idx, pos) =>
      exists r first rest,
        nth_error routes idx = Some r /\
        Route.customers r = first :: rest /\
        absent stop (allStops (firstn idx routes)) /\
        match pos with
        | Some true => Stop.id first = Stop.id stop
        | Some false =>
            Stop.id first <> Stop.id stop /\
            Stop.id (last (Route.customers r) first) = Stop.id stop
        | None =>
            Stop.id first <> Stop.id stop /\
            Stop.id (last (Route.customers r) first) <> Stop.id stop /\
            Exists (fun s => Stop.id s = Stop.id stop) (Route.customers r)
        end
  end.
Proof.
  unfold findRouteAndPos.
  pose proof (findRouteAndPos_from_spec 0 routes stop) as H.
  destruct (findRouteAndPos_from 0 routes stop) as [[idx pos]|]; [|exact H].
  destruct H as (r & first & rest & _ & Hnth & Hc & Hbefore & Hpos).
  rewrite Nat.sub_0_r in *. now exists r, first, rest.
Qed.

(** ** What a merge writes *)

Lemma last_cons_app {A : Type} (l : list A) (d : A) :
  l <> [] -> l = removelast l ++ [last l d].
Proof. intros H. now apply app_removelast_last. Qed.

Lemma merged_in_step (capacity : Q) (routes : list Route.t) (sv : Saving.t)
      (fi fj : nat) (ai aj : bool) (ri rj : Route.t) :
  findRouteAndPos routes (Saving.i sv) = Some (fi, Some ai) ->
  findRouteAndPos routes (Saving.j sv) = Some (fj, Some aj) ->
  fi <> fj ->
  nth_error routes fi = Some ri ->
  nth_error routes fj = Some rj ->
  Route.load ri + Route.load rj <= capacity ->
  In (Route.mk (mergedCustomers ai aj ri rj) (Route.load ri + Route.load rj))
     (mergeStep capacity routes sv).
Proof.
  intros Hi Hj Hne Hri Hrj Hload.
  destruct (mergeStep_merges capacity _ _ _ _ _ _ Hi Hj Hne)
    as (ri' & rj' & Hri' & Hrj' & Hni & Hnj & Hyes & _).
  assert (ri' = ri) by congruence. assert (rj' = rj) by congruence. subst ri' rj'.
  rewrite (Hyes Hload).
  set (X := Route.mk (mergedCustomers ai aj ri rj) (Route.load ri + Route.load rj)).
  pose proof (merge_splice_perm routes fi fj ri rj X Hne Hri Hrj) as Hperm.
  assert (Hin : In X (X :: routes)) by now left.
  symmetry in Hperm. apply (Permutation_in X Hperm) in Hin.
  assert (Hlen : length (Route.customers X)
                 = (length (Route.customers ri) + length (Route.customers rj))%nat).
  { unfold X. simpl.
    rewrite (Permutation_length (mergedCustomers_perm ai aj ri rj)).
    apply length_app. }
  destruct Hin as [Heq|[Heq|Hin]]; [| |assumption]; exfalso.
  - rewrite <- Heq in Hlen. destruct (Route.customers rj); [congruence | simpl in Hlen; lia].
  - rewrite <- Heq in Hlen. destruct (Route.customers ri); [congruence | simpl in Hlen; lia].
Qed.

Lemma nth_error_splice1 {A : Type} (l : list A) (j p : nat) :
  nth_error (splice1 l j) p
  = if Nat.ltb p j then nth_error l p else nth_error l (S p).
Proof.
  unfold splice1. destruct (Nat.ltb_spec p j) as [Hlt|Hge].
  - destruct (Nat.le_gt_cases (length l) p) as [Hlen|Hlen].
    + rewrite (proj2 (nth_error_None l p) Hlen). apply nth_error_None.
      rewrite length_app, length_firstn, length_skipn. lia.
    + rewrite nth_error_app1 by (rewrite length_firstn; lia).
      rewrite nth_error_firstn.
      destruct (Nat.ltb_spec p j); [reflexivity | lia].
  - destruct (Nat.le_gt_cases (length l) j) as [Hlen|Hlen].
    + rewrite firstn_all2, skipn_all2, app_nil_r by lia.
      rewrite (proj2 (nth_error_None l p)) by lia.
      symmetry. apply nth_error_None. lia.
    + rewrite nth_error_app2 by (rewrite length_firstn; lia).
      rewrite length_firstn, Nat.min_l by lia.
      rewrite nth_error_skipn. f_equal. lia.
Qed.

(** X2. When an entry is merged, the route of [i] is overwritten in place
    and the route of [j] is removed: the step returns the routes with the
    merged route written at the index of the route of [i] and the entry at
    the index of the route of [j] spliced out, so the merged route ends up
    at that index, or one before it when the route of [j] stood earlier.
    The merged route is [left.concat(right)], where [left] is the route of
    [i], reversed when [i] was its first stop, and ends with the stop found
    for [i]; [right] is the route of [j], reversed when [j] was its last
    stop, and begins with the stop found for [j]. *)
Theorem merge_joins_i_to_j (capacity : Q) (routes : list Route.t) (sv : Saving.t)
        (fi fj : nat) (ai aj : bool) (ri rj : Route.t) :
  findRouteAndPos routes (Saving.i sv) = Some (fi, Some ai) ->
  findRouteAndPos routes (Saving.j sv) = Some (fj, Some aj) ->
  fi <> fj ->
  nth_error routes fi = Some ri ->
  nth_error routes fj = Some rj ->
  Route.load ri + Route.load rj <= capacity ->
  exists l x y r,
    (if ai then rev (Route.customers ri) else Route.customers ri) = l ++ [x] /\
    (if aj then Route.customers rj else rev (Route.customers rj)) = y :: r /\
    Stop.id x = Stop.id (Saving.i sv) /\
    Stop.id y = Stop.id (Saving.j sv) /\
    mergeStep capacity routes sv
    = splice1 (setNth routes fi
                 (Route.mk (l ++ x :: y :: r) (Route.load ri + Route.load rj))) fj /\
    nth_error (mergeStep capacity routes sv) (if Nat.ltb fj fi then fi - 1 else fi)
    = Some (Route.mk (l ++ x :: y :: r) (Route.load ri + Route.load rj)) /\
    S (length (mergeStep capacity routes sv)) = length routes.
Proof.
  intros Hi Hj Hne Hri Hrj Hload.
  destruct (mergeStep_merges capacity _ _ _ _ _ _ Hi Hj Hne)
    as (ri0 & rj0 & Hri0 & Hrj0 & _ & _ & Hyes & _).
  assert (ri0 = ri) by congruence. assert (rj0 = rj) by congruence. subst ri0 rj0.
  specialize (Hyes Hload).
  pose proof (findRouteAndPos_from_spec 0 routes (Saving.i sv)) as Si.
  pose proof (findRouteAndPos_from_spec 0 routes (Saving.j sv)) as Sj.
  unfold findRouteAndPos in Hi, Hj. rewrite Hi in Si. rewrite Hj in Sj.
  destruct Si as (ri' & fst_i & rest_i & _ & Hri' & Hci & _ & Hpi).
  destruct Sj as (rj' & fst_j & rest_j & _ & Hrj' & Hcj & _ & Hpj).
  rewrite Nat.sub_0_r in *.
  assert (ri' = ri) by congruence. assert (rj' = rj) by congruence. subst ri' rj'.
  assert (Hleft : exists l x,
            (if ai then rev (Route.customers ri) else Route.customers ri) = l ++ [x] /\
            Stop.id x = Stop.id (Saving.i sv)).
  { destruct ai.
    - exists (rev rest_i), fst_i. rewrite Hci. simpl. split; [reflexivity | assumption].
    - destruct Hpi as [_ Hlast].
      exists (removelast (Route.customers ri)), (last (Route.customers ri) fst_i).
      rewrite <- last_cons_app by (rewrite Hci; discriminate).
      split; [reflexivity | assumption]. }
  assert (Hright : exists y r,
            (if aj then Route.customers rj else rev (Route.customers rj)) = y :: r /\
            Stop.id y = Stop.id (Saving.j sv)).
  { destruct aj.
    - exists fst_j, rest_j. rewrite Hcj. split; [reflexivity | assumption].
    - destruct Hpj as [_ Hlast].
      exists (last (Route.customers rj) fst_j), (rev (removelast (Route.customers rj))).
      rewrite (last_cons_app (Route.customers rj) fst_j) at 1
        by (rewrite Hcj; discriminate).
      rewrite rev_app_distr. simpl. split; [reflexivity | assumption]. }
  destruct Hleft as (l & x & Hl & Hx), Hright as (y & r & Hr & Hy).
  exists l, x, y, r.
  assert (Hstep : mergeStep capacity routes sv
                  = splice1 (setNth routes fi
                               (Route.mk (l ++ x :: y :: r)
                                         (Route.load ri + Route.load rj))) fj).
  { rewrite Hyes. unfold mergedCustomers. rewrite Hl, Hr, <- app_assoc. reflexivity. }
  set (X := Route.mk (l ++ x :: y :: r) (Route.load ri + Route.load rj)) in *.
  assert (Hj' : nth_error (setNth routes fi X) fj = Some rj)
    by now rewrite nth_error_setNth_neq.
  split; [exact Hl|]. split; [exact Hr|]. split; [exact Hx|]. split; [exact Hy|].
  split; [exact Hstep|]. split.
  - rewrite Hstep, nth_error_splice1.
    destruct (Nat.ltb_spec fj fi) as [Hlt|Hge].
    + destruct (Nat.ltb_spec (fi - 1) fj) as [H|H]; [lia|].
      replace (S (fi - 1)) with fi by lia.
      now apply nth_error_setNth_eq with (a := ri).
    + destruct (Nat.ltb_spec fi fj) as [H|H]; [|lia].
      now apply nth_error_setNth_eq with (a := ri).
  - rewrite Hstep, (splice1_length _ _ _ Hj').
    now apply setNth_length with (a := ri).
Qed.

(** Two singleton routes, the entry (1, 2): the merged route is [1; 2],
    written at index 0, and one route is left. *)
Lemma merge_joins_i_to_j_witness :
  exists l x y r,
    rev [stopOne] = l ++ [x] /\
    [stopTwo] = y :: r /\
    Stop.id x = "1"%string /\ Stop.id y = "2"%string /\
    mergeStep 10 (initRoutes [stopOne; stopTwo]) (Saving.mk stopOne stopTwo 2)
    = splice1 (setNth (initRoutes [stopOne; stopTwo]) 0
                 (Route.mk (l ++ x :: y :: r) (1 + 1))) 1 /\
    nth_error (mergeStep 10 (initRoutes [stopOne; stopTwo]) (Saving.mk stopOne stopTwo 2)) 0
    = Some (Route.mk (l ++ x :: y :: r) (1 + 1)) /\
    S (length (mergeStep 10 (initRoutes [stopOne; stopTwo]) (Saving.mk stopOne stopTwo 2)))
    = 2%nat.
Proof.
  apply (merge_joins_i_to_j 10 (initRoutes [stopOne; stopTwo])
           (Saving.mk stopOne stopTwo 2) 0 1 true true
           (Route.mk [stopOne] 1) (Route.mk [stopTwo] 1)).
  - reflexivity.
  - reflexivity.
  - discriminate.
  - reflexivity.
  - reflexivity.
  - discriminate.
Defined.

(** ** Shape of the working routes *)

Lemma mergePhase_nonempty_routes (haversineKm : LatLng -> LatLng -> Q) (depot : Depot.t)
      (customers : list Stop.t) (capacity : Q) :
  Forall (fun r => Route.customers r <> [])
         (mergePhase haversineKm depot customers capacity).
Proof.
  unfold mergePhase. apply mergeLoop_Forall.
  - intros ri rj merged Hi _ _ _ _ Hperm. simpl. intros ->.
    apply Permutation_nil in Hperm. apply app_eq_nil in Hperm. tauto.
  - unfold initRoutes. apply Forall_map, Forall_forall. intros c _. discriminate.
Qed.

(** X3. The merge phase never leaves an empty route, never has more routes
    than stops, and for a non-empty stop list keeps at least one route: with
    [n] stops at most [n - 1] entries are merged. *)
Theorem working_routes_shape (haversineKm : LatLng -> LatLng -> Q) (depot : Depot.t)
        (customers : list Stop.t) (capacity : Q) :
  customers <> [] ->
  let routes := mergePhase haversineKm depot customers capacity in
  Forall (fun r => Route.customers r <> []) routes /\
  (1 <= length routes <= length customers)%nat.
Proof.
  intros Hne routes. split.
  - apply mergePhase_nonempty_routes.
  - now apply mergePhase_count.
Qed.

Lemma working_routes_shape_witness :
  Forall (fun r => Route.customers r <> []) (mergePhase equatorArc origin picks 4) /\
  (1 <= length (mergePhase equatorArc origin picks 4) <= 3)%nat.
Proof.
  apply (working_routes_shape equatorArc origin picks 4). discriminate.
Defined.

(** ** No merge without room *)

Lemma mergeLoop_no_room (capacity : Q) (customers : list Stop.t)
      (savings : list Saving.t) :
  Forall (fun c => capacity < 2 * Stop.demand c) customers ->
  mergeLoop capacity savings (initRoutes customers) = initRoutes customers.
Proof.
  intros Hheavy. induction savings as [|sv svs IH]; [reflexivity|].
  simpl. replace (mergeStep capacity (initRoutes customers) sv) with (initRoutes customers);
    [exact IH|].
  destruct (mergeStep_cases capacity (initRoutes customers) sv)
    as [->|(fi & fj & ri & rj & merged & _ & Hi & Hj & _ & _ & Hload & _)];
    [reflexivity|exfalso].
  assert (Hr : forall r, In r (initRoutes customers) -> capacity < 2 * Route.load r).
  { intros r Hr. unfold initRoutes in Hr. apply in_map_iff in Hr.
    destruct Hr as (c & <- & Hc). simpl.
    exact (proj1 (Forall_forall _ _) Hheavy c Hc). }
  pose proof (Hr ri (nth_error_In _ _ Hi)). pose proof (Hr rj (nth_error_In _ _ Hj)).
  lra.
Qed.

Lemma toResult_short (haversineKm : LatLng -> LatLng -> Q) (depot : Depot.t)
      (fuel : nat) (r : Route.t) :
  short r = true ->
  toResult haversineKm depot fuel r = Ret (plainResult haversineKm depot r).
Proof.
  intros Hs. unfold toResult, twoOpt, short in *. now rewrite Hs.
Qed.

(** X4. When every stop's demand is more than half the capacity, no two
    routes ever fit together: the merge phase leaves one route per stop, and
    the solver returns these singleton routes ranked by distance. *)
Theorem no_merge_without_room (haversineKm : LatLng -> LatLng -> Q) (depot : Depot.t)
        (fuel : nat) (customers : list Stop.t) (capacity : Q) :
  Forall (fun c => capacity < 2 * Stop.demand c) customers ->
  mergePhase haversineKm depot customers capacity = initRoutes customers /\
  clarkeWright haversineKm depot fuel customers capacity
  = Ret (rank (map (plainResult haversineKm depot) (initRoutes customers))).
Proof.
  intros Hheavy.
  assert (Hm : mergePhase haversineKm depot customers capacity = initRoutes customers)
    by (unfold mergePhase; now apply mergeLoop_no_room).
  split; [exact Hm|].
  unfold clarkeWright. destruct customers as [|c cs]; [reflexivity|].
  change (Nat.eqb (length (c :: cs)) 0) with false. cbv iota zeta. rewrite Hm.
  rewrite (mapM_Ret_intro _ (plainResult haversineKm depot)); [reflexivity|].
  apply Forall_forall. intros r Hr. apply toResult_short.
  unfold initRoutes in Hr. apply in_map_iff in Hr. destruct Hr as (c' & <- & _).
  reflexivity.
Qed.

(** Three stops of demand 3 and capacity 4. *)
Lemma no_merge_without_room_witness :
  mergePhase equatorArc origin
    [onEquator "1" 1 3; onEquator "2" 2 3; onEquator "3" 3 3] 4
  = initRoutes [onEquator "1" 1 3; onEquator "2" 2 3; onEquator "3" 3 3] /\
  clarkeWright equatorArc origin 0
    [onEquator "1" 1 3; onEquator "2" 2 3; onEquator "3" 3 3] 4
  = Ret (rank (map (plainResult equatorArc origin)
                   (initRoutes [onEquator "1" 1 3; onEquator "2" 2 3; onEquator "3" 3 3]))).
Proof.
  apply (no_merge_without_room equatorArc origin 0
           [onEquator "1" 1 3; onEquator "2" 2 3; onEquator "3" 3 3] 4).
  repeat constructor.
Defined.

(** ** The savings list *)

Lemma pairs_spec {A : Type} (l : list A) (a b : A) :
  In (a, b) (pairs l) <->
  exists p q, (p < q)%nat /\ nth_error l p = Some a /\ nth_error l q = Some b.
Proof.
  induction l as [|x xs IH]; simpl.
  - split; [tauto|]. intros (p & q & _ & Hp & _). destruct p; discriminate.
  - rewrite in_app_iff, in_map_iff, IH. split.
    + intros [(y & Heq & Hy)|(p & q & Hlt & Hp & Hq)].
      * inversion Heq; subst. apply In_nth_error in Hy. destruct Hy as (q & Hq).
        exists 0%nat, (S q). repeat split; [lia | assumption].
      * exists (S p), (S q). repeat split; [lia | assumption | assumption].
    + intros (p & q & Hlt & Hp & Hq). destruct q as [|q]; [lia|]. simpl in Hq.
      destruct p as [|p]; simpl in Hp.
      * left. inversion Hp; subst. exists b. split; [reflexivity|].
        eapply nth_error_In; eauto.
      * right. exists p, q. repeat split; [lia | assumption | assumption].
Qed.

Lemma pairs_length {A : Type} (l : list A) :
  (2 * length (pairs l) = length l * (length l - 1))%nat.
Proof.
  induction l as [|x xs IH]; [reflexivity|].
  simpl pairs. rewrite length_app, length_map. simpl length.
  rewrite Nat.sub_succ, Nat.sub_0_r. nia.
Qed.

(** X5. The savings list has one entry for every pair of positions [p < q]
    of the stop list and no other entry: [n (n - 1) / 2] entries for [n]
    stops. *)
Theorem savings_cover_pairs (haversineKm : LatLng -> LatLng -> Q) (depot : Depot.t)
        (customers : list Stop.t) :
  (2 * length (generateSavings haversineKm depot customers)
   = length customers * (length customers - 1))%nat /\
  (forall a b,
      (exists sv, In sv (generateSavings haversineKm depot customers) /\
                  Saving.i sv = a /\ Saving.j sv = b) <->
      (exists p q, (p < q)%nat /\ nth_error customers p = Some a /\
                   nth_error customers q = Some b)).
Proof.
  split.
  - unfold generateSavings. rewrite length_map. apply pairs_length.
  - intros a b. rewrite <- pairs_spec.
    rewrite <- (generateSavings_pairs haversineKm depot customers).
    rewrite in_map_iff. unfold Saving.pair. split.
    + intros (sv & Hin & <- & <-). now exists sv.
    + intros (sv & Heq & Hin). inversion Heq. now exists sv.
Qed.

Lemma id_inj (a b c d : string) :
  noBar a = true -> noBar c = true -> id_ a b = id_ c d -> a = c /\ b = d.
Proof.
  unfold id_. revert c. induction a as [|x a IH]; intros [|y c] Ha Hc H; simpl in *.
  - inversion H. now split.
  - inversion H; subst. apply andb_prop in Hc. destruct Hc as [Hc _].
    rewrite Ascii.eqb_refl in Hc. discriminate.
  - inversion H; subst. apply andb_prop in Ha. destruct Ha as [Ha _].
    rewrite Ascii.eqb_refl in Ha. discriminate.
  - inversion H; subst. apply andb_prop in Ha, Hc.
    destruct (IH c (proj2 Ha) (proj2 Hc) H2) as [-> ->]. now split.
Qed.

Lemma NoDup_map_eq {A B : Type} (f : A -> B) (l : list A) (x y : A) :
  NoDup (map f l) -> In x l -> In y l -> f x = f y -> x = y.
Proof.
  induction l as [|z l IH]; simpl; intros Hnd Hx Hy Heq; [contradiction|].
  inversion Hnd as [|? ? Hz Hnd']; subst.
  destruct Hx as [->|Hx], Hy as [->|Hy]; try reflexivity.
  - exfalso. apply Hz. rewrite Heq. now apply in_map.
  - exfalso. apply Hz. rewrite <- Heq. now apply in_map.
  - now apply IH.
Qed.

Lemma NoDup_of_map {A B : Type} (f : A -> B) (l : list A) :
  NoDup (map f l) -> NoDup l.
Proof.
  induction l as [|z l IH]; simpl; intros Hnd; [constructor|].
  inversion Hnd; subst. constructor; [|now apply IH].
  intros Hin. now apply (in_map f) in Hin.
Qed.

Lemma pairs_not_both {A : Type} (l : list A) (a b : A) :
  NoDup l -> In (a, b) (pairs l) -> ~ In (b, a) (pairs l).
Proof.
  intros Hnd Hab Hba. apply pairs_spec in Hab, Hba.
  destruct Hab as (p & q & Hpq & Hp & Hq), Hba as (p' & q' & Hpq' & Hp' & Hq').
  assert (p' = q).
  { apply (proj1 (NoDup_nth_error l) Hnd); [apply nth_error_Some; congruence|congruence]. }
  assert (q' = p).
  { apply (proj1 (NoDup_nth_error l) Hnd); [apply nth_error_Some; congruence|congruence]. }
  lia.
Qed.

(** A key that every write sets to [v], and that is written at least once,
    reads [v] in the finished table. *)
Lemma fold_left_key {A : Type} (step : Record_ -> A -> Record_) (l : list A)
      (k : string) (v : Q) :
  (forall m x, In x l -> step m x k = m k \/ step m x k = Some v) ->
  forall m,
    (m k = Some v \/ exists x, In x l /\ forall m', step m' x k = Some v) ->
    fold_left step l m k = Some v.
Proof.
  induction l as [|x xs IH]; intros Hstep m Hm; simpl.
  - destruct Hm as [Hm|(x & [] & _)]. exact Hm.
  - apply IH; [intros m' y Hy; apply Hstep; now right|].
    destruct Hm as [Hm|(x0 & [->|Hx0] & Hw)].
    + left. destruct (Hstep m x (or_introl eq_refl)) as [H|H]; congruence.
    + left. apply Hw.
    + right. now exists x0.
Qed.

Section SavingValues.
Variable haversineKm : LatLng -> LatLng -> Q.
Variable depot : Depot.t.
Variable customers : list Stop.t.
Hypothesis ids_distinct : NoDup (map Stop.id customers).
Hypothesis ids_plain : Forall (fun c => noBar (Stop.id c) = true) customers.
Hypothesis ids_ordinary : Forall (fun c => Stop.id c <> protoKey) customers.

Lemma build_d0_read (a : Stop.t) :
  In a customers ->
  build_d0 haversineKm depot customers (Stop.id a)
  = Some (haversineKm (Depot.pt depot) (Stop.pt a)).
Proof.
  intros Ha. unfold build_d0.
  pose proof (proj1 (Forall_forall _ _) ids_ordinary) as Hord.
  apply fold_left_key.
  - intros m x Hx. rewrite setKey_ordinary by now apply Hord.
    destruct (String.eqb_spec (Stop.id a) (Stop.id x)) as [Heq|Hne]; [right|now left].
    now rewrite (NoDup_map_eq Stop.id customers a x ids_distinct Ha Hx Heq).
  - right. exists a. split; [assumption|]. intros m'. apply setKey_same.
    now apply Hord.
Qed.

Lemma build_dij_read (a b : Stop.t) :
  In (a, b) (pairs customers) ->
  build_dij haversineKm customers (id_ (Stop.id a) (Stop.id b))
  = Some (haversineKm (Stop.pt a) (Stop.pt b)).
Proof.
  intros Hab. destruct (in_pairs _ _ _ Hab) as [Ha Hb].
  pose proof (proj1 (Forall_forall _ _) ids_plain) as Hplain.
  unfold build_dij. apply fold_left_key.
  - intros m [x y] Hxy. destruct (in_pairs _ _ _ Hxy) as [Hx Hy].
    rewrite !setKey_ordinary by apply id_not_proto.
    destruct (String.eqb_spec (id_ (Stop.id a) (Stop.id b)) (id_ (Stop.id x) (Stop.id y)))
      as [Heq|Hne].
    + right. apply id_inj in Heq; [|now apply Hplain|now apply Hplain].
      destruct Heq as [Hax Hby].
      rewrite (NoDup_map_eq Stop.id customers a x ids_distinct Ha Hx Hax).
      now rewrite (NoDup_map_eq Stop.id customers b y ids_distinct Hb Hy Hby).
    + destruct (String.eqb_spec (id_ (Stop.id a) (Stop.id b)) (id_ (Stop.id y) (Stop.id x)))
        as [Heq|Hne']; [exfalso|now left].
      apply id_inj in Heq; [|now apply Hplain|now apply Hplain].
      destruct Heq as [Hay Hbx].
      pose proof (NoDup_map_eq Stop.id customers a y ids_distinct Ha Hy Hay).
      pose proof (NoDup_map_eq Stop.id customers b x ids_distinct Hb Hx Hbx).
      subst x y.
      exact (pairs_not_both customers a b (NoDup_of_map _ _ ids_distinct) Hab Hxy).
  - right. exists (a, b). split; [assumption|]. intros m'. apply setKey_same.
    apply id_not_proto.
Qed.
End SavingValues.



(** ** The 2-opt move *)

Lemma firstn_length_app {A : Type} (l1 l2 : list A) :
  firstn (length l1) (l1 ++ l2) = l1.
Proof.
  rewrite firstn_app, firstn_all, Nat.sub_diag. simpl. apply app_nil_r.
Qed.

Lemma skipn_length_app {A : Type} (l1 l2 : list A) :
  skipn (length l1) (l1 ++ l2) = l2.
Proof. rewrite skipn_app, skipn_all, Nat.sub_diag. reflexivity. Qed.

Lemma candidateOf_app (pre mid post : list Stop.t) (i k : nat) :
  length pre = i -> length mid = (k + 1 - i)%nat -> (i <= k)%nat ->
  candidateOf (pre ++ mid ++ post) i k = pre ++ rev mid ++ post.
Proof.
  intros Hpre Hmid Hik. unfold candidateOf, slice.
  rewrite Nat.sub_0_r. change (skipn 0 (pre ++ mid ++ post)) with (pre ++ mid ++ post).
  subst i. rewrite firstn_length_app, skipn_length_app.
  rewrite <- Hmid, firstn_length_app.
  replace (k + 1)%nat with (length (pre ++ mid)) by (rewrite length_app; lia).
  rewrite (app_assoc pre mid post), skipn_length_app. reflexivity.
Qed.

Lemma split_segment (best : list Stop.t) (i k : nat) :
  (i <= k)%nat -> (k < length best)%nat ->
  exists pre mid post,
    best = pre ++ mid ++ post /\ length pre = i /\ length mid = (k + 1 - i)%nat.
Proof.
  intros Hik Hk.
  exists (firstn i best), (firstn (k + 1 - i) (skipn i best)),
         (skipn (k + 1 - i) (skipn i best)).
  rewrite !firstn_skipn. repeat split.
  - rewrite length_firstn. lia.
  - rewrite length_firstn, length_skipn. lia.
Qed.

(** X7. The candidate of the pair [(i, k)] is the current sequence with the
    positions [i] to [k] reversed: same length and same stops, every position
    outside [i..k] unchanged, position [i + t] holding what was at [k - t];
    making the same move again gives the sequence back. *)
Theorem candidate_reverses_segment (best : list Stop.t) (i k : nat) :
  (i <= k)%nat -> (k < length best)%nat ->
  let c := candidateOf best i k in
  length c = length best /\
  Permutation c best /\
  (forall p, (p < i \/ k < p)%nat -> nth_error c p = nth_error best p) /\
  (forall t, (t <= k - i)%nat -> nth_error c (i + t) = nth_error best (k - t)) /\
  candidateOf c i k = best.
Proof.
  intros Hik Hk c.
  destruct (split_segment best i k Hik Hk) as (pre & mid & post & Hb & Hpre & Hmid).
  assert (Hc : c = pre ++ rev mid ++ post)
    by (unfold c; rewrite Hb; now apply candidateOf_app).
  split; [now apply candidateOf_length|]. split; [now apply candidateOf_perm|].
  split; [|split].
  - intros p Hp. rewrite Hc, Hb. destruct Hp as [Hp|Hp].
    + now rewrite !nth_error_app1 by lia.
    + rewrite !nth_error_app2 by (rewrite ?length_rev; lia).
      now rewrite length_rev.
  - intros t Ht. rewrite Hc, Hb.
    rewrite (nth_error_app2 pre) by lia.
    rewrite (nth_error_app2 pre) by lia.
    rewrite !nth_error_app1 by (rewrite ?length_rev; lia).
    rewrite nth_error_rev.
    destruct (Nat.ltb_spec (i + t - length pre) (length mid)); [|lia].
    f_equal. lia.
  - rewrite Hc. rewrite candidateOf_app; [|assumption|rewrite length_rev; assumption|assumption].
    now rewrite rev_involutive.
Qed.

Lemma candidate_reverses_segment_witness :
  length (candidateOf fourStops 1 2) = 4%nat /\
  Permutation (candidateOf fourStops 1 2) fourStops /\
  (forall p, (p < 1 \/ 2 < p)%nat ->
             nth_error (candidateOf fourStops 1 2) p = nth_error fourStops p) /\
  (forall t, (t <= 2 - 1)%nat ->
             nth_error (candidateOf fourStops 1 2) (1 + t) = nth_error fourStops (2 - t)) /\
  candidateOf (candidateOf fourStops 1 2) 1 2 = fourStops.
Proof.
  apply (candidate_reverses_segment fourStops 1 2); simpl; lia.
Defined.

(** X8. [twoOpt] returns a route of fewer than four stops as it is, without
    running a pass; on every route of four or more stops the first pass
    throws a [TypeError], whatever the distances: no route is ever improved. *)
Theorem twoOpt_returns_short_throws_long
        (haversineKm : LatLng -> LatLng -> Q) (depot : Depot.t)
        (fuel : nat) (seq : list Stop.t) :
  ((length seq < 4)%nat -> twoOpt haversineKm depot fuel seq = Ret seq) /\
  ((4 <= length seq)%nat -> twoOpt haversineKm depot (S fuel) seq = TypeError).
Proof.
  split; intros Hlen.
  - unfold twoOpt. apply Nat.ltb_lt in Hlen. now rewrite Hlen.
  - rewrite twoOpt_outcome. destruct (Nat.ltb_spec (length seq) 4); [lia|reflexivity].
Qed.

Lemma twoOpt_returns_short_throws_long_witness :
  twoOpt equatorArc origin 0 picks = Ret picks /\
  twoOpt equatorArc origin 1 fourStops = TypeError.
Proof.
  split.
  - apply (proj1 (twoOpt_returns_short_throws_long equatorArc origin 0 picks)).
    simpl; lia.
  - apply (proj2 (twoOpt_returns_short_throws_long equatorArc origin 0 fourStops)).
    simpl; lia.
Defined.

(** ** The solver's outcome and the ranking *)

Lemma forallb_short_small (routes : list Route.t) (n : nat) :
  Forall (fun r => (length (Route.customers r) <= n)%nat) routes ->
  (n < 4)%nat -> forallb short routes = true.
Proof.
  intros Hall Hn. apply forallb_forall. intros r Hr.
  pose proof (proj1 (Forall_forall _ _) Hall r Hr) as H. cbv beta in H.
  unfold short. apply Nat.ltb_lt. lia.
Qed.

Lemma route_length_le_total (routes : list Route.t) :
  Forall (fun r => (length (Route.customers r) <= length (allStops routes))%nat) routes.
Proof.
  induction routes as [|r rs IH]; constructor; unfold allStops in *; simpl;
    rewrite length_app; [lia|].
  eapply Forall_impl; [|exact IH]. intros x Hx; simpl in Hx; lia.
Qed.

(** X9. With at least one pass allowed, the solver returns exactly when no
    working route has four or more stops, and then returns one result per
    working route; otherwise it throws. In particular it returns for every
    input of at most three stops. *)
Theorem solver_returns_iff_routes_short
        (haversineKm : LatLng -> LatLng -> Q) (depot : Depot.t)
        (fuel : nat) (customers : list Stop.t) (capacity : Q) :
  let routes := mergePhase haversineKm depot customers capacity in
  (forallb short routes = true ->
   clarkeWright haversineKm depot (S fuel) customers capacity
   = Ret (rank (map (plainResult haversineKm depot) routes))) /\
  (forallb short routes = false ->
   clarkeWright haversineKm depot (S fuel) customers capacity = TypeError) /\
  ((length customers < 4)%nat -> forallb short routes = true).
Proof.
  intros routes. pose proof (clarkeWright_outcome haversineKm depot fuel customers capacity)
    as H. cbv zeta in H. fold routes in H.
  split; [|split].
  - intros Hs. now rewrite H, Hs.
  - intros Hs. now rewrite H, Hs.
  - intros Hlen. apply (forallb_short_small routes (length customers)); [|assumption].
    rewrite <- (Permutation_length (mergePhase_allStops haversineKm depot customers capacity)).
    apply route_length_le_total.
Qed.

Lemma solver_returns_iff_routes_short_witness :
  clarkeWright equatorArc origin 1 picks 4
  = Ret (rank (map (plainResult equatorArc origin) (mergePhase equatorArc origin picks 4))) /\
  clarkeWright equatorArc origin 1 fourStops 10 = TypeError /\
  forallb short (mergePhase equatorArc origin picks 10) = true.
Proof.
  split; [|split].
  - apply (proj1 (solver_returns_iff_routes_short equatorArc origin 0 picks 4)).
    reflexivity.
  - apply (proj1 (proj2 (solver_returns_iff_routes_short equatorArc origin 0 fourStops 10))).
    reflexivity.
  - apply (proj2 (proj2 (solver_returns_iff_routes_short equatorArc origin 0 picks 10))).
    simpl; lia.
Defined.



(** ** Round trips *)

Section Walks.
Variable haversineKm : LatLng -> LatLng -> Q.
Variable depot : Depot.t.

Lemma roundTrip_fold (l : list Stop.t) (acc : Q) (prev : LatLng) :
  (let '(dist, p) :=
     fold_left (fun '(dist, prev) c => (dist + haversineKm prev (Stop.pt c), Stop.pt c))
               l (acc, prev) in
   dist + haversineKm p (Depot.pt depot))
  == acc + walk haversineKm (prev :: map Stop.pt l ++ [Depot.pt depot]).
Proof.
  revert acc prev. induction l as [|x xs IH]; intros acc prev.
  - simpl. lra.
  - simpl fold_left. rewrite IH. simpl. lra.
Qed.

Lemma roundTrip_walk (l : list Stop.t) :
  roundTrip haversineKm depot l == walk haversineKm (tour depot l).
Proof.
  unfold roundTrip, tour. rewrite roundTrip_fold. lra.
Qed.

Lemma walk_app (l1 : list LatLng) (a b : LatLng) (l2 : list LatLng) :
  walk haversineKm ((l1 ++ [a]) ++ b :: l2)
  == walk haversineKm (l1 ++ [a]) + haversineKm a b + walk haversineKm (b :: l2).
Proof.
  induction l1 as [|x l1 IH].
  - simpl. lra.
  - destruct l1 as [|y l1].
    + simpl. lra.
    + change (walk haversineKm (((x :: y :: l1) ++ [a]) ++ b :: l2))
        with (haversineKm x y + walk haversineKm (((y :: l1) ++ [a]) ++ b :: l2)).
      change (walk haversineKm ((x :: y :: l1) ++ [a]))
        with (haversineKm x y + walk haversineKm ((y :: l1) ++ [a])).
      rewrite IH. lra.
Qed.

Hypothesis symmetric : forall a b, haversineKm a b == haversineKm b a.

Lemma walk_rev (l : list LatLng) : walk haversineKm (rev l) == walk haversineKm l.
Proof.
  induction l as [|x l IH]; [reflexivity|].
  destruct l as [|y l]; [reflexivity|].
  change (rev (x :: y :: l)) with ((rev l ++ [y]) ++ [x]).
  rewrite walk_app.
  change (rev l ++ [y]) with (rev (y :: l)). rewrite IH.
  change (walk haversineKm (x :: y :: l))
    with (haversineKm x y + walk haversineKm (y :: l)).
  rewrite (symmetric y x). simpl. lra.
Qed.

Lemma tour_rev (l : list Stop.t) : tour depot (rev l) = rev (tour depot l).
Proof.
  unfold tour. simpl. rewrite rev_app_distr, map_rev. reflexivity.
Qed.

(** A walk through three stretches, the middle one in either direction. *)
Lemma walk_three (A0 : list LatLng) (u m1 : LatLng) (M' M0 : list LatLng)
      (m2 v : LatLng) (T' : list LatLng) :
  m1 :: M' = M0 ++ [m2] ->
  walk haversineKm ((A0 ++ [u]) ++ (m1 :: M') ++ v :: T')
  == walk haversineKm (A0 ++ [u]) + haversineKm u m1 + walk haversineKm (m1 :: M')
     + haversineKm m2 v + walk haversineKm (v :: T').
Proof.
  intros HM. change ((m1 :: M') ++ v :: T') with (m1 :: (M' ++ v :: T')).
  rewrite walk_app.
  change (m1 :: M' ++ v :: T') with ((m1 :: M') ++ v :: T').
  rewrite HM, walk_app. lra.
Qed.
End Walks.

Section TwoOptMove.
Variable haversineKm : LatLng -> LatLng -> Q.
Variable depot : Depot.t.

(** [node] reads the tour: index [p - 1] of the sequence is position [p] of
    the tour. *)
Lemma node_tour (seq : list Stop.t) (p : nat) :
  node depot seq (Z.of_nat p - 1) = nth_error (tour depot seq) p.
Proof.
  unfold tour. destruct p as [|p]; [reflexivity|].
  replace (Z.of_nat (S p) - 1)%Z with (Z.of_nat p) by lia.
  simpl nth_error. unfold node.
  destruct (Z.eqb_spec (Z.of_nat p) (-1)); [lia|].
  destruct (Z.eqb_spec (Z.of_nat p) (Z.of_nat (length seq))) as [He|Hn].
  - apply Nat2Z.inj in He. subst p.
    rewrite nth_error_app2 by (rewrite length_map; lia).
    now rewrite length_map, Nat.sub_diag.
  - destruct (Z.ltb_spec (Z.of_nat p) 0); [lia|]. rewrite Nat2Z.id.
    destruct (Nat.lt_ge_cases p (length seq)) as [Hlt|Hge].
    + rewrite nth_error_app1 by (rewrite length_map; lia).
      now rewrite nth_error_map.
    + assert (Hp : (length seq < p)%nat) by lia.
      rewrite (proj2 (nth_error_None seq p)) by lia.
      symmetry. apply nth_error_None. rewrite length_app, length_map. simpl. lia.
Qed.

Lemma afterOf_tour (seq : list Stop.t) (i k : nat) (a b c d : LatLng) :
  nth_error (tour depot seq) i = Some a ->
  nth_error (tour depot seq) (S i) = Some b ->
  nth_error (tour depot seq) (S k) = Some c ->
  nth_error (tour depot seq) (S (S k)) = Some d ->
  afterOf haversineKm depot seq i k = Ret (haversineKm a b + haversineKm c d).
Proof.
  intros Ha Hb Hc Hd.
  assert (N1 : node depot seq (Z.of_nat i - 1) = Some a)
    by (rewrite node_tour; exact Ha).
  assert (N2 : node depot seq (Z.of_nat i) = Some b).
  { replace (Z.of_nat i) with (Z.of_nat (S i) - 1)%Z by lia.
    rewrite node_tour; exact Hb. }
  assert (N3 : node depot seq (Z.of_nat k) = Some c).
  { replace (Z.of_nat k) with (Z.of_nat (S k) - 1)%Z by lia.
    rewrite node_tour; exact Hc. }
  assert (N4 : node depot seq (Z.of_nat k + 1) = Some d).
  { replace (Z.of_nat k + 1)%Z with (Z.of_nat (S (S k)) - 1)%Z by lia.
    rewrite node_tour; exact Hd. }
  unfold afterOf. now rewrite N1, N2, N3, N4.
Qed.

Lemma nth_three (A0 : list LatLng) (u m1 : LatLng) (M' M0 : list LatLng)
      (m2 v : LatLng) (T' : list LatLng) (i k : nat) :
  m1 :: M' = M0 ++ [m2] ->
  length A0 = i -> length (m1 :: M') = (k + 1 - i)%nat -> (i <= k)%nat ->
  let t := (A0 ++ [u]) ++ (m1 :: M') ++ v :: T' in
  nth_error t i = Some u /\ nth_error t (S i) = Some m1 /\
  nth_error t (S k) = Some m2 /\ nth_error t (S (S k)) = Some v.
Proof.
  intros HM HA HMl Hik t. unfold t.
  assert (HlA : length (A0 ++ [u]) = S i) by (rewrite length_app; simpl; lia).
  assert (HlM0 : length M0 = (k - i)%nat).
  { rewrite HM, length_app in HMl. simpl in HMl. lia. }
  repeat split.
  - rewrite nth_error_app1 by lia. rewrite nth_error_app2 by lia.
    now rewrite HA, Nat.sub_diag.
  - rewrite nth_error_app2 by lia. now rewrite HlA, Nat.sub_diag.
  - rewrite nth_error_app2 by lia. rewrite HlA, HM.
    rewrite nth_error_app1 by (rewrite length_app; simpl; lia).
    rewrite nth_error_app2 by lia.
    now replace (S k - S i - length M0)%nat with 0%nat by lia.
  - rewrite nth_error_app2 by lia. rewrite HlA.
    rewrite nth_error_app2 by lia.
    now replace (S (S k) - S i - length (m1 :: M'))%nat with 0%nat by lia.
Qed.

Hypothesis symmetric : forall a b, haversineKm a b == haversineKm b a.

(** X11. Over exact arithmetic (the legs added as exact rationals; the
    rounding of the double-precision sums is not modelled, so in the code
    the two sides agree up to rounding only): for a symmetric distance
    function, what the 2-opt move does to the round trip is the change of
    the two-edge sum that [after] measures. The round trip of the candidate
    minus that of the current sequence equals [after] on the candidate
    minus the same sum on the current sequence. *)
Theorem move_changes_two_edges (best : list Stop.t) (i k : nat) :
  (i <= k)%nat -> (k < length best)%nat ->
  exists after twoEdges,
    afterOf haversineKm depot (candidateOf best i k) i k = Ret after /\
    afterOf haversineKm depot best i k = Ret twoEdges /\
    roundTrip haversineKm depot (candidateOf best i k) - roundTrip haversineKm depot best
    == after - twoEdges.
Proof.
  intros Hik Hk.
  destruct (split_segment best i k Hik Hk) as (pre & mid & post & Hb & Hpre & Hmid).
  assert (Hc : candidateOf best i k = pre ++ rev mid ++ post)
    by (rewrite Hb; now apply candidateOf_app).
  set (D := Depot.pt depot).
  destruct (exists_last (l := D :: map Stop.pt pre)) as (A0 & u & HA); [discriminate|].
  assert (HlA0 : length A0 = i).
  { apply (f_equal (@length _)) in HA. rewrite length_app in HA. simpl in HA.
    rewrite length_map in HA. lia. }
  destruct (map Stop.pt mid) as [|m1 M'] eqn:HM.
  { apply (f_equal (@length _)) in HM. rewrite length_map in HM. simpl in HM. lia. }
  destruct (exists_last (l := m1 :: M')) as (M0 & m2 & HM2); [discriminate|].
  assert (HlM : length (m1 :: M') = (k + 1 - i)%nat)
    by (rewrite <- HM, length_map; exact Hmid).
  destruct (map Stop.pt post ++ [D]) as [|v T'] eqn:HT.
  { apply (f_equal (@length _)) in HT. rewrite length_app in HT. simpl in HT. lia. }
  assert (Htb : tour depot best = (A0 ++ [u]) ++ (m1 :: M') ++ v :: T').
  { unfold tour. fold D. rewrite Hb, !map_app, HM, <- !app_assoc, <- HT.
    change (D :: map Stop.pt pre ++ (m1 :: M') ++ map Stop.pt post ++ [D])
      with ((D :: map Stop.pt pre) ++ (m1 :: M') ++ map Stop.pt post ++ [D]).
    now rewrite HA, <- !app_assoc. }
  assert (Hrev : rev (m1 :: M') = m2 :: rev M0)
    by (rewrite HM2, rev_app_distr; reflexivity).
  assert (Hrev' : m2 :: rev M0 = rev M' ++ [m1]) by (rewrite <- Hrev; reflexivity).
  assert (Htc : tour depot (candidateOf best i k)
                = (A0 ++ [u]) ++ (m2 :: rev M0) ++ v :: T').
  { unfold tour. fold D. rewrite Hc, !map_app, map_rev, HM, Hrev, <- !app_assoc, <- HT.
    change (D :: map Stop.pt pre ++ (m2 :: rev M0) ++ map Stop.pt post ++ [D])
      with ((D :: map Stop.pt pre) ++ (m2 :: rev M0) ++ map Stop.pt post ++ [D]).
    now rewrite HA, <- !app_assoc. }
  destruct (nth_three A0 u m1 M' M0 m2 v T' i k HM2 HlA0 HlM Hik)
    as (Hb1 & Hb2 & Hb3 & Hb4).
  assert (HlM' : length (m2 :: rev M0) = (k + 1 - i)%nat)
    by (rewrite <- Hrev, length_rev; exact HlM).
  destruct (nth_three A0 u m2 (rev M0) (rev M') m1 v T' i k Hrev' HlA0 HlM' Hik)
    as (Hc1 & Hc2 & Hc3 & Hc4).
  rewrite <- Htb in Hb1, Hb2, Hb3, Hb4. rewrite <- Htc in Hc1, Hc2, Hc3, Hc4.
  exists (haversineKm u m2 + haversineKm m1 v), (haversineKm u m1 + haversineKm m2 v).
  split; [now apply afterOf_tour|]. split; [now apply afterOf_tour|].
  rewrite !roundTrip_walk, Htb, Htc.
  rewrite (walk_three haversineKm A0 u m1 M' M0 m2 v T' HM2).
  rewrite (walk_three haversineKm A0 u m2 (rev M0) (rev M') m1 v T' Hrev').
  rewrite <- Hrev, (walk_rev haversineKm symmetric). lra.
Qed.

(** X12. Over exact arithmetic (the legs added as exact rationals; the
    rounding of the double-precision sums is not modelled, so in the code
    the two sides agree up to rounding only): for a symmetric distance
    function a route and its reverse have the same round-trip distance. *)
Theorem round_trip_of_reversed_route (route : list Stop.t) :
  roundTrip haversineKm depot (rev route) == roundTrip haversineKm depot route.
Proof.
  rewrite !roundTrip_walk.
  rewrite tour_rev.
  now apply walk_rev.
Qed.
End TwoOptMove.

Lemma equatorArc_sym (a b : LatLng) : equatorArc a b == equatorArc b a.
Proof.
  unfold equatorArc. rewrite <- (Qabs_opp (lng b - lng a)).
  apply Qabs_wd. ring.
Qed.

(** Swapping the first two of the four stops: the round trip grows by 2,
    which is [after] (4) minus the sum of the two removed edges (2). *)
Lemma move_changes_two_edges_witness :
  exists after twoEdges,
    afterOf equatorArc origin (candidateOf fourStops 0 1) 0 1 = Ret after /\
    afterOf equatorArc origin fourStops 0 1 = Ret twoEdges /\
    roundTrip equatorArc origin (candidateOf fourStops 0 1)
    - roundTrip equatorArc origin fourStops
    == after - twoEdges.
Proof.
  apply (move_changes_two_edges equatorArc origin equatorArc_sym fourStops 0 1);
    simpl; lia.
Defined.

Lemma round_trip_of_reversed_route_witness :
  roundTrip equatorArc origin (rev fourStops) == roundTrip equatorArc origin fourStops.
Proof.
  apply (round_trip_of_reversed_route equatorArc origin equatorArc_sym fourStops).
Defined.

(** * Further properties of the distance function *)

Section HaversineBounds.
Local Open Scope R_scope.

Lemma asin_nonneg (x : R) : 0 <= x <= 1 -> 0 <= asin x <= PI / 2.
Proof.
  intros [H0 H1]. pose proof (asin_bound x) as [Hlo Hhi]. split; [|exact Hhi].
  destruct (Rle_dec 0 (asin x)) as [Hge|Hlt]; [exact Hge|exfalso].
  assert (Hs : sin (asin x) < 0).
  { pose proof PI_RGT_0. apply sin_lt_0_var; lra. }
  rewrite sin_asin in Hs by lra. lra.
Qed.

Lemma asinArg_range (a b : LatLng) : 0 <= Geo.asinArg a b <= 1.
Proof.
  unfold Geo.asinArg, Geo.clampedRoot.
  split; [apply Rmin_glb; [lra | apply sqrt_pos] | apply Rmin_l].
Qed.

(** X13. The distance is never negative and never more than half the
    circumference of the earth, [6371 * PI] km (formula read over the real
    numbers). *)
Theorem haversine_range (a b : LatLng) :
  0 <= Geo.haversineKm a b <= 6371 * PI.
Proof.
  pose proof (asinArg_range a b) as Harg.
  pose proof (asin_nonneg (Geo.asinArg a b) Harg) as [Hlo Hhi].
  unfold Geo.haversineKm. cbv zeta. split.
  - apply Rmult_le_pos; lra.
  - replace (6371 * PI) with (2 * 6371 * (PI / 2)) by field.
    apply Rmult_le_compat_l; lra.
Qed.

Lemma haversineKm_meridian (a b : LatLng) :
  (lng a == lng b)%Q -> (Qabs (lat b - lat a) <= 180)%Q ->
  Geo.haversineKm a b = 6371 * PI / 180 * Q2R (Qabs (lat b - lat a)).
Proof.
  intros Hlng Harc. pose proof PI_RGT_0 as Hpi.
  apply Qeq_eqR in Hlng. apply Qle_Rle in Harc.
  rewrite Q2R_Qabs, Q2R_minus in *.
  assert (H180 : Q2R 180 = 180) by (unfold Q2R; simpl; lra).
  rewrite H180 in Harc.
  set (d := Q2R (lat b) - Q2R (lat a)) in *.
  unfold Geo.haversineKm, Geo.asinArg, Geo.clampedRoot, Geo.haversineH. cbv zeta.
  rewrite Hlng. fold d.
  replace (Geo.toRad (Q2R (lng b) - Q2R (lng b)) / 2) with 0
    by (unfold Geo.toRad; field).
  rewrite sin_0.
  set (x := Geo.toRad d / 2).
  replace (sin x * sin x
           + cos (Geo.toRad (Q2R (lat a))) * cos (Geo.toRad (Q2R (lat b))) * 0 * 0)
    with (Rsqr (sin x)) by (unfold Rsqr; ring).
  rewrite sqrt_Rsqr_abs.
  assert (Hx : Rabs x = Rabs d * (PI / 360)).
  { unfold x, Geo.toRad. replace (d * PI / 180 / 2) with (d * (PI / 360)) by field.
    rewrite Rabs_mult. f_equal. apply Rabs_right. lra. }
  assert (Hxb : - (PI / 2) <= x <= PI / 2).
  { assert (Rabs x <= PI / 2).
    { rewrite Hx. pose proof (Rabs_pos d).
      replace (PI / 2) with (180 * (PI / 360)) by field.
      apply Rmult_le_compat_r; lra. }
    unfold Rabs in H. destruct (Rcase_abs x); lra. }
  rewrite Rmin_right.
  - rewrite (asin_abs_sin x Hxb), Hx. field.
  - pose proof (SIN_bound x) as [? ?]. unfold Rabs. destruct (Rcase_abs (sin x)); lra.
Qed.

(** X14. Along the equator, and along a meridian, the distance is the angle
    between the two points times the length of one degree, [6371 * PI / 180]
    km, as long as the points are at most 180 degrees apart (formula read
    over the real numbers). *)
Theorem haversine_on_great_circle_arcs (a b : LatLng) :
  ((lat a == 0)%Q -> (lat b == 0)%Q -> (Qabs (lng b - lng a) <= 180)%Q ->
   Geo.haversineKm a b = 6371 * PI / 180 * Q2R (Qabs (lng b - lng a))) /\
  ((lng a == lng b)%Q -> (Qabs (lat b - lat a) <= 180)%Q ->
   Geo.haversineKm a b = 6371 * PI / 180 * Q2R (Qabs (lat b - lat a))).
Proof.
  split.
  - intros Ha Hb Harc. now apply haversineKm_equator.
  - intros Hlng Harc. now apply haversineKm_meridian.
Qed.

Lemma haversine_on_great_circle_arcs_witness :
  Geo.haversineKm (mkLatLng 0 1) (mkLatLng 0 3)
  = 6371 * PI / 180 * Q2R (Qabs (lng (mkLatLng 0 3) - lng (mkLatLng 0 1))) /\
  Geo.haversineKm (mkLatLng 10 5) (mkLatLng 40 5)
  = 6371 * PI / 180 * Q2R (Qabs (lat (mkLatLng 40 5) - lat (mkLatLng 10 5))).
Proof.
  split.
  - apply (proj1 (haversine_on_great_circle_arcs (mkLatLng 0 1) (mkLatLng 0 3)));
      [reflexivity | reflexivity | discriminate].
  - apply (proj2 (haversine_on_great_circle_arcs (mkLatLng 10 5) (mkLatLng 40 5)));
      [reflexivity | discriminate].
Defined.
End HaversineBounds.

(** * Further properties of the CSV helpers *)

Lemma mapi_from_In {A B : Type} (f : A -> nat -> B) (l : list A) (n : nat) (y : B) :
  In y (CSV.mapi_from n f l) -> exists x i, In x l /\ y = f x i.
Proof.
  revert n. induction l as [|x xs IH]; intros n H; simpl in H; [contradiction|].
  destruct H as [<-|H].
  - exists x, n. split; [now left | reflexivity].
  - destruct (IH _ H) as (x' & i & Hin & ->). exists x', i. split; [now right | reflexivity].
Qed.

Lemma mapi_from_length {A B : Type} (f : A -> nat -> B) (l : list A) (n : nat) :
  length (CSV.mapi_from n f l) = length l.
Proof. revert n. induction l as [|x xs IH]; intros n; simpl; [reflexivity | now rewrite IH]. Qed.

Lemma orElse_nonempty (x : option string) (d : string) :
  d <> EmptyString -> CSV.orElse x d <> EmptyString.
Proof. intros Hd. destruct x as [[|c s]|]; simpl; try assumption; discriminate. Qed.

Lemma filter_length_le {A : Type} (p : A -> bool) (l : list A) :
  (length (filter p l) <= length l)%nat.
Proof.
  induction l as [|x xs IH]; simpl; [lia|]. destruct (p x); simpl; lia.
Qed.

(** X15. [importCSV] throws exactly when the text has no non-empty line (the
    header is then [undefined]). Whenever it returns, every stop it hands
    over has finite [lat] and [lng], a non-empty [id] and a non-empty [name],
    and there are at most as many stops as non-empty lines after the header. *)
Theorem importCSV_outcome (text : string) :
  (CSV.importCSV text = TypeError <->
   filter CSV.nonEmpty (CSV.splitLines text) = []) /\
  (forall stops,
      CSV.importCSV text = Ret stops ->
      Forall (fun s => CSV.isFinite (CSV.lat s) = true /\
                       CSV.isFinite (CSV.lng s) = true /\
                       CSV.id s <> EmptyString /\
                       CSV.name s <> EmptyString) stops /\
      (S (length stops) <= length (filter CSV.nonEmpty (CSV.splitLines text)))%nat).
Proof.
  unfold CSV.importCSV.
  destruct (filter CSV.nonEmpty (CSV.splitLines text)) as [|header rest].
  - split; [tauto|]. discriminate.
  - split; [split; discriminate|].
    intros stops H. inversion H as [Hs]. clear H. split.
    + apply Forall_forall. intros s Hin. apply filter_In in Hin.
      destruct Hin as [Hin Hfin]. apply andb_prop in Hfin. destruct Hfin as [Hlat Hlng].
      apply mapi_from_In in Hin. destruct Hin as (line & i & _ & ->).
      simpl in *. repeat split; try assumption.
      * apply orElse_nonempty. discriminate.
      * apply orElse_nonempty. discriminate.
    + simpl. apply le_n_S.
      etransitivity; [apply filter_length_le|]. now rewrite mapi_from_length.
Qed.

Lemma importCSV_outcome_witness :
  CSV.importCSV (CSV.str CSV.LF) = TypeError /\
  exists stops,
    CSV.importCSV ("lat,lng" ++ CSV.str CSV.LF ++ "1,2" ++ CSV.str CSV.LF ++ "x,3")%string
    = Ret stops /\
    Forall (fun s => CSV.isFinite (CSV.lat s) = true /\
                     CSV.isFinite (CSV.lng s) = true /\
                     CSV.id s <> EmptyString /\
                     CSV.name s <> EmptyString) stops /\
    length stops = 1%nat.
Proof.
  split.
  - apply (proj1 (importCSV_outcome (CSV.str CSV.LF))). reflexivity.
  - eexists. split; [vm_compute; reflexivity|]. split; [|reflexivity].
    apply (proj2 (importCSV_outcome
             ("lat,lng" ++ CSV.str CSV.LF ++ "1,2" ++ CSV.str CSV.LF ++ "x,3")%string)).
    vm_compute; reflexivity.
Defined.

(** ** Joining and splitting *)

Lemma allChars_app (p : ascii -> bool) (s1 s2 : string) :
  allChars p (s1 ++ s2) = allChars p s1 && allChars p s2.
Proof.
  induction s1 as [|c s1 IH]; simpl; [reflexivity|].
  now rewrite IH, andb_assoc.
Qed.

Lemma splitFields_cell (s rest : string) :
  noSep s = true ->
  CSV.splitFields (s ++ String "," rest) = s :: CSV.splitFields rest.
Proof.
  unfold noSep. induction s as [|c s IH]; simpl; intros H; [reflexivity|].
  apply andb_prop in H. destruct H as [Hc Hs]. apply negb_true_iff in Hc.
  rewrite Hc. now rewrite (IH Hs).
Qed.

Lemma splitFields_last (s : string) :
  noSep s = true -> CSV.splitFields s = [s].
Proof.
  unfold noSep. induction s as [|c s IH]; simpl; intros H; [reflexivity|].
  apply andb_prop in H. destruct H as [Hc Hs]. apply negb_true_iff in Hc.
  rewrite Hc. now rewrite (IH Hs).
Qed.

Lemma splitFields_join (cells : list string) :
  cells <> [] -> Forall (fun c => noSep c = true) cells ->
  CSV.splitFields (CSV.join "," cells) = cells.
Proof.
  induction cells as [|x cells IH]; intros Hne Hall; [congruence|].
  inversion Hall as [|? ? Hx Hrest]; subst.
  destruct cells as [|y cells].
  - simpl. now apply splitFields_last.
  - change (CSV.join "," (x :: y :: cells))
      with (x ++ String "," (CSV.join "," (y :: cells)))%string.
    rewrite (splitFields_cell _ _ Hx). f_equal. apply IH; [discriminate | assumption].
Qed.

Lemma splitLines_line (s rest : string) :
  noBreak s = true ->
  CSV.splitLines (s ++ String CSV.LF rest) = s :: CSV.splitLines rest.
Proof.
  unfold noBreak. induction s as [|c s IH]; intros H; [reflexivity|].
  simpl in H. apply andb_prop in H. destruct H as [Hc Hs].
  apply andb_prop in Hc. destruct Hc as [Hlf Hcr].
  apply negb_true_iff in Hlf, Hcr.
  change ((String c s ++ String CSV.LF rest)%string)
    with (String c (s ++ String CSV.LF rest)).
  cbn [CSV.splitLines]. rewrite Hlf, Hcr. now rewrite (IH Hs).
Qed.

Lemma splitLines_last (s : string) :
  noBreak s = true -> CSV.splitLines s = [s].
Proof.
  unfold noBreak. induction s as [|c s IH]; intros H; [reflexivity|].
  simpl in H. apply andb_prop in H. destruct H as [Hc Hs].
  apply andb_prop in Hc. destruct Hc as [Hlf Hcr].
  apply negb_true_iff in Hlf, Hcr.
  cbn [CSV.splitLines]. rewrite Hlf, Hcr. now rewrite (IH Hs).
Qed.

Lemma splitLines_join (lines : list string) :
  lines <> [] -> Forall (fun l => noBreak l = true) lines ->
  CSV.splitLines (CSV.join (CSV.str CSV.LF) lines) = lines.
Proof.
  induction lines as [|x lines IH]; intros Hne Hall; [congruence|].
  inversion Hall as [|? ? Hx Hrest]; subst.
  destruct lines as [|y lines].
  - simpl. now apply splitLines_last.
  - change (CSV.join (CSV.str CSV.LF) (x :: y :: lines))
      with (x ++ String CSV.LF (CSV.join (CSV.str CSV.LF) (y :: lines)))%string.
    rewrite (splitLines_line _ _ Hx). f_equal. apply IH; [discriminate | assumption].
Qed.

(** X16. What the exporter joins the importer splits back: cells without
    comma or tab joined by commas are recovered by the split at commas and
    tabs, and lines without line feed or carriage return joined by line
    feeds are recovered by the split at line ends. *)
Theorem join_then_split (cells lines : list string) :
  cells <> [] -> Forall (fun c => noSep c = true) cells ->
  lines <> [] -> Forall (fun l => noBreak l = true) lines ->
  CSV.splitFields (CSV.join "," cells) = cells /\
  CSV.splitLines (CSV.join (CSV.str CSV.LF) lines) = lines.
Proof.
  intros Hc Hcs Hl Hls. split; [now apply splitFields_join | now apply splitLines_join].
Qed.

Lemma join_then_split_witness :
  CSV.splitFields (CSV.join "," ["Stop 1"; "18.79"; "98.99"; "2"]%string)
  = ["Stop 1"; "18.79"; "98.99"; "2"]%string /\
  CSV.splitLines (CSV.join (CSV.str CSV.LF) ["name,lat"; "a,1"]%string)
  = ["name,lat"; "a,1"]%string.
Proof.
  apply (join_then_split ["Stop 1"; "18.79"; "98.99"; "2"]%string
                         ["name,lat"; "a,1"]%string).
  - discriminate.
  - repeat constructor.
  - discriminate.
  - repeat constructor.
Defined.

(** ** Escaping *)

Lemma doubleQuotes_inj (s1 s2 : string) :
  CSV.doubleQuotes s1 = CSV.doubleQuotes s2 -> s1 = s2.
Proof.
  revert s2. induction s1 as [|c1 s1 IH]; intros [|c2 s2] H; simpl in H.
  - reflexivity.
  - destruct (Ascii.eqb c2 CSV.dquote); discriminate.
  - destruct (Ascii.eqb c1 CSV.dquote); discriminate.
  - destruct (Ascii.eqb_spec c1 CSV.dquote) as [E1|N1],
             (Ascii.eqb_spec c2 CSV.dquote) as [E2|N2].
    + inversion H. subst. f_equal. now apply IH.
    + inversion H. congruence.
    + inversion H. congruence.
    + inversion H. subst. f_equal. now apply IH.
Qed.

Lemma append_inj_r (s t1 t2 : string) : (s ++ t1 = s ++ t2)%string -> t1 = t2.
Proof. induction s as [|c s IH]; simpl; intros H; [assumption|]. inversion H. now apply IH. Qed.

Lemma string_length_append (s t : string) :
  String.length (s ++ t) = (String.length s + String.length t)%nat.
Proof. induction s as [|c s IH]; simpl; [reflexivity | now rewrite IH]. Qed.

Lemma append_inj_l (s1 s2 t : string) : (s1 ++ t = s2 ++ t)%string -> s1 = s2.
Proof.
  intros H.
  assert (Hlen : String.length s1 = String.length s2).
  { apply (f_equal String.length) in H. rewrite !string_length_append in H. lia. }
  revert s2 H Hlen. induction s1 as [|c s1 IH]; intros [|c2 s2] H Hlen;
    simpl in *; try discriminate; [reflexivity|].
  inversion H. f_equal. apply IH; [assumption | lia].
Qed.

(** X17. Escaping loses nothing: [esc] puts the text between two double
    quotes and two texts with the same escaped form are the same text. *)
Theorem esc_is_injective (v1 v2 : string) :
  CSV.esc v1 = CSV.esc v2 -> v1 = v2.
Proof.
  unfold CSV.esc, CSV.str. simpl. intros H. inversion H as [H'].
  apply append_inj_l in H'. now apply doubleQuotes_inj.
Qed.

Lemma esc_is_injective_witness :
  CSV.str CSV.dquote = String CSV.dquote EmptyString.
Proof.
  apply (esc_is_injective (CSV.str CSV.dquote) (String CSV.dquote EmptyString)).
  reflexivity.
Defined.

(** ** Re-importing an export *)

Lemma allChars_impl (p q : ascii -> bool) (s : string) :
  (forall c, p c = true -> q c = true) -> allChars p s = true -> allChars q s = true.
Proof.
  intros Hpq. induction s as [|c s IH]; simpl; [reflexivity|].
  intros H. apply andb_prop in H. destruct H as [Hc Hs].
  now rewrite (Hpq c Hc), (IH Hs).
Qed.

Lemma uint_chars (d : Decimal.uint) :
  allChars numberChar (NilEmpty.string_of_uint d) = true.
Proof. induction d; simpl; try assumption; reflexivity. Qed.

Lemma showZ_chars (z : Z) : allChars numberChar (CSV.showZ z) = true.
Proof.
  unfold CSV.showZ, NilZero.string_of_int, NilZero.string_of_uint.
  destruct (Z.to_int z) as [d|d]; destruct d; try reflexivity;
    try (apply (uint_chars (Decimal.D0 d)) || apply uint_chars);
    simpl; apply uint_chars.
Qed.

Lemma fracDigits_chars (fuel : nat) (r d : Z) :
  allChars numberChar (CSV.fracDigits fuel r d) = true.
Proof.
  revert r. induction fuel as [|fuel IH]; intros r; simpl; [reflexivity|].
  destruct (Z.eqb r 0); [reflexivity|].
  rewrite allChars_app, showZ_chars, IH. reflexivity.
Qed.

Lemma numberToString_chars (q : Q) : allChars numberChar (CSV.numberToString q) = true.
Proof.
  unfold CSV.numberToString. cbv zeta.
  rewrite !allChars_app, showZ_chars.
  assert (Hs : allChars numberChar (if Z.ltb (Qnum q) 0 then "-" else EmptyString) = true)
    by (destruct (Z.ltb (Qnum q) 0); reflexivity).
  rewrite Hs.
  destruct (Z.eqb (Z.abs (Qnum q) mod Z.pos (Qden q)) 0); [reflexivity|].
  rewrite allChars_app, fracDigits_chars. reflexivity.
Qed.

Lemma numberChar_noSep (c : ascii) :
  numberChar c = true -> negb (CSV.isFieldSep c) = true.
Proof. destruct c as [[|] [|] [|] [|] [|] [|] [|] [|]]; vm_compute; congruence. Qed.

Lemma numberChar_noBreak (c : ascii) :
  numberChar c = true ->
  negb (Ascii.eqb c CSV.LF) && negb (Ascii.eqb c CSV.CR) = true.
Proof. destruct c as [[|] [|] [|] [|] [|] [|] [|] [|]]; vm_compute; congruence. Qed.

Lemma doubleQuotes_chars (p : ascii -> bool) (v : string) :
  p CSV.dquote = true -> allChars p v = true -> allChars p (CSV.doubleQuotes v) = true.
Proof.
  intros Hq. induction v as [|c v IH]; simpl; [reflexivity|].
  intros H. apply andb_prop in H. destruct H as [Hc Hv].
  destruct (Ascii.eqb c CSV.dquote); simpl; rewrite ?Hq, ?Hc, (IH Hv); reflexivity.
Qed.

Lemma esc_chars (p : ascii -> bool) (v : string) :
  p CSV.dquote = true -> allChars p v = true -> allChars p (CSV.esc v) = true.
Proof.
  intros Hq Hv. unfold CSV.esc, CSV.str.
  rewrite !allChars_app. simpl. rewrite Hq, (doubleQuotes_chars p v Hq Hv). reflexivity.
Qed.

Lemma join_chars (p : ascii -> bool) (sep : string) (l : list string) :
  allChars p sep = true -> Forall (fun s => allChars p s = true) l ->
  allChars p (CSV.join sep l) = true.
Proof.
  intros Hsep. induction 1 as [|x l Hx Hl IH]; [reflexivity|].
  destruct l as [|y l]; [exact Hx|].
  change (CSV.join sep (x :: y :: l)) with (x ++ sep ++ CSV.join sep (y :: l))%string.
  now rewrite !allChars_app, Hx, Hsep, IH.
Qed.

Section Reimport.
Variable stops : list Stop.t.
Hypothesis ids_plain :
  Forall (fun s => noSep (Stop.id s) = true /\ noBreak (Stop.id s) = true) stops.
Hypothesis names_plain :
  Forall (fun s => noSep (Stop.name s) = true /\ noBreak (Stop.name s) = true) stops.

Lemma cells_noSep (s : Stop.t) :
  In s stops -> Forall (fun c => noSep c = true) (map CSV.esc (cellsOf s)).
Proof.
  intros Hs.
  pose proof (proj1 (Forall_forall _ _) ids_plain s Hs) as [Hi _].
  pose proof (proj1 (Forall_forall _ _) names_plain s Hs) as [Hn _].
  unfold cellsOf. simpl.
  repeat constructor; apply esc_chars; try reflexivity; try assumption;
    apply (allChars_impl numberChar); try apply numberToString_chars;
    apply numberChar_noSep.
Qed.

Lemma row_noBreak (s : Stop.t) : In s stops -> noBreak (rowOf s) = true.
Proof.
  intros Hs.
  pose proof (proj1 (Forall_forall _ _) ids_plain s Hs) as [_ Hi].
  pose proof (proj1 (Forall_forall _ _) names_plain s Hs) as [_ Hn].
  unfold rowOf, noBreak. apply join_chars; [reflexivity|].
  unfold cellsOf. simpl.
  repeat constructor; apply esc_chars; try reflexivity; try assumption;
    apply (allChars_impl numberChar); try apply numberToString_chars;
    apply numberChar_noBreak.
Qed.

Lemma row_lat_cell (s : Stop.t) :
  In s stops ->
  CSV.at_ (CSV.splitFields (rowOf s)) (Some 2%nat)
  = Some (CSV.esc (CSV.numberToString (Stop.lat s))).
Proof.
  intros Hs. unfold rowOf.
  rewrite splitFields_join; [reflexivity | discriminate | now apply cells_noSep].
Qed.
End Reimport.

Lemma rowOf_shape (s : Stop.t) : exists t, rowOf s = String CSV.dquote t.
Proof. unfold rowOf, cellsOf. simpl. eexists. reflexivity. Qed.

Lemma join_lines_nonEmpty (x : string) (l : list string) :
  CSV.nonEmpty x = true -> CSV.nonEmpty (CSV.join (CSV.str CSV.LF) (x :: l)) = true.
Proof.
  intros Hx. destruct l as [|y l]; [exact Hx|].
  destruct x; [discriminate | reflexivity].
Qed.

Lemma exportCSV_lines (s : Stop.t) (ss : list Stop.t) :
  CSV.exportCSV (s :: ss)
  = CSV.join (CSV.str CSV.LF) ("ID,Name,Lat,Lng,Demand"%string :: map rowOf (s :: ss)).
Proof.
  change (CSV.exportCSV (s :: ss))
    with (CSV.join (CSV.str CSV.LF)
            (filter CSV.nonEmpty
               ["ID,Name,Lat,Lng,Demand"%string;
                CSV.join (CSV.str CSV.LF) (map rowOf (s :: ss))])).
  assert (Hne : CSV.nonEmpty (CSV.join (CSV.str CSV.LF) (map rowOf (s :: ss))) = true).
  { apply join_lines_nonEmpty. destruct (rowOf_shape s) as (t & ->). reflexivity. }
  cbn [filter CSV.nonEmpty]. rewrite Hne. reflexivity.
Qed.

Lemma filter_mapi_nil {A B : Type} (p : B -> bool) (f : A -> nat -> B)
      (l : list A) (n : nat) :
  (forall x i, In x l -> p (f x i) = false) -> filter p (CSV.mapi_from n f l) = [].
Proof.
  revert n. induction l as [|x l IH]; intros n H; [reflexivity|].
  simpl. rewrite (H x n (or_introl eq_refl)). apply IH.
  intros y i Hy. apply H. now right.
Qed.

Lemma import_rows_dropped (text : string) (rows : list string) :
  filter CSV.nonEmpty (CSV.splitLines text) = "ID,Name,Lat,Lng,Demand"%string :: rows ->
  Forall (fun line => CSV.parseFloat (CSV.at_ (CSV.splitFields line) (Some 2%nat)) = None)
         rows ->
  CSV.importCSV text = Ret [].
Proof.
  intros Hlines Hrows. unfold CSV.importCSV. rewrite Hlines.
  cbv zeta. f_equal. apply filter_mapi_nil. intros line i Hin.
  cbn [CSV.lat CSV.lng].
  change (CSV.findIndex_from 0 "lat"
            (map (fun h => CSV.toLowerCase (CSV.trim h))
                 (CSV.splitFields "ID,Name,Lat,Lng,Demand")))
    with (Some 2%nat).
  rewrite (proj1 (Forall_forall _ _) Hrows line Hin). reflexivity.
Qed.

Lemma filter_all {A : Type} (p : A -> bool) (l : list A) :
  Forall (fun x => p x = true) l -> filter p l = l.
Proof.
  induction 1 as [|x l Hx _ IH]; simpl; [reflexivity|]. now rewrite Hx, IH.
Qed.

(** X18. Re-importing an export never recovers a stop. For stops whose id
    and name contain no comma, tab, line feed or carriage return, the text
    [exportCSV] produces is read by [importCSV] as a header followed by rows
    whose latitude cell still carries its quotes: every row is dropped and
    the result is the empty list, however many stops were exported. *)
Theorem reimport_of_export_is_empty (stops : list Stop.t) :
  Forall (fun s => noSep (Stop.id s) = true /\ noBreak (Stop.id s) = true) stops ->
  Forall (fun s => noSep (Stop.name s) = true /\ noBreak (Stop.name s) = true) stops ->
  CSV.importCSV (CSV.exportCSV stops) = Ret [].
Proof.
  intros Hids Hnames. destruct stops as [|s ss]; [reflexivity|].
  rewrite exportCSV_lines.
  apply (import_rows_dropped _ (map rowOf (s :: ss))).
  - rewrite splitLines_join.
    + apply filter_all. constructor; [reflexivity|].
      apply Forall_map, Forall_forall. intros x _.
      destruct (rowOf_shape x) as (t & ->). reflexivity.
    + discriminate.
    + constructor; [reflexivity|].
      apply Forall_map, Forall_forall. intros x Hx.
      now apply (row_noBreak (s :: ss) Hids Hnames).
  - apply Forall_map, Forall_forall. intros x Hx.
    rewrite (row_lat_cell (s :: ss) Hids Hnames x Hx). apply parseFloat_esc.
Qed.

(** The five stops of the demo data. *)
Lemma reimport_of_export_is_empty_witness :
  CSV.importCSV (CSV.exportCSV demoStops) = Ret [].
Proof.
  apply reimport_of_export_is_empty; repeat constructor.
Defined.

(** ** Defaults of the importer *)

Lemma nth_error_mapi_from {A B : Type} (f : A -> nat -> B) (l : list A) (n i : nat) :
  nth_error (CSV.mapi_from n f l) i = option_map (fun x => f x (n + i)%nat) (nth_error l i).
Proof.
  revert n i. induction l as [|x l IH]; intros n [|i]; simpl; try reflexivity.
  - now rewrite Nat.add_0_r.
  - rewrite IH. now replace (S n + i)%nat with (n + S i)%nat by lia.
Qed.

(** X19. For a text of code units below 256: the stops handed on are the
    rows read from the lines after the header, one row per line in order,
    without the rows whose latitude or longitude is not finite. The [i]-th
    row takes its coordinates from the [i]-th line; when the header has no
    [demand] column every row has demand 1; and when it has no [id] column
    the [i]-th row has the id [String.fromCharCode(65 + i)], whatever rows
    were dropped before it. The header titles are compared after trimming
    white space (the no-break space included) and lower-casing. The part on
    ids is stated for at most 191 rows, for which the code unit fits an
    8-bit character. *)
Theorem import_defaults (text header : string) (rest : list string)
        (stops : list CSV.ParsedStop) :
  filter CSV.nonEmpty (CSV.splitLines text) = header :: rest ->
  CSV.importCSV text = Ret stops ->
  let cols := map (fun h => CSV.toLowerCase (CSV.trim h)) (CSV.splitFields header) in
  exists rows : list CSV.ParsedStop,
    length rows = length rest /\
    stops = filter (fun s => CSV.isFinite (CSV.lat s) && CSV.isFinite (CSV.lng s)) rows /\
    (forall i row, nth_error rows i = Some row ->
       exists line, nth_error rest i = Some line /\
         CSV.lat row = CSV.parseFloat (CSV.at_ (CSV.splitFields line)
                                         (CSV.findIndex_from 0 "lat" cols)) /\
         CSV.lng row = CSV.parseFloat (CSV.at_ (CSV.splitFields line)
                                         (CSV.findIndex_from 0 "lng" cols))) /\
    (CSV.findIndex_from 0 "demand" cols = None ->
     Forall (fun s => CSV.demand s = Some 1) rows /\
     Forall (fun s => CSV.demand s = Some 1) stops) /\
    (CSV.findIndex_from 0 "id" cols = None -> (length rest <= 191)%nat ->
     forall i row, nth_error rows i = Some row ->
                   CSV.id row = CSV.fromCharCode (65 + i)).
Proof.
  intros Hlines Himp cols. unfold CSV.importCSV in Himp. rewrite Hlines in Himp.
  cbv zeta in Himp. fold cols in Himp. inversion Himp as [Hs]. clear Himp.
  match goal with
  | |- context [filter _ (CSV.mapi_from 0 ?f rest)] => set (row := f)
  end.
  exists (CSV.mapi_from 0 row rest).
  split; [apply mapi_from_length|]. split; [reflexivity|]. split; [|split].
  - intros i r Hr. rewrite nth_error_mapi_from in Hr.
    destruct (nth_error rest i) as [line|]; [|discriminate].
    exists line. split; [reflexivity|]. inversion Hr. split; reflexivity.
  - intros Hnone.
    assert (Hrows : Forall (fun s => CSV.demand s = Some 1) (CSV.mapi_from 0 row rest)).
    { apply Forall_forall. intros s Hin.
      apply mapi_from_In in Hin. destruct Hin as (line & i & _ & ->).
      unfold row. simpl. now rewrite Hnone. }
    split; [exact Hrows|].
    apply Forall_forall. intros s Hin. apply filter_In in Hin.
    exact (proj1 (Forall_forall _ _) Hrows s (proj1 Hin)).
  - intros Hnone _ i r Hr. rewrite nth_error_mapi_from in Hr.
    destruct (nth_error rest i) as [line|]; [|discriminate].
    inversion Hr. unfold row. simpl. now rewrite Hnone.
Qed.

(** A file with no [id] and no [demand] column whose first row has no
    number for the latitude: the one stop kept is named after its own row,
    [B]. *)
Lemma import_defaults_witness :
  exists rows : list CSV.ParsedStop,
    length rows = 2%nat /\
    CSV.importCSV ("lat,lng" ++ CSV.str CSV.LF ++ "x,1" ++ CSV.str CSV.LF ++ "2,3")%string
    = Ret (filter (fun s => CSV.isFinite (CSV.lat s) && CSV.isFinite (CSV.lng s)) rows) /\
    map CSV.id (filter (fun s => CSV.isFinite (CSV.lat s) && CSV.isFinite (CSV.lng s)) rows)
    = ["B"%string] /\
    Forall (fun s => CSV.demand s = Some 1) rows /\
    (forall i row, nth_error rows i = Some row -> CSV.id row = CSV.fromCharCode (65 + i)).
Proof.
  destruct (import_defaults
              ("lat,lng" ++ CSV.str CSV.LF ++ "x,1" ++ CSV.str CSV.LF ++ "2,3")%string
              "lat,lng"%string ["x,1"; "2,3"]%string _ eq_refl eq_refl)
    as (rows & Hlen & Hstops & _ & Hd & Hi).
  exists rows. split; [exact Hlen|]. split; [now rewrite <- Hstops|].
  split; [now rewrite <- Hstops|].
  split; [apply Hd; reflexivity | apply Hi; [reflexivity | simpl; lia]].
Defined.

(** * Further properties of the merge guards *)

(** X20. An entry changes the routes only when both of its stops are found,
    in two different routes, each at an end of its route, and the two loads
    together are within capacity: a missing stop, a common route, an
    interior stop or an overload each leave the routes as they are. *)
Theorem merge_only_at_ends (capacity : Q) (routes : list Route.t) (sv : Saving.t) :
  mergeStep capacity routes sv <> routes ->
  exists fi fj ai aj ri rj,
    findRouteAndPos routes (Saving.i sv) = Some (fi, Some ai) /\
    findRouteAndPos routes (Saving.j sv) = Some (fj, Some aj) /\
    fi <> fj /\
    nth_error routes fi = Some ri /\ nth_error routes fj = Some rj /\
    Route.load ri + Route.load rj <= capacity.
Proof.
  intros Hch. unfold mergeStep in Hch.
  destruct (findRouteAndPos routes (Saving.i sv)) as [[fi [ai|]]|] eqn:Hi;
    [| destruct (findRouteAndPos routes (Saving.j sv)) as [[fj aj]|];
       [destruct (Nat.eqb fi fj)|]; congruence
     | congruence].
  destruct (findRouteAndPos routes (Saving.j sv)) as [[fj [aj|]]|] eqn:Hj;
    [| destruct (Nat.eqb fi fj); congruence | congruence].
  destruct (Nat.eqb_spec fi fj) as [He|Hne]; [congruence|].
  destruct (nth_error routes fi) as [ri|] eqn:Hri; [|congruence].
  destruct (nth_error routes fj) as [rj|] eqn:Hrj; [|congruence].
  destruct (Qlt_le_dec capacity (Route.load ri + Route.load rj)) as [Hgt|Hle];
    [congruence|].
  now exists fi, fj, ai, aj, ri, rj.
Qed.

Lemma merge_only_at_ends_witness :
  exists fi fj ai aj ri rj,
    findRouteAndPos (initRoutes [stopOne; stopTwo]) stopOne = Some (fi, Some ai) /\
    findRouteAndPos (initRoutes [stopOne; stopTwo]) stopTwo = Some (fj, Some aj) /\
    fi <> fj /\
    nth_error (initRoutes [stopOne; stopTwo]) fi = Some ri /\
    nth_error (initRoutes [stopOne; stopTwo]) fj = Some rj /\
    Route.load ri + Route.load rj <= 10.
Proof.
  apply (merge_only_at_ends 10 (initRoutes [stopOne; stopTwo])
           (Saving.mk stopOne stopTwo 2)).
  discriminate.
Defined.

(** * Properties of the stop list operations *)

Lemma NoDup_app_single {A : Type} (l : list A) (x : A) :
  NoDup (l ++ [x]) <-> NoDup l /\ ~ In x l.
Proof.
  split.
  - intros H. apply NoDup_remove in H. rewrite app_nil_r in H.
    destruct H as [Hnd Hnin]. split; [exact Hnd|].
    intros Hin. apply Hnin. exact Hin.
  - intros [Hnd Hnin]. apply NoDup_app; [exact Hnd | repeat constructor; intros [] |].
    intros y Hy [<-|[]]. contradiction.
Qed.

Lemma addStop_ids (r1 r2 : Q) (depot : Depot.t) (stops : list Stop.t) :
  map Stop.id (addStop r1 r2 depot stops)
  = map Stop.id stops ++ [CSV.fromCharCode (65 + length stops)].
Proof. unfold addStop. cbv zeta. now rewrite map_app. Qed.

(** X21. [addStop] names the new stop by the number of stops, not by the
    ids in use: the ids stay pairwise distinct exactly when they were
    distinct and the letter for the current count is not taken yet (stated
    for fewer than 191 stops, for which the code unit fits an 8-bit
    character). *)
Theorem addStop_keeps_ids_distinct_iff (r1 r2 : Q) (depot : Depot.t)
        (stops : list Stop.t) :
  (length stops < 191)%nat ->
  (NoDup (map Stop.id (addStop r1 r2 depot stops)) <->
   NoDup (map Stop.id stops) /\
   ~ In (CSV.fromCharCode (65 + length stops)) (map Stop.id stops)).
Proof. intros _. rewrite addStop_ids. apply NoDup_app_single. Qed.

Lemma addStop_keeps_ids_distinct_iff_witness :
  NoDup (map Stop.id (addStop (1 # 3) (2 # 3) demoDepot demoStops)).
Proof.
  apply (proj2 (addStop_keeps_ids_distinct_iff (1 # 3) (2 # 3) demoDepot demoStops
                  ltac:(simpl; lia))).
  split.
  - repeat constructor; simpl; intuition discriminate.
  - simpl; intuition discriminate.
Defined.

Lemma removeStop_In (x : string) (stops : list Stop.t) (s : Stop.t) :
  In s (removeStop x stops) <-> In s stops /\ Stop.id s <> x.
Proof.
  unfold removeStop. rewrite filter_In, negb_true_iff. split; intros [Hin H];
    (split; [exact Hin|]).
  - intros Heq. apply String.eqb_eq in Heq. congruence.
  - now apply String.eqb_neq.
Qed.

(** X22. Removing a stop and then adding one can repeat an id: when a stop
    that survives the removal already carries the letter for the new count,
    the list after [addStop] holds that id twice, so the ids the solver is
    given are no longer pairwise distinct. *)
Theorem add_after_remove_repeats_id (r1 r2 : Q) (depot : Depot.t)
        (stops : list Stop.t) (x : string) (s : Stop.t) :
  (length stops < 191)%nat ->
  In s stops -> Stop.id s <> x ->
  Stop.id s = CSV.fromCharCode (65 + length (removeStop x stops)) ->
  ~ NoDup (map Stop.id (addStop r1 r2 depot (removeStop x stops))).
Proof.
  intros _ Hin Hne Hid Hnd. rewrite addStop_ids in Hnd.
  apply NoDup_app_single in Hnd. destruct Hnd as [_ Hnin]. apply Hnin.
  rewrite <- Hid. apply in_map. now apply removeStop_In.
Qed.

(** The demo stops A to E: after removing A, the stop added is a second E. *)
Lemma add_after_remove_repeats_id_witness :
  map Stop.id (addStop (1 # 3) (2 # 3) demoDepot (removeStop "A" demoStops))
  = ["B"; "C"; "D"; "E"; "E"]%string /\
  ~ NoDup (map Stop.id (addStop (1 # 3) (2 # 3) demoDepot (removeStop "A" demoStops))).
Proof.
  split; [reflexivity|].
  apply (add_after_remove_repeats_id (1 # 3) (2 # 3) demoDepot demoStops "A"
           (Stop.mk "E" "Raw Spot E" (1880 # 100) (9895 # 100) 2)).
  - simpl; lia.
  - simpl. tauto.
  - discriminate.
  - reflexivity.
Defined.
